(** * cpp-micrograd: the scalar reverse-mode automatic-differentiation engine

    A shallow embedding of [value.hpp] / [value.cpp]: the [Value] graph node,
    the operator layer that builds the expression graph, and
    [Value::backward], together with the properties the design document
    states about them; and of the network built on top of it, [neuron.cpp],
    [layer.cpp] and [mlp.cpp].

    - A C++ [double] is a primitive binary64 float ([PrimFloat.float]); [+],
      [*] are the IEEE-754 operations the hardware performs.
    - A [ValuePtr] ([std::shared_ptr<Value>]) is the identity of a heap
      object.  Objects are never freed while the graph is alive, so the heap
      is a growing arena and the identity of an object is its allocation
      index.
    - The functions of [<cmath>] ([std::tanh], [std::exp], [std::pow]) and
      the order [std::less] puts on pointers (which fixes the iteration order
      of a [std::set<ValuePtr>]) belong to the platform; they are parameters
      of the development. *)

From Stdlib Require Import ZArith Floats Lia.
From stdpp Require Import base option list gmap strings.

Open Scope float_scope.

(** ** Graph nodes *)

Abbreviation ValuePtr := nat.

(** [m_backward_fn] is a [std::function<void()>] holding one of six lambdas.
    Each constructor is one lambda of [value.cpp] with its capture list. *)
Inductive backward_fn : Type :=
| FnEmpty                                            (* [[]() {}] *)
| FnAdd (lhs rhs out : ValuePtr)                     (* [[lhs, rhs, out]] of operator+ *)
| FnMul (lhs rhs out : ValuePtr)                     (* [[lhs, rhs, out]] of operator* *)
| FnTanh (v : ValuePtr) (t : float) (out : ValuePtr) (* [[v, t, out]] *)
| FnExp (v : ValuePtr) (e : float) (out : ValuePtr)  (* [[v, e, out]] *)
| FnPow (base : ValuePtr) (exp_val : float) (out : ValuePtr). (* [[base, exp_val, out]] *)

Record Value : Type := mkValue {
  m_data : float;
  m_grad : float;
  m_label : string;
  m_op : string;
  m_prev : list ValuePtr;  (* a [std::set<ValuePtr>], listed in iteration order *)
  m_backward_fn : backward_fn
}.

Abbreviation heap := (list Value).

(** ** Accessors and mutators of [Value] *)

Definition data (v : Value) : float := m_data v.
Definition grad (v : Value) : float := m_grad v.
Definition label (v : Value) : string := m_label v.

Definition set_data (d : float) (v : Value) : Value :=
  mkValue d (m_grad v) (m_label v) (m_op v) (m_prev v) (m_backward_fn v).
Definition set_grad (g : float) (v : Value) : Value :=
  mkValue (m_data v) g (m_label v) (m_op v) (m_prev v) (m_backward_fn v).
Definition add_to_grad (grad_increment : float) (v : Value) : Value :=
  mkValue (m_data v) (m_grad v + grad_increment) (m_label v) (m_op v) (m_prev v)
    (m_backward_fn v).
Definition zero_grad (v : Value) : Value :=
  mkValue (m_data v) 0 (m_label v) (m_op v) (m_prev v) (m_backward_fn v).
Definition set_label (l : string) (v : Value) : Value :=
  mkValue (m_data v) (m_grad v) l (m_op v) (m_prev v) (m_backward_fn v).
Definition set_backward_fn (f : backward_fn) (v : Value) : Value :=
  mkValue (m_data v) (m_grad v) (m_label v) (m_op v) (m_prev v) f.

(** ** Heap computations

    A computation reads and writes the heap and fails ([None]) when it
    dereferences a pointer that owns no object, which is undefined behaviour
    in the C++ program. *)

Definition M (A : Type) : Type := heap -> option (A * heap).

Definition ret {A} (a : A) : M A := fun h => Some (a, h).

Definition bind {A B} (m : M A) (k : A -> M B) : M B :=
  fun h => match m h with
           | Some (a, h') => k a h'
           | None => None
           end.

Notation "x <- m ;; k" := (bind m (fun x => k))
  (at level 100, m at next level, right associativity).
Notation "m ;;; k" := (bind m (fun _ => k))
  (at level 100, right associativity).

(** [p->f()] for a [const] member function [f]. *)
Definition query {A} (p : ValuePtr) (f : Value -> A) : M A :=
  fun h => match h !! p with
           | Some v => Some (f v, h)
           | None => None
           end.

(** [p->f(...)] for a member function [f] that updates the object. *)
Definition invoke (p : ValuePtr) (f : Value -> Value) : M unit :=
  fun h => match h !! p with
           | Some v => Some (tt, <[p := f v]> h)
           | None => None
           end.

(** [std::make_shared<Value>(...)]: the new object gets the next identity. *)
Definition make_shared (v : Value) : M ValuePtr :=
  fun h => Some (length h, h ++ [v]).

(** ** The random source

    [random_uniform()] of [neuron.cpp] draws from a [std::mt19937] seeded
    from [std::random_device] once.  A run of the generator is the sequence
    of values its calls return: [random_uniform gen k] is the value of call
    number [k]. *)
Record generator : Type := mkGenerator { random_uniform : nat -> float }.

(** ** Moved-from objects

    [value.hpp] defaults the move constructor and the move assignment of
    [Value]; they move member by member.  Moving a [double] copies it.
    Moving a [std::string], a [std::set] or a [std::function] hands its
    contents over and leaves the source in a valid but unspecified state,
    which belongs to the platform: the three functions give what the source
    holds after the move.  (A [std::function] left empty, which [backward]
    passes over, is [FnEmpty] here, whose call changes nothing either.) *)
Record moved_from : Type := mkMovedFrom {
  moved_string : string -> string;
  moved_set : list ValuePtr -> list ValuePtr;
  moved_function : backward_fn -> backward_fn
}.

(** ** A reference platform

    Stand-ins for [std::less<ValuePtr>], [std::tanh], [std::exp] and
    [std::pow], of use only to run the model on concrete inputs: pointers
    compare by allocation index, [ref_tanh] is a clamped rational
    approximation, [ref_exp] a truncated series, and [ref_pow] is exact
    division and square root on the four exponents the examples use;
    [ref_gen] is a run of the generator that alternates two values, and
    [ref_moved] leaves a moved-from member empty.  No theorem about the
    engine depends on them. *)

Definition ref_less : nat -> nat -> bool := Nat.ltb.

Definition ref_tanh (x : float) : float :=
  let y := x * (27 + x * x) / (27 + 9 * (x * x)) in
  if y <? -1 then -1 else if 1 <? y then 1 else y.

Definition ref_exp (x : float) : float :=
  1 + x + x * x / 2 + x * x * x / 6.

Definition ref_pow (b e : float) : float :=
  if e =? -1 then 1 / b
  else if e =? -2 then 1 / (b * b)
  else if e =? 0.5 then sqrt b
  else if e =? -0.5 then 1 / sqrt b
  else nan.

Definition ref_gen : generator :=
  mkGenerator (fun k => if Nat.even k then 0.5 else -0.25).

Definition ref_moved : moved_from :=
  mkMovedFrom (fun _ => EmptyString) (fun _ => []) (fun _ => FnEmpty).

Section Engine.

Set Default Proof Using "Type".

(** The platform: [std::less<ValuePtr>] and three functions of [<cmath>]. *)
Variable ptr_less : ValuePtr -> ValuePtr -> bool.
Variable std_tanh : float -> float.
Variable std_exp : float -> float.
Variable std_pow : float -> float -> float.

(** ** [std::set<ValuePtr>]

    A set is listed in iteration order, which is [ptr_less] order.  Inserting
    a pointer that is already present changes nothing; a new pointer goes in
    front of the first element it is less than. *)
Fixpoint insert_sorted (x : ValuePtr) (s : list ValuePtr) : list ValuePtr :=
  match s with
  | [] => [x]
  | y :: s' => if ptr_less x y then x :: s else y :: insert_sorted x s'
  end.

Definition set_insert (x : ValuePtr) (s : list ValuePtr) : list ValuePtr :=
  if decide (x ∈ s) then s else insert_sorted x s.

(** Construction from an initializer list such as [{lhs, rhs}]. *)
Definition std_set (l : list ValuePtr) : list ValuePtr :=
  fold_left (fun s x => set_insert x s) l [].

(** ** Constructors and factory functions *)

(** [Value::Value(double data, const std::string& label)] *)
Definition Value_leaf (d : float) (l : string) : Value :=
  mkValue d 0 l "" [] FnEmpty.

(** [Value::Value(double data, const std::set<ValuePtr>& children,
                  const std::string& op, const std::string& label)] *)
Definition Value_node (d : float) (children : list ValuePtr) (op l : string) : Value :=
  mkValue d 0 l op children FnEmpty.

Definition make_value (d : float) (l : string) : M ValuePtr :=
  make_shared (Value_leaf d l).

Definition make_value_op (d : float) (children : list ValuePtr) (op l : string)
  : M ValuePtr :=
  make_shared (Value_node d (std_set children) op l).

(** ** Operator overloads *)

Definition operator_add (lhs rhs : ValuePtr) : M ValuePtr :=
  a <- query lhs data ;;
  b <- query rhs data ;;
  out <- make_value_op (a + b) [lhs; rhs] "+" "" ;;
  invoke out (set_backward_fn (FnAdd lhs rhs out)) ;;;
  ret out.

Definition operator_mul (lhs rhs : ValuePtr) : M ValuePtr :=
  a <- query lhs data ;;
  b <- query rhs data ;;
  out <- make_value_op (a * b) [lhs; rhs] "*" "" ;;
  invoke out (set_backward_fn (FnMul lhs rhs out)) ;;;
  ret out.

Definition operator_mul_double (lhs : ValuePtr) (rhs_val : float) : M ValuePtr :=
  r <- make_value rhs_val "" ;;
  operator_mul lhs r.

Definition double_operator_mul (lhs_val : float) (rhs : ValuePtr) : M ValuePtr :=
  l <- make_value lhs_val "" ;;
  operator_mul l rhs.

Definition operator_add_double (lhs : ValuePtr) (rhs_val : float) : M ValuePtr :=
  r <- make_value rhs_val "" ;;
  operator_add lhs r.

Definition double_operator_add (lhs_val : float) (rhs : ValuePtr) : M ValuePtr :=
  l <- make_value lhs_val "" ;;
  operator_add l rhs.

(** Unary negation: [v * -1.0]. *)
Definition operator_neg (v : ValuePtr) : M ValuePtr :=
  operator_mul_double v (-1).

(** [lhs + (-rhs)] *)
Definition operator_sub (lhs rhs : ValuePtr) : M ValuePtr :=
  n <- operator_neg rhs ;;
  operator_add lhs n.

Definition pow (base : ValuePtr) (exp_val : float) : M ValuePtr :=
  b <- query base data ;;
  let result := std_pow b exp_val in
  out <- make_value_op result [base] "pow" "" ;;
  invoke out (set_backward_fn (FnPow base exp_val out)) ;;;
  ret out.

(** [lhs * pow(rhs, -1.0)] *)
Definition operator_div (lhs rhs : ValuePtr) : M ValuePtr :=
  r <- pow rhs (-1) ;;
  operator_mul lhs r.

Definition operator_div_double (lhs : ValuePtr) (rhs_val : float) : M ValuePtr :=
  r <- make_value rhs_val "" ;;
  operator_div lhs r.

Definition tanh (v : ValuePtr) : M ValuePtr :=
  x <- query v data ;;
  let t := std_tanh x in
  out <- make_value_op t [v] "tanh" "" ;;
  invoke out (set_backward_fn (FnTanh v t out)) ;;;
  ret out.

Definition exp (v : ValuePtr) : M ValuePtr :=
  x <- query v data ;;
  let e := std_exp x in
  out <- make_value_op e [v] "exp" "" ;;
  invoke out (set_backward_fn (FnExp v e out)) ;;;
  ret out.

(** ** Backpropagation *)

(** Running a stored lambda.  The ghost result lists the [add_to_grad] calls
    the lambda made (target and increment), in order. *)
Definition call_backward_fn (f : backward_fn) : M (list (ValuePtr * float)) :=
  match f with
  | FnEmpty => ret []
  | FnAdd lhs rhs out =>
      g1 <- query out grad ;;
      invoke lhs (add_to_grad g1) ;;;
      g2 <- query out grad ;;
      invoke rhs (add_to_grad g2) ;;;
      ret [(lhs, g1); (rhs, g2)]
  | FnMul lhs rhs out =>
      b <- query rhs data ;;
      g1 <- query out grad ;;
      invoke lhs (add_to_grad (b * g1)) ;;;
      a <- query lhs data ;;
      g2 <- query out grad ;;
      invoke rhs (add_to_grad (a * g2)) ;;;
      ret [(lhs, b * g1); (rhs, a * g2)]
  | FnTanh v t out =>
      g <- query out grad ;;
      invoke v (add_to_grad ((1 - t * t) * g)) ;;;
      ret [(v, (1 - t * t) * g)]
  | FnExp v e out =>
      g <- query out grad ;;
      invoke v (add_to_grad (e * g)) ;;;
      ret [(v, e * g)]
  | FnPow base exp_val out =>
      b <- query base data ;;
      g <- query out grad ;;
      invoke base (add_to_grad ((exp_val * std_pow b (exp_val - 1)) * g)) ;;;
      ret [(base, (exp_val * std_pow b (exp_val - 1)) * g)]
  end.

(** [for (const auto &child : v->m_prev) build_topo(child);] with the state
    the calls share threaded through; a failed call ends the loop. *)
Definition visit_each {S : Type} (visit : ValuePtr -> S -> option S)
    (children : list ValuePtr) (st : S) : option S :=
  fold_left
    (fun acc child =>
       match acc with
       | Some st' => visit child st'
       | None => None
       end)
    children (Some st).

(** The recursive lambda [build_topo] of [Value::backward].  It threads the
    two locals it captures by reference, [visited] and [topo].  [fuel] bounds
    the recursion depth; every nested call has put one more pointer into
    [visited], so the depth never exceeds the number of heap objects. *)
Fixpoint build_topo (fuel : nat) (h : heap) (v : ValuePtr)
    (st : gset ValuePtr * list ValuePtr) : option (gset ValuePtr * list ValuePtr) :=
  match fuel with
  | O => None
  | S fuel' =>
      if decide (v ∈ st.1) then Some st
      else
        match h !! v with
        | None => None
        | Some node =>
            match visit_each (build_topo fuel' h) (m_prev node) ({[v]} ∪ st.1, st.2) with
            | Some st' => Some (st'.1, st'.2 ++ [v])
            | None => None
            end
        end
  end.

(** One ghost record per iteration of the final loop: the node whose
    [m_backward_fn] ran and the increments it made. *)
Definition trace := list (ValuePtr * list (ValuePtr * float)).

(** [for (const auto &v : topo) if (v->m_backward_fn) v->m_backward_fn();]
    Every [Value] is constructed with a lambda in [m_backward_fn], so the
    test always succeeds. *)
Fixpoint for_each (topo : list ValuePtr) : M trace :=
  match topo with
  | [] => ret []
  | v :: rest =>
      f <- query v m_backward_fn ;;
      incs <- call_backward_fn f ;;
      tr <- for_each rest ;;
      ret ((v, incs) :: tr)
  end.

Definition backward (this : ValuePtr) : M trace :=
  fun h =>
    match build_topo (S (length h)) h this (∅, []) with
    | None => None
    | Some (_, topo) =>
        (invoke this (set_grad 1) ;;;
         for_each (reverse topo)) h
    end.

(** ** Mixed [ValuePtr]/[double] subtraction *)

(** Modelled from the spec: [operator-(const ValuePtr&, double)].  The header
    declares it; its body is not in the [value.cpp] at hand.  The design
    document: "the scalar operand is first wrapped as a fresh unlabeled leaf
    Node, then the Node/Node form is used". *)
Definition operator_sub_double (lhs : ValuePtr) (rhs_val : float) : M ValuePtr :=
  r <- make_value rhs_val "" ;;
  operator_sub lhs r.

(** Modelled from the spec: [operator-(double, const ValuePtr&)], declared in
    the header without a body at hand; same sentence of the design
    document. *)
Definition double_operator_sub (lhs_val : float) (rhs : ValuePtr) : M ValuePtr :=
  l <- make_value lhs_val "" ;;
  operator_sub l rhs.

(** ** The public interface

    The functions [value.hpp] declares by name that work on the heap, as
    data: the factories, the mutators, [backward] and the operator layer.
    The copy and move operations, which the header defaults, follow further
    down ([client_call]). *)
Inductive api_call : Type :=
| CallMakeValue (d : float) (l : string)
| CallMakeValueOp (d : float) (children : list ValuePtr) (op l : string)
| CallSetData (p : ValuePtr) (d : float)
| CallSetGrad (p : ValuePtr) (g : float)
| CallAddToGrad (p : ValuePtr) (d : float)
| CallZeroGrad (p : ValuePtr)
| CallSetLabel (p : ValuePtr) (l : string)
| CallBackward (p : ValuePtr)
| CallAdd (lhs rhs : ValuePtr)
| CallMul (lhs rhs : ValuePtr)
| CallNeg (v : ValuePtr)
| CallSub (lhs rhs : ValuePtr)
| CallDiv (lhs rhs : ValuePtr)
| CallAddDouble (lhs : ValuePtr) (d : float)
| CallDoubleAdd (d : float) (rhs : ValuePtr)
| CallMulDouble (lhs : ValuePtr) (d : float)
| CallDoubleMul (d : float) (rhs : ValuePtr)
| CallSubDouble (lhs : ValuePtr) (d : float)
| CallDoubleSub (d : float) (rhs : ValuePtr)
| CallDivDouble (lhs : ValuePtr) (d : float)
| CallTanh (v : ValuePtr)
| CallExp (v : ValuePtr)
| CallPow (base : ValuePtr) (exp_val : float).

Definition discard {A} (m : M A) : M unit := m ;;; ret tt.

Definition exec (c : api_call) : M unit :=
  match c with
  | CallMakeValue d l => discard (make_value d l)
  | CallMakeValueOp d children op l => discard (make_value_op d children op l)
  | CallSetData p d => invoke p (set_data d)
  | CallSetGrad p g => invoke p (set_grad g)
  | CallAddToGrad p d => invoke p (add_to_grad d)
  | CallZeroGrad p => invoke p zero_grad
  | CallSetLabel p l => invoke p (set_label l)
  | CallBackward p => discard (backward p)
  | CallAdd lhs rhs => discard (operator_add lhs rhs)
  | CallMul lhs rhs => discard (operator_mul lhs rhs)
  | CallNeg v => discard (operator_neg v)
  | CallSub lhs rhs => discard (operator_sub lhs rhs)
  | CallDiv lhs rhs => discard (operator_div lhs rhs)
  | CallAddDouble lhs d => discard (operator_add_double lhs d)
  | CallDoubleAdd d rhs => discard (double_operator_add d rhs)
  | CallMulDouble lhs d => discard (operator_mul_double lhs d)
  | CallDoubleMul d rhs => discard (double_operator_mul d rhs)
  | CallSubDouble lhs d => discard (operator_sub_double lhs d)
  | CallDoubleSub d rhs => discard (double_operator_sub d rhs)
  | CallDivDouble lhs d => discard (operator_div_double lhs d)
  | CallTanh v => discard (tanh v)
  | CallExp v => discard (exp v)
  | CallPow base exp_val => discard (pow base exp_val)
  end.

(** The pointers a call receives. *)
Definition call_args (c : api_call) : list ValuePtr :=
  match c with
  | CallMakeValue _ _ => []
  | CallMakeValueOp _ children _ _ => children
  | CallSetData p _ | CallSetGrad p _ | CallAddToGrad p _ | CallZeroGrad p
  | CallSetLabel p _ | CallBackward p => [p]
  | CallAdd lhs rhs | CallMul lhs rhs | CallSub lhs rhs | CallDiv lhs rhs => [lhs; rhs]
  | CallNeg v | CallTanh v | CallExp v => [v]
  | CallAddDouble p _ | CallDoubleAdd _ p | CallMulDouble p _ | CallDoubleMul _ p
  | CallSubDouble p _ | CallDoubleSub _ p | CallDivDouble p _ | CallPow p _ => [p]
  end.

(** A pointer is live when it owns an object of the heap. *)
Definition live (h : heap) (p : ValuePtr) : Prop := p < length h.

(** The heaps built through these functions: from the empty heap, by
    calls on live pointers. *)
Inductive built : heap -> Prop :=
| built_empty : built []
| built_call h c h' :
    built h -> Forall (live h) (call_args c) -> exec c h = Some (tt, h') -> built h'.

(** ** The special member functions of [Value]

    [value.hpp] declares the copy constructor, the copy assignment, the move
    constructor and the move assignment of [Value] public and defaulted.
    Each works member by member, [m_grad] included.  A client reaches them
    on the objects of the heap as [*p = *q], [*p = std::move( *q)],
    [std::make_shared<Value>( *q)] and
    [std::make_shared<Value>(std::move( *q))].  Assignment keeps the
    identity of the object assigned to. *)
Variable platform_moved : moved_from.

(** What is left of an object that has been moved from. *)
Definition moved (v : Value) : Value :=
  mkValue (m_data v) (m_grad v)
    (moved_string platform_moved (m_label v)) (moved_string platform_moved (m_op v))
    (moved_set platform_moved (m_prev v))
    (moved_function platform_moved (m_backward_fn v)).

(** [Value& operator=(const Value& other) = default;], called as [*p = *q]. *)
Definition Value_copy_assign (p q : ValuePtr) : M unit :=
  other <- query q id ;;
  invoke p (fun _ => other).

(** [Value& operator=(Value&& other) noexcept = default;], called as
    [*p = std::move( *q)]. *)
Definition Value_move_assign (p q : ValuePtr) : M unit :=
  other <- query q id ;;
  invoke p (fun _ => other) ;;;
  invoke q moved.

(** [Value(const Value& other) = default;], called as
    [std::make_shared<Value>( *q)]. *)
Definition Value_copy (q : ValuePtr) : M ValuePtr :=
  other <- query q id ;;
  make_shared other.

(** [Value(Value&& other) noexcept = default;], called as
    [std::make_shared<Value>(std::move( *q))]. *)
Definition Value_move (q : ValuePtr) : M ValuePtr :=
  other <- query q id ;;
  out <- make_shared other ;;
  invoke q moved ;;;
  ret out.

(** Everything the header lets a client do to the heap: the named functions
    and the special members. *)
Inductive client_call : Type :=
| Named (c : api_call)
| CallCopyAssign (p q : ValuePtr)
| CallMoveAssign (p q : ValuePtr)
| CallCopy (q : ValuePtr)
| CallMove (q : ValuePtr).

Definition run (c : client_call) : M unit :=
  match c with
  | Named c0 => exec c0
  | CallCopyAssign p q => Value_copy_assign p q
  | CallMoveAssign p q => Value_move_assign p q
  | CallCopy q => discard (Value_copy q)
  | CallMove q => discard (Value_move q)
  end.

Definition client_args (c : client_call) : list ValuePtr :=
  match c with
  | Named c0 => call_args c0
  | CallCopyAssign p q | CallMoveAssign p q => [p; q]
  | CallCopy q | CallMove q => [q]
  end.

(** ** The graph *)

(** [n] is an operand of [c]. *)
Definition operand (h : heap) (c n : ValuePtr) : Prop :=
  exists v, h !! c = Some v /\ n ∈ m_prev v.

Definition reachable (h : heap) : ValuePtr -> ValuePtr -> Prop := rtc (operand h).

(** [x] occurs at an earlier position than [y]. *)
Definition before (l : list ValuePtr) (x y : ValuePtr) : Prop :=
  exists i j, l !! i = Some x /\ l !! j = Some y /\ (i < j)%nat.

(** Every node of the list comes after all its operands. *)
Definition operands_first (h : heap) (topo : list ValuePtr) : Prop :=
  forall i x c, topo !! i = Some x -> operand h x c ->
    exists j, (j < i)%nat /\ topo !! j = Some c.

(** What holds of [visited] and [topo] between two calls of [build_topo]. *)
Definition dfs_inv (h : heap) (st : gset ValuePtr * list ValuePtr) : Prop :=
  NoDup st.2 /\ (forall x, x ∈ st.2 -> x ∈ st.1) /\ operands_first h st.2.

(** The nodes that are visited but not yet in [topo] (those whose call of
    [build_topo] is still running) have an identity of at least [b]. *)
Definition pending_ge (b : nat) (st : gset ValuePtr * list ValuePtr) : Prop :=
  forall x, x ∈ st.1 -> x ∈ st.2 \/ (b <= x)%nat.

(** [r] is the state [st] with the unvisited nodes below [roots] added, in
    an order that puts operands first. *)
Definition visited_from (h : heap) (roots : list ValuePtr)
    (st : gset ValuePtr * list ValuePtr)
    (r : option (gset ValuePtr * list ValuePtr)) : Prop :=
  exists vis' new,
    r = Some (vis', st.2 ++ new)
    /\ dfs_inv h (vis', st.2 ++ new)
    /\ (forall x, x ∈ vis' <-> x ∈ st.1 \/ x ∈ new)
    /\ (forall x, x ∈ new -> x ∉ st.1 /\ exists r0, r0 ∈ roots /\ reachable h r0 x)
    /\ (forall r0, r0 ∈ roots -> r0 ∈ st.2 ++ new).

(** The nodes whose lambda ran, in order. *)
Definition invoked (tr : trace) : list ValuePtr := tr.*1.

(** All [add_to_grad] calls of a pass, in order. *)
Definition increments (tr : trace) : list (ValuePtr * float) := concat tr.*2.

(** The increments a list of [add_to_grad] calls makes to the gradient of
    [n], in order. *)
Definition deltas (n : ValuePtr) (incs : list (ValuePtr * float)) : list float :=
  (filter (fun e => e.1 = n) incs).*2.

(** The increments a pass made to the gradient of [n], in order. *)
Definition contributions (n : ValuePtr) (tr : trace) : list float :=
  deltas n (increments tr).

(** [g += d1; g += d2; ...] *)
Definition accumulate (g : float) (ds : list float) : float :=
  fold_left PrimFloat.add ds g.

(** The net effect of a list of [add_to_grad] calls on the heap. *)
Definition apply_incs (incs : list (ValuePtr * float)) (h : heap) : heap :=
  fold_left (fun h' e => alter (add_to_grad e.2) e.1 h') incs h.

(** The pointers a lambda writes through, and the one it reads [grad] from. *)
Definition targets (f : backward_fn) : list ValuePtr :=
  match f with
  | FnEmpty => []
  | FnAdd lhs rhs _ | FnMul lhs rhs _ => [lhs; rhs]
  | FnTanh v _ _ | FnExp v _ _ | FnPow v _ _ => [v]
  end.

Definition source (f : backward_fn) : option ValuePtr :=
  match f with
  | FnEmpty => None
  | FnAdd _ _ out | FnMul _ _ out | FnTanh _ _ out | FnExp _ _ out
  | FnPow _ _ out => Some out
  end.

(** The shape the operator layer maintains: operands are older than the node
    that uses them, a lambda writes only to operands of its node and reads
    the gradient of its own node. *)
Definition wf_node (p : ValuePtr) (v : Value) : Prop :=
  Forall (fun c => (c < p)%nat) (m_prev v)
  /\ (forall c, c ∈ targets (m_backward_fn v) -> c ∈ m_prev v)
  /\ (forall o, source (m_backward_fn v) = Some o -> o = p).

Definition wf (h : heap) : Prop :=
  forall p v, h !! p = Some v -> wf_node p v.

(** A node as [make_value(data, label)] leaves it. *)
Definition is_leaf (v : Value) : Prop :=
  m_prev v = [] /\ m_backward_fn v = FnEmpty.

(** What [backward] must leave alone: everything but [m_grad]. *)
Definition skeleton (h : heap) : heap := set_grad 0 <$> h.

(** The call returns, and what it returns is a node of the heap. *)
Definition returns_node (m : M ValuePtr) (h : heap) : Prop :=
  exists out h', m h = Some (out, h') /\ live h' out.

(** A call that returns a live pointer, only appends objects to the heap,
    all with gradient 0, and keeps the heap well formed. *)
Definition allocates (m : M ValuePtr) (h : heap) : Prop :=
  exists out l,
    m h = Some (out, h ++ l) /\ live (h ++ l) out /\ (wf h -> wf (h ++ l))
    /\ Forall (fun v => m_grad v = 0) l.

(** What the lambda [f] adds to its targets, read off the heap [h]: the
    gradient of its own node and the values of its operands. *)
Definition local_increments (h : heap) (f : backward_fn)
  : option (list (ValuePtr * float)) :=
  match f with
  | FnEmpty => Some []
  | FnAdd lhs rhs out =>
      vo ← h !! out; Some [(lhs, m_grad vo); (rhs, m_grad vo)]
  | FnMul lhs rhs out =>
      vl ← h !! lhs; vr ← h !! rhs; vo ← h !! out;
      Some [(lhs, m_data vr * m_grad vo); (rhs, m_data vl * m_grad vo)]
  | FnTanh v t out =>
      vo ← h !! out; Some [(v, (1 - t * t) * m_grad vo)]
  | FnExp v e out =>
      vo ← h !! out; Some [(v, e * m_grad vo)]
  | FnPow base exp_val out =>
      vb ← h !! base; vo ← h !! out;
      Some [(base, (exp_val * std_pow (m_data vb) (exp_val - 1)) * m_grad vo)]
  end.

(** The number of objects a call of the public interface allocates. *)
Definition allocated (c : api_call) : nat :=
  match c with
  | CallSetData _ _ | CallSetGrad _ _ | CallAddToGrad _ _ | CallZeroGrad _
  | CallSetLabel _ _ | CallBackward _ => 0
  | CallMakeValue _ _ | CallMakeValueOp _ _ _ _ | CallAdd _ _ | CallMul _ _
  | CallTanh _ | CallExp _ | CallPow _ _ => 1
  | CallNeg _ | CallDiv _ _ | CallAddDouble _ _ | CallDoubleAdd _ _
  | CallMulDouble _ _ | CallDoubleMul _ _ => 2
  | CallSub _ _ | CallDivDouble _ _ => 3
  | CallSubDouble _ _ | CallDoubleSub _ _ => 4
  end.

(** The calls whose body is in [value.cpp]: all but the two mixed forms of
    [-], which the header only declares. *)
Definition has_body (c : api_call) : bool :=
  match c with
  | CallSubDouble _ _ | CallDoubleSub _ _ => false
  | _ => true
  end.

(** The call returns a live pointer and appends [k] objects to the heap,
    changing none that was there. *)
Definition appends (k : nat) (m : M ValuePtr) (h : heap) : Prop :=
  exists out l, m h = Some (out, h ++ l) /\ length l = k /\ live (h ++ l) out.

(** ** The network: [neuron.cpp], [layer.cpp], [mlp.cpp]

    A [Neuron], a [Layer] and an [MLP] are plain objects holding pointers
    into the heap of [Value]s.  An [int] is a [Z]; a loop
    [for (int i = 0; i < n; ++i)] runs [Z.to_nat n] times, that is not at
    all when [n <= 0].

    [random_uniform()] draws from a generator that is seeded from the
    platform once.  The run of the generator [gen] is a parameter, and the
    constructors thread the number of calls made so far. *)
Variable gen : generator.

Record Neuron : Type := mkNeuron {
  m_w : list ValuePtr;
  m_b : ValuePtr
}.

Record Layer : Type := mkLayer { m_neurons : list Neuron }.

Record MLP : Type := mkMLP { m_layers : list Layer }.

(** [for (int i = 0; i < nin; ++i) m_w.push_back(make_value(random_uniform()));] *)
Fixpoint push_weights (n : nat) (w : list ValuePtr) (k : nat)
  : M (list ValuePtr * nat) :=
  match n with
  | O => ret (w, k)
  | S n' =>
      p <- make_value (random_uniform gen k) "" ;;
      push_weights n' (w ++ [p]) (S k)
  end.

(** [Neuron::Neuron(int nin)] *)
Definition Neuron_ctor (nin : Z) (k : nat) : M (Neuron * nat) :=
  r <- push_weights (Z.to_nat nin) [] k ;;
  b <- make_value 0 "" ;;
  ret (mkNeuron r.1 b, r.2).

(** [for (size_t i = 0; i < m_w.size(); ++i) act = act + m_w[i] * x[i];]
    with [ws] the weights from index [i] on.  Reading [x[i]] past the end of
    [x] is undefined behaviour. *)
Fixpoint weigh_inputs (ws : list ValuePtr) (x : list ValuePtr) (i : nat)
    (act : ValuePtr) : M ValuePtr :=
  match ws with
  | [] => ret act
  | wi :: ws' =>
      match x !! i with
      | None => fun _ => None
      | Some xi =>
          p <- operator_mul wi xi ;;
          act' <- operator_add act p ;;
          weigh_inputs ws' x (S i) act'
      end
  end.

(** [Neuron::operator()(const std::vector<ValuePtr> &x)] *)
Definition Neuron_call (n : Neuron) (x : list ValuePtr) : M ValuePtr :=
  act <- weigh_inputs (m_w n) x 0 (m_b n) ;;
  tanh act.

(** [Neuron::parameters()] *)
Definition Neuron_parameters (n : Neuron) : list ValuePtr :=
  m_w n ++ [m_b n].

(** [for (int i = 0; i < nout; ++i) m_neurons.emplace_back(nin);] *)
Fixpoint emplace_neurons (n : nat) (nin : Z) (neurons : list Neuron) (k : nat)
  : M (list Neuron * nat) :=
  match n with
  | O => ret (neurons, k)
  | S n' =>
      r <- Neuron_ctor nin k ;;
      emplace_neurons n' nin (neurons ++ [r.1]) r.2
  end.

(** [Layer::Layer(int nin, int nout)] *)
Definition Layer_ctor (nin nout : Z) (k : nat) : M (Layer * nat) :=
  r <- emplace_neurons (Z.to_nat nout) nin [] k ;;
  ret (mkLayer r.1, r.2).

(** [for (auto &neuron : m_neurons) outs.push_back(neuron(x));] *)
Fixpoint push_outputs (neurons : list Neuron) (x outs : list ValuePtr)
  : M (list ValuePtr) :=
  match neurons with
  | [] => ret outs
  | n :: neurons' =>
      o <- Neuron_call n x ;;
      push_outputs neurons' x (outs ++ [o])
  end.

(** [Layer::operator()(const std::vector<ValuePtr> &x)] *)
Definition Layer_call (l : Layer) (x : list ValuePtr) : M (list ValuePtr) :=
  push_outputs (m_neurons l) x [].

(** [Layer::parameters()]: the parameters of each neuron, appended in turn. *)
Definition Layer_parameters (l : Layer) : list ValuePtr :=
  fold_left (fun params n => params ++ Neuron_parameters n) (m_neurons l) [].

(** [for (int nout : nouts) { m_layers.emplace_back(size, nout); size = nout; }] *)
Fixpoint emplace_layers (nouts : list Z) (size : Z) (layers : list Layer) (k : nat)
  : M (list Layer * nat) :=
  match nouts with
  | [] => ret (layers, k)
  | nout :: nouts' =>
      r <- Layer_ctor size nout k ;;
      emplace_layers nouts' nout (layers ++ [r.1]) r.2
  end.

(** [MLP::MLP(int nin, const std::vector<int> &nouts)] *)
Definition MLP_ctor (nin : Z) (nouts : list Z) (k : nat) : M (MLP * nat) :=
  r <- emplace_layers nouts nin [] k ;;
  ret (mkMLP r.1, r.2).

(** [for (auto &layer : m_layers) x = layer(x);] *)
Fixpoint feed_layers (layers : list Layer) (x : list ValuePtr) : M (list ValuePtr) :=
  match layers with
  | [] => ret x
  | l :: layers' =>
      x' <- Layer_call l x ;;
      feed_layers layers' x'
  end.

(** [MLP::operator()(std::vector<ValuePtr> x)] *)
Definition MLP_call (m : MLP) (x : list ValuePtr) : M (list ValuePtr) :=
  feed_layers (m_layers m) x.

(** [MLP::parameters()] *)
Definition MLP_parameters (m : MLP) : list ValuePtr :=
  fold_left (fun params l => params ++ Layer_parameters l) (m_layers m) [].

(** [for (const auto &p : ps) p->zero_grad();] *)
Fixpoint zero_each (ps : list ValuePtr) : M unit :=
  match ps with
  | [] => ret tt
  | p :: ps' => invoke p zero_grad ;;; zero_each ps'
  end.

(** [MLP::zero_grad()] *)
Definition MLP_zero_grad (m : MLP) : M unit :=
  zero_each (MLP_parameters m).

(** *** What the constructors build

    The objects and the leaves the constructors produce, in closed form. *)

(** The leaves [Neuron::Neuron] allocates when the generator has made [k]
    calls: [n] weights, then the bias. *)
Definition neuron_leaves (n k : nat) : heap :=
  ((fun i => Value_leaf (random_uniform gen (k + i)) "") <$> seq 0 n) ++ [Value_leaf 0 ""].

(** The neuron built on a heap of [base] objects: its weights are the next
    [n] pointers, its bias the one after. *)
Definition neuron_at (n base : nat) : Neuron :=
  mkNeuron (seq base n) (base + n).

Fixpoint layer_leaves (nout n k : nat) : heap :=
  match nout with
  | O => []
  | S nout' => neuron_leaves n k ++ layer_leaves nout' n (k + n)
  end.

Fixpoint layer_neurons (nout n base : nat) : list Neuron :=
  match nout with
  | O => []
  | S nout' => neuron_at n base :: layer_neurons nout' n (base + (n + 1))
  end.

Fixpoint mlp_leaves (nin : Z) (nouts : list Z) (k : nat) : heap :=
  match nouts with
  | [] => []
  | nout :: nouts' =>
      layer_leaves (Z.to_nat nout) (Z.to_nat nin) k
      ++ mlp_leaves nout nouts' (k + Z.to_nat nout * Z.to_nat nin)
  end.

Fixpoint mlp_layers (nin : Z) (nouts : list Z) (base : nat) : list Layer :=
  match nouts with
  | [] => []
  | nout :: nouts' =>
      mkLayer (layer_neurons (Z.to_nat nout) (Z.to_nat nin) base)
      :: mlp_layers nout nouts' (base + Z.to_nat nout * (Z.to_nat nin + 1))
  end.

(** The number of parameters of a network of layer sizes [nouts] whose first
    layer takes [nin] inputs, and the number of weights among them. *)
Fixpoint parameter_count (nin : Z) (nouts : list Z) : nat :=
  match nouts with
  | [] => 0
  | nout :: nouts' =>
      (Z.to_nat nout * (Z.to_nat nin + 1) + parameter_count nout nouts')%nat
  end.

Fixpoint weight_count (nin : Z) (nouts : list Z) : nat :=
  match nouts with
  | [] => 0
  | nout :: nouts' => (Z.to_nat nout * Z.to_nat nin + weight_count nout nouts')%nat
  end.

(** *** What the forward pass computes *)

(** [p->data()]; 0 stands in for a dangling [p]. *)
Definition value_at (h : heap) (p : ValuePtr) : float :=
  match h !! p with
  | Some v => m_data v
  | None => 0
  end.

(** The pre-activation of a neuron as the loop computes it: start from the
    bias, add the products left to right, as long as there is a weight. *)
Fixpoint weighted_sum (ws xs : list float) (act : float) : float :=
  match ws, xs with
  | w :: ws', x :: xs' => weighted_sum ws' xs' (act + w * x)
  | _, _ => act
  end.

(** The output of a neuron for the values the heap holds. *)
Definition neuron_value (h : heap) (n : Neuron) (x : list ValuePtr) : float :=
  std_tanh (weighted_sum (value_at h <$> m_w n) (value_at h <$> x) (value_at h (m_b n))).

(** The node that holds the running sum of a neuron before the product
    number [j] is added, when the forward pass starts on a heap of [base]
    objects: the bias [act] itself for [j = 0], afterwards the sum node of
    the step before. *)
Definition chain_ptr (act : ValuePtr) (base j : nat) : ValuePtr :=
  match j with
  | O => act
  | S j' => (base + 2 * j' + 1)%nat
  end.

(** Every neuron of a layer takes at most as many inputs as the layer
    before it has neurons ([n] for the first layer). *)
Fixpoint chained (n : nat) (layers : list Layer) : Prop :=
  match layers with
  | [] => True
  | l :: layers' =>
      Forall (fun nr => (length (m_w nr) <= n)%nat) (m_neurons l)
      /\ chained (length (m_neurons l)) layers'
  end.

(** The size of the vector a network returns for an input of size [n]. *)
Definition output_size (n : nat) (layers : list Layer) : nat :=
  match last layers with
  | None => n
  | Some l => length (m_neurons l)
  end.

(** The layers have the sizes listed, and every neuron of a layer has
    exactly as many weights as the layer before it has neurons ([n] for the
    first layer). *)
Fixpoint shaped (n : nat) (sizes : list nat) (layers : list Layer) : Prop :=
  match sizes, layers with
  | [], [] => True
  | size :: sizes', l :: layers' =>
      length (m_neurons l) = size
      /\ Forall (fun nr => length (m_w nr) = n) (m_neurons l)
      /\ shaped (length (m_neurons l)) sizes' layers'
  | _, _ => False
  end.

(** The output of a neuron on the input values [xs], for the parameter
    values the heap holds. *)
Definition neuron_output (h : heap) (n : Neuron) (xs : list float) : float :=
  std_tanh (weighted_sum (value_at h <$> m_w n) xs (value_at h (m_b n))).

(** The outputs of the neurons of a layer, all on the same input. *)
Definition layer_output (h : heap) (l : Layer) (xs : list float) : list float :=
  (fun n => neuron_output h n xs) <$> m_neurons l.

(** The layers applied in turn, each to the outputs of the one before. *)
Definition mlp_output (h : heap) (layers : list Layer) (xs : list float) : list float :=
  fold_left (fun ys l => layer_output h l ys) layers xs.

(** The nodes a forward pass allocates: for each neuron a product and a sum
    per weight, and the output. *)
Definition neuron_nodes (n : Neuron) : nat := (2 * length (m_w n) + 1)%nat.

Definition layer_nodes (l : Layer) : nat := sum_list (neuron_nodes <$> m_neurons l).

Definition mlp_nodes (layers : list Layer) : nat := sum_list (layer_nodes <$> layers).

(** * Properties *)

(** ** Binary64 arithmetic

    Facts about [+] and [*] on doubles, from the specification of the
    primitive operations ([FloatAxioms]). *)

Lemma valid_finite (x : float) (s : bool) (m : positive) (e : Z) :
  Prim2SF x = S754_finite s m e ->
  fexp prec emax (Zpos (digits2_pos m) + e) = e /\ (e <= 971)%Z.
Proof.
  intros Hx. pose proof (Prim2SF_valid x) as Hv. rewrite Hx in Hv.
  simpl in Hv. unfold bounded, canonical_mantissa in Hv.
  apply andb_prop in Hv as [Hc Hb].
  apply Z.eqb_eq in Hc. apply Z.leb_le in Hb. done.
Qed.

Lemma round_canonical (s : bool) (m : positive) (e : Z) :
  fexp prec emax (Zpos (digits2_pos m) + e) = e ->
  binary_round_aux prec emax s (Zpos m) e loc_Exact =
    if (e <=? 971)%Z then S754_finite s m e else S754_infinity s.
Proof.
  intros Hc. unfold binary_round_aux, shr_fexp. simpl Zdigits2.
  rewrite Hc, Z.sub_diag. simpl. rewrite Hc, Z.sub_diag. simpl. done.
Qed.

Lemma round_shift (s : bool) (m : positive) (e : Z) (n M : positive) :
  fexp prec emax (Zpos (digits2_pos m) + e) = e ->
  Zpos (digits2_pos M) = (Zpos (digits2_pos m) + Zpos n)%Z ->
  SpecFloat.iter_pos shr_1 n (Build_shr_record (Zpos M) false false) =
    Build_shr_record (Zpos m) false false ->
  binary_round_aux prec emax s (Zpos M) (e - Zpos n) loc_Exact =
    if (e <=? 971)%Z then S754_finite s m e else S754_infinity s.
Proof.
  intros Hc Hd Hshr. unfold binary_round_aux, shr_fexp. simpl Zdigits2.
  replace (Zpos (digits2_pos M) + (e - Zpos n))%Z with (Zpos (digits2_pos m) + e)%Z by lia.
  rewrite Hc. replace (e - (e - Zpos n))%Z with (Zpos n) by lia.
  unfold shr at 1. simpl shr_record_of_loc. rewrite Hshr. simpl.
  replace (e - Zpos n + Zpos n)%Z with e by lia.
  rewrite Hc, Z.sub_diag. simpl. done.
Qed.

Lemma iter_pos_iter {A : Type} (f : A -> A) (n : positive) (x : A) :
  SpecFloat.iter_pos f n x = Pos.iter f x n.
Proof.
  revert x. induction n as [n IH|n IH|]; intros x; simpl.
  - by rewrite !IH, <- !Pos.iter_swap.
  - by rewrite !IH.
  - done.
Qed.

Lemma digits_shift (m n : positive) :
  Zpos (digits2_pos (Pos.iter xO m n)) = (Zpos (digits2_pos m) + Zpos n)%Z.
Proof.
  induction n as [|n IH] using Pos.peano_ind.
  - simpl. lia.
  - rewrite Pos.iter_succ. simpl digits2_pos. lia.
Qed.

Lemma shr_shift (m n : positive) :
  SpecFloat.iter_pos shr_1 n (Build_shr_record (Zpos (Pos.iter xO m n)) false false) =
    Build_shr_record (Zpos m) false false.
Proof.
  rewrite iter_pos_iter. induction n as [|n IH] using Pos.peano_ind.
  - done.
  - rewrite (Pos.iter_succ _ _ shr_1), <- Pos.iter_swap, (Pos.iter_succ _ _ xO).
    exact IH.
Qed.

Lemma round_shifted (s : bool) (m : positive) (e : Z) (n : positive) :
  fexp prec emax (Zpos (digits2_pos m) + e) = e ->
  binary_round_aux prec emax s (Zpos (Pos.iter xO m n)) (e - Zpos n) loc_Exact =
    if (e <=? 971)%Z then S754_finite s m e else S754_infinity s.
Proof.
  intros Hc. apply round_shift; [done|apply digits_shift|apply shr_shift].
Qed.

Lemma mul_one (x : float) : x * 1 = x.
Proof.
  apply Prim2SF_inj. rewrite mul_spec.
  change (Prim2SF 1) with (S754_finite false 4503599627370496 (-52)).
  destruct (Prim2SF x) as [s|s| |s m e] eqn:Hx; simpl; [by destruct s..|done|].
  destruct (valid_finite x s m e Hx) as [Hc Hb].
  unfold SF64mul, SFmul. rewrite Pos.mul_comm, xorb_false_r.
  change (4503599627370496 * m)%positive with (Pos.iter xO m 52).
  change (e + -52)%Z with (e - 52)%Z.
  rewrite round_shifted by done.
  apply Z.leb_le in Hb. by rewrite Hb.
Qed.

Lemma fexp_unfold (z : Z) : fexp prec emax z = Z.max (z - 53) (-1074).
Proof. reflexivity. Qed.

Lemma add_self (x : float) : x + x = 2 * x.
Proof.
  apply Prim2SF_inj. rewrite mul_spec, add_spec.
  change (Prim2SF 2) with (S754_finite false 4503599627370496 (-51)).
  destruct (Prim2SF x) as [s|s| |s m e] eqn:Hx; simpl; [by destruct s..|done|].
  destruct (valid_finite x s m e Hx) as [Hc Hb].
  unfold SF64mul, SFmul, SF64add, SFadd. rewrite Z.min_id.
  unfold shl_align at 1 2. rewrite Z.sub_diag. simpl fst.
  assert (Hsum : (cond_Zopp s (Zpos m) + cond_Zopp s (Zpos m))%Z = cond_Zopp s (Zpos m~0)).
  { destruct s; unfold cond_Zopp; lia. }
  rewrite Hsum.
  assert (Hnorm : binary_normalize prec emax (cond_Zopp s (Zpos m~0)) e false =
                  binary_round prec emax s (xO m) e) by by destruct s.
  rewrite Hnorm. clear Hsum Hnorm. unfold binary_round. simpl xorb.
  rewrite fexp_unfold in Hc.
  destruct (decide (Zpos (digits2_pos m) = 53%Z)) as [Hd|Hd].
  - assert (Hc' : fexp prec emax (Zpos (digits2_pos m) + (e + 1)) = (e + 1)%Z)
      by (rewrite fexp_unfold; lia).
    assert (Hf : fexp prec emax (Zpos (digits2_pos m~0) + e) = (e + 1)%Z).
    { rewrite fexp_unfold. simpl digits2_pos. lia. }
    rewrite Hf. unfold shl_align. replace (e + 1 - e)%Z with 1%Z by lia.
    change (Zpos m~0) with (Zpos (Pos.iter xO m 1)).
    replace e with (e + 1 - 1)%Z at 1 by lia.
    rewrite round_shifted by done.
    change (4503599627370496 * m)%positive with (Pos.iter xO m 52).
    replace (-51 + e)%Z with (e + 1 - 52)%Z by lia.
    by rewrite round_shifted by done.
  - assert (Hf : fexp prec emax (Zpos (digits2_pos m~0) + e) = e).
    { rewrite fexp_unfold. simpl digits2_pos. lia. }
    rewrite Hf. unfold shl_align. rewrite Z.sub_diag.
    rewrite round_canonical by done.
    change (4503599627370496 * m)%positive with (Pos.iter xO (xO m) 51).
    replace (-51 + e)%Z with (e - 51)%Z by lia.
    by rewrite round_shifted by done.
Qed.

(** Classification through the specification *)

Lemma SFeqb_refl (X : spec_float) : X <> S754_nan -> SFeqb X X = true.
Proof.
  unfold SFeqb, SFcompare.
  destruct X as [s|s| |s m e]; [done|by destruct s|done|intros _].
  by destruct s; rewrite Z.compare_refl, Pos.compare_cont_refl.
Qed.

Lemma is_nan_spec (x : float) : is_nan x = true <-> Prim2SF x = S754_nan.
Proof.
  unfold is_nan. rewrite FloatAxioms.eqb_spec. split.
  - intros Hn. destruct (Prim2SF x) as [s|s| |s m e] eqn:Hx; [| |done|];
      by rewrite SFeqb_refl in Hn.
  - by intros ->.
Qed.

Lemma is_nan_false (x : float) : is_nan x = false <-> Prim2SF x <> S754_nan.
Proof.
  rewrite <- is_nan_spec. by destruct (is_nan x).
Qed.

Lemma float_eqb_refl (x : float) : is_nan x = false -> (x =? x) = true.
Proof. unfold is_nan. by destruct (x =? x). Qed.

Lemma is_zero_spec (x : float) : is_zero x = true <-> exists s, Prim2SF x = S754_zero s.
Proof.
  clear std_tanh std_pow std_exp.
  unfold is_zero. rewrite FloatAxioms.eqb_spec.
  change (Prim2SF zero) with (S754_zero false).
  unfold SFeqb, SFcompare.
  destruct (Prim2SF x) as [s|s| |s m e]; split; try naive_solver;
    destruct s; naive_solver.
Qed.

Lemma is_finite_false (x : float) :
  is_finite x = false <-> Prim2SF x = S754_nan \/ exists s, Prim2SF x = S754_infinity s.
Proof.
  clear std_tanh std_pow std_exp.
  unfold is_finite, is_infinity. rewrite FloatAxioms.eqb_spec, abs_spec.
  change (Prim2SF infinity) with (S754_infinity false).
  destruct (is_nan x) eqn:Hn.
  - apply is_nan_spec in Hn. naive_solver.
  - apply is_nan_false in Hn. simpl.
    unfold SFeqb, SFcompare, SFabs.
    destruct (Prim2SF x) as [s|s| |s m e]; split; naive_solver.
Qed.

(** Rounding a positive mantissa never produces NaN. *)

Lemma shr_1_nonneg (mrs : shr_record) : (0 <= shr_m mrs)%Z -> (0 <= shr_m (shr_1 mrs))%Z.
Proof. destruct mrs as [[|[p|p|]|p] r s]; simpl; lia. Qed.

Lemma shr_nonneg (mrs : shr_record) (e n : Z) :
  (0 <= shr_m mrs)%Z -> (0 <= shr_m (shr mrs e n).1)%Z.
Proof.
  intros Hm. destruct n as [|p|p]; simpl; [done| |done].
  rewrite iter_pos_iter. apply Pos.iter_invariant; [|done].
  intros. by apply shr_1_nonneg.
Qed.

Lemma shr_fexp_nonneg (m e : Z) (l : location) :
  (0 <= m)%Z -> (0 <= shr_m (shr_fexp prec emax m e l).1)%Z.
Proof.
  intros Hm. unfold shr_fexp. apply shr_nonneg.
  by destruct l as [|[]].
Qed.

Lemma round_nearest_even_nonneg (m : Z) (l : location) :
  (0 <= m)%Z -> (0 <= round_nearest_even m l)%Z.
Proof.
  intros Hm. destruct l as [|[]]; simpl; try lia. destruct (Z.even m); lia.
Qed.

Lemma binary_round_aux_not_nan (s : bool) (m e : Z) (l : location) :
  (0 <= m)%Z -> binary_round_aux prec emax s m e l <> S754_nan.
Proof.
  intros Hm. unfold binary_round_aux.
  pose proof (shr_fexp_nonneg m e l Hm) as H1.
  destruct (shr_fexp prec emax m e l) as [mrs' e'].
  pose proof (round_nearest_even_nonneg (shr_m mrs') (loc_of_shr_record mrs') H1) as H2.
  pose proof (shr_fexp_nonneg _ e' loc_Exact H2) as H3.
  destruct (shr_fexp prec emax _ e' loc_Exact) as [mrs'' e''].
  simpl in H3. destruct (shr_m mrs'') as [|p|p]; [done| |lia].
  by destruct (e'' <=? emax - prec)%Z.
Qed.

Lemma binary_normalize_not_nan (m e : Z) (sz : bool) :
  binary_normalize prec emax m e sz <> S754_nan.
Proof.
  destruct m as [|p|p]; simpl; [done|..]; unfold binary_round;
    destruct (shl_align _ _ _) as [mz ez]; by apply binary_round_aux_not_nan.
Qed.

Lemma one_minus_square_not_nan (t : float) :
  is_nan t = false -> is_nan (1 - t * t) = false.
Proof.
  rewrite !is_nan_false, sub_spec, mul_spec.
  change (Prim2SF 1) with (S754_finite false 4503599627370496 (-52)).
  intros Ht. destruct (Prim2SF t) as [s|s| |s m e]; simpl; [done|done|done|].
  unfold SF64sub, SF64mul, SFsub, SFmul.
  pose proof (binary_round_aux_not_nan (xorb s s) (Zpos (m * m)) (e + e) loc_Exact) as Hr.
  destruct (binary_round_aux _ _ _ _ _) as [s'|s'| |s' m' e'];
    [done|done|by apply Hr|apply binary_normalize_not_nan].
Qed.

(** Adding to a zero *)

Lemma zero_add_eqb (g x : float) :
  is_zero g = true -> is_nan x = false -> (g + x =? x) = true.
Proof.
  rewrite is_zero_spec, is_nan_false, FloatAxioms.eqb_spec, add_spec.
  intros [s Hg] Hx. rewrite Hg.
  destruct (Prim2SF x) as [sx|sx| |sx m e]; [|by apply SFeqb_refl|done|by apply SFeqb_refl].
  by destruct s, sx.
Qed.

Lemma zero_add_nonzero (g x : float) :
  is_zero g = true -> is_zero x = false -> g + x = x.
Proof.
  intros Hg Hx. apply Prim2SF_inj. rewrite add_spec.
  apply is_zero_spec in Hg as [s Hg]. rewrite Hg.
  destruct (Prim2SF x) as [sx|sx| |sx m e] eqn:HX; [|done..].
  assert (is_zero x = true) by (apply is_zero_spec; eauto). congruence.
Qed.

Lemma double_not_nan (x : float) : is_nan x = false -> is_nan (2 * x) = false.
Proof.
  rewrite <- add_self, !is_nan_false, add_spec. intros Hx.
  destruct (Prim2SF x) as [s|s| |s m e]; [by destruct s..|done|].
  apply binary_normalize_not_nan.
Qed.

(** [g += x * 1.0; g += x * 1.0] from a zero gradient gives [2 * x]. *)
Lemma twice_from_zero (g x : float) :
  is_zero g = true -> is_nan x = false -> ((g + x * 1) + x * 1 =? 2 * x) = true.
Proof.
  intros Hg Hx. rewrite mul_one.
  destruct (is_zero x) eqn:Hz.
  - apply is_zero_spec in Hg as [s Hg]. apply is_zero_spec in Hz as [sx Hz].
    rewrite FloatAxioms.eqb_spec, mul_spec, !add_spec, Hg, Hz.
    by destruct s, sx.
  - rewrite (zero_add_nonzero g x) by done. rewrite add_self.
    apply float_eqb_refl. by apply double_not_nan.
Qed.

(** [g += y * 1.0] from a zero gradient gives [y]. *)
Lemma once_from_zero (g y : float) :
  is_zero g = true -> is_nan y = false -> (g + y * 1 =? y) = true.
Proof. intros Hg Hy. rewrite mul_one. by apply zero_add_eqb. Qed.

(** Infinities and NaN absorb *)

Lemma add_not_finite_l (x y : float) : is_finite x = false -> is_finite (x + y) = false.
Proof.
  rewrite !is_finite_false, add_spec. intros [Hx|[s Hx]]; rewrite Hx.
  - by left.
  - destruct (Prim2SF y) as [sy|sy| |sy m e]; simpl; [eauto| |eauto..].
    destruct s, sy; eauto.
Qed.

Lemma add_not_finite_r (x y : float) : is_finite y = false -> is_finite (x + y) = false.
Proof.
  rewrite !is_finite_false, add_spec. intros [Hy|[s Hy]]; rewrite Hy.
  - left. unfold SF64add. by destruct (Prim2SF x) as [| | |]; simpl.
  - unfold SF64add.
    destruct (Prim2SF x) as [sx|sx| |sx m e]; simpl; [eauto| |eauto..].
    destruct sx, s; eauto.
Qed.

Lemma mul_not_finite_l (x y : float) : is_finite x = false -> is_finite (x * y) = false.
Proof.
  rewrite !is_finite_false, mul_spec. intros [Hx|[s Hx]]; rewrite Hx.
  - by left.
  - destruct (Prim2SF y) as [sy|sy| |sy m e]; simpl; eauto.
Qed.

Lemma mul_not_finite_r (x y : float) : is_finite y = false -> is_finite (x * y) = false.
Proof.
  rewrite !is_finite_false, mul_spec. intros [Hy|[s Hy]]; rewrite Hy.
  - left. unfold SF64mul. by destruct (Prim2SF x) as [| | |]; simpl.
  - unfold SF64mul. destruct (Prim2SF x) as [sx|sx| |sx m e]; simpl; eauto.
Qed.

(** ** The heap as an arena *)

Lemma lookup_snoc_new (h : heap) (v : Value) : (h ++ [v]) !! length h = Some v.
Proof. rewrite lookup_app_r by lia. by rewrite Nat.sub_diag. Qed.

Lemma insert_snoc_new (h : heap) (v v' : Value) :
  <[length h := v']> (h ++ [v]) = h ++ [v'].
Proof.
  rewrite insert_app_r_alt by lia. by rewrite Nat.sub_diag.
Qed.

Lemma live_lookup (h : heap) (p : ValuePtr) : live h p <-> is_Some (h !! p).
Proof. unfold live. by rewrite lookup_lt_is_Some. Qed.

Lemma live_app (h l : heap) (p : ValuePtr) : live h p -> live (h ++ l) p.
Proof. unfold live. rewrite length_app. lia. Qed.

(** ** [std::set] *)

Lemma elem_of_insert_sorted (x y : ValuePtr) (s : list ValuePtr) :
  y ∈ insert_sorted x s <-> y = x \/ y ∈ s.
Proof.
  induction s as [|z s IH]; simpl.
  - rewrite list_elem_of_singleton. set_solver.
  - destruct (ptr_less x z); set_solver.
Qed.

Lemma NoDup_insert_sorted (x : ValuePtr) (s : list ValuePtr) :
  x ∉ s -> NoDup s -> NoDup (insert_sorted x s).
Proof.
  induction s as [|z s IH]; simpl; intros Hx Hnd.
  - apply NoDup_singleton.
  - apply not_elem_of_cons in Hx as [Hxz Hxs].
    destruct (ptr_less x z).
    + apply NoDup_cons. split; [|done]. set_solver.
    + apply NoDup_cons in Hnd as [Hz Hs].
      apply NoDup_cons. split; [|by apply IH].
      rewrite elem_of_insert_sorted. naive_solver.
Qed.

Lemma elem_of_set_insert (x y : ValuePtr) (s : list ValuePtr) :
  y ∈ set_insert x s <-> y = x \/ y ∈ s.
Proof.
  unfold set_insert. destruct (decide (x ∈ s)).
  - naive_solver.
  - apply elem_of_insert_sorted.
Qed.

Lemma NoDup_set_insert (x : ValuePtr) (s : list ValuePtr) :
  NoDup s -> NoDup (set_insert x s).
Proof.
  unfold set_insert. destruct (decide (x ∈ s)); [done|].
  by apply NoDup_insert_sorted.
Qed.

Lemma std_set_spec (l : list ValuePtr) :
  NoDup (std_set l) /\ forall y, y ∈ std_set l <-> y ∈ l.
Proof.
  unfold std_set.
  assert (Hgen : forall acc, NoDup acc ->
    NoDup (fold_left (fun s x => set_insert x s) l acc)
    /\ forall y, y ∈ fold_left (fun s x => set_insert x s) l acc <-> y ∈ l \/ y ∈ acc).
  { induction l as [|x l IH]; simpl; intros acc Hacc.
    - split; [done|]. set_solver.
    - destruct (IH (set_insert x acc)) as [Hnd Hel]; [by apply NoDup_set_insert|].
      split; [done|]. intros y. rewrite Hel, elem_of_set_insert. set_solver. }
  destruct (Hgen [] (NoDup_nil_2)) as [Hnd Hel]. split; [done|].
  intros y. rewrite Hel. set_solver.
Qed.

Lemma std_set_single (x : ValuePtr) : std_set [x] = [x].
Proof.
  unfold std_set, set_insert. simpl.
  by destruct (decide (x ∈ [])) as [Hin|_]; [apply not_elem_of_nil in Hin|].
Qed.

Lemma std_set_twice (x : ValuePtr) : std_set [x; x] = [x].
Proof.
  unfold std_set, set_insert. simpl.
  destruct (decide (x ∈ [])) as [Hin|_]; [by apply not_elem_of_nil in Hin|].
  simpl. destruct (decide (x ∈ [x])) as [_|Hout]; [done|].
  exfalso. apply Hout. apply list_elem_of_here.
Qed.

(** ** The operators, as equations on the heap *)

Lemma make_value_eq (d : float) (l : string) (h : heap) :
  make_value d l h = Some (length h, h ++ [Value_leaf d l]).
Proof. reflexivity. Qed.

Lemma operator_add_eq (lhs rhs : ValuePtr) (h : heap) :
  operator_add lhs rhs h =
    vl ← h !! lhs; vr ← h !! rhs;
    Some (length h,
          h ++ [mkValue (m_data vl + m_data vr) 0 "" "+" (std_set [lhs; rhs])
                  (FnAdd lhs rhs (length h))]).
Proof.
  unfold operator_add, bind, query, make_value_op, make_shared, invoke, ret.
  destruct (h !! lhs) as [vl|]; [|done].
  destruct (h !! rhs) as [vr|]; [|done]. simpl.
  by rewrite lookup_snoc_new, insert_snoc_new.
Qed.

Lemma operator_mul_eq (lhs rhs : ValuePtr) (h : heap) :
  operator_mul lhs rhs h =
    vl ← h !! lhs; vr ← h !! rhs;
    Some (length h,
          h ++ [mkValue (m_data vl * m_data vr) 0 "" "*" (std_set [lhs; rhs])
                  (FnMul lhs rhs (length h))]).
Proof.
  unfold operator_mul, bind, query, make_value_op, make_shared, invoke, ret.
  destruct (h !! lhs) as [vl|]; [|done].
  destruct (h !! rhs) as [vr|]; [|done]. simpl.
  by rewrite lookup_snoc_new, insert_snoc_new.
Qed.

Lemma pow_eq (base : ValuePtr) (exp_val : float) (h : heap) :
  pow base exp_val h =
    vb ← h !! base;
    Some (length h,
          h ++ [mkValue (std_pow (m_data vb) exp_val) 0 "" "pow" (std_set [base])
                  (FnPow base exp_val (length h))]).
Proof.
  unfold pow, bind, query, make_value_op, make_shared, invoke, ret.
  destruct (h !! base) as [vb|]; [|done]. simpl.
  by rewrite lookup_snoc_new, insert_snoc_new.
Qed.

Lemma tanh_eq (v : ValuePtr) (h : heap) :
  tanh v h =
    x ← h !! v;
    Some (length h,
          h ++ [mkValue (std_tanh (m_data x)) 0 "" "tanh" (std_set [v])
                  (FnTanh v (std_tanh (m_data x)) (length h))]).
Proof.
  unfold tanh, bind, query, make_value_op, make_shared, invoke, ret.
  destruct (h !! v) as [x|]; [|done]. simpl.
  by rewrite lookup_snoc_new, insert_snoc_new.
Qed.

Lemma exp_eq (v : ValuePtr) (h : heap) :
  exp v h =
    x ← h !! v;
    Some (length h,
          h ++ [mkValue (std_exp (m_data x)) 0 "" "exp" (std_set [v])
                  (FnExp v (std_exp (m_data x)) (length h))]).
Proof.
  unfold exp, bind, query, make_value_op, make_shared, invoke, ret.
  destruct (h !! v) as [x|]; [|done]. simpl.
  by rewrite lookup_snoc_new, insert_snoc_new.
Qed.

(** ** Well-formedness is kept by allocation *)

Lemma wf_snoc (h : heap) (v : Value) :
  wf h -> wf_node (length h) v -> wf (h ++ [v]).
Proof.
  intros Hwf Hv p w Hp.
  destruct (decide (p < length h)%nat) as [Hlt|Hge].
  - rewrite lookup_app_l in Hp by done. by apply Hwf.
  - rewrite lookup_app_r in Hp by lia.
    destruct (p - length h)%nat as [|k] eqn:Hk; simpl in Hp; [|done].
    injection Hp as <-. by replace p with (length h) by lia.
Qed.

Lemma wf_node_leaf (p : ValuePtr) (d : float) (l : string) :
  wf_node p (Value_leaf d l).
Proof.
  split; [by apply Forall_nil|]. split; simpl.
  - intros c Hc. by apply not_elem_of_nil in Hc.
  - done.
Qed.

Lemma wf_node_new (h : heap) (d : float) (cs : list ValuePtr) (op : string)
    (f : backward_fn) :
  Forall (live h) cs ->
  (forall c, c ∈ targets f -> c ∈ cs) ->
  (forall o, source f = Some o -> o = length h) ->
  wf_node (length h) (mkValue d 0 "" op (std_set cs) f).
Proof.
  intros Hcs Htg Hsrc. destruct (std_set_spec cs) as [_ Hel].
  split; [|split]; simpl.
  - apply Forall_forall. intros c Hc. apply Hel in Hc.
    by apply (proj1 (Forall_forall _ _) Hcs).
  - intros c Hc. apply Hel. by apply Htg.
  - done.
Qed.

Lemma allocates_intro (v : Value) (h : heap) (m : M ValuePtr) :
  m h = Some (length h, h ++ [v]) -> wf_node (length h) v -> m_grad v = 0 ->
  allocates m h.
Proof.
  intros Hm Hv Hg. exists (length h), [v]. split; [done|]. split; [|split].
  - unfold live. rewrite length_app. simpl. lia.
  - intros Hwf. by apply wf_snoc.
  - by apply Forall_singleton.
Qed.

Lemma allocates_bind (m : M ValuePtr) (k : ValuePtr -> M ValuePtr) (h : heap) :
  allocates m h ->
  (forall out l, m h = Some (out, h ++ l) -> live (h ++ l) out -> allocates (k out) (h ++ l)) ->
  allocates (x <- m ;; k x) h.
Proof.
  intros (out & l & Hm & Hout & Hwf & Hg) Hk.
  destruct (Hk out l Hm Hout) as (out' & l' & Hk' & Hout' & Hwf' & Hg').
  exists out', (l ++ l'). unfold bind. rewrite Hm.
  rewrite app_assoc. split; [done|]. split; [done|]. split; [auto|].
  by apply Forall_app.
Qed.

Lemma make_value_allocates (d : float) (l : string) (h : heap) :
  allocates (make_value d l) h.
Proof. eapply allocates_intro; [apply make_value_eq|apply wf_node_leaf|done]. Qed.

Lemma make_value_op_allocates (d : float) (cs : list ValuePtr) (op l : string) (h : heap) :
  Forall (live h) cs -> allocates (make_value_op d cs op l) h.
Proof.
  intros Hcs. eapply allocates_intro; [reflexivity| |done].
  destruct (std_set_spec cs) as [_ Hel].
  split; [|split]; simpl.
  - apply Forall_forall. intros c Hc. apply Hel in Hc.
    by apply (proj1 (Forall_forall _ _) Hcs).
  - intros c Hc. by apply not_elem_of_nil in Hc.
  - done.
Qed.

Lemma operator_add_allocates (lhs rhs : ValuePtr) (h : heap) :
  live h lhs -> live h rhs -> allocates (operator_add lhs rhs) h.
Proof.
  intros Hl Hr.
  destruct (proj1 (live_lookup _ _) Hl) as [vl Hvl].
  destruct (proj1 (live_lookup _ _) Hr) as [vr Hvr].
  eapply allocates_intro.
  - rewrite operator_add_eq, Hvl, Hvr. reflexivity.
  - apply wf_node_new; simpl; [by repeat constructor|set_solver|congruence].
  - done.
Qed.

Lemma operator_mul_allocates (lhs rhs : ValuePtr) (h : heap) :
  live h lhs -> live h rhs -> allocates (operator_mul lhs rhs) h.
Proof.
  intros Hl Hr.
  destruct (proj1 (live_lookup _ _) Hl) as [vl Hvl].
  destruct (proj1 (live_lookup _ _) Hr) as [vr Hvr].
  eapply allocates_intro.
  - rewrite operator_mul_eq, Hvl, Hvr. reflexivity.
  - apply wf_node_new; simpl; [by repeat constructor|set_solver|congruence].
  - done.
Qed.

Lemma pow_allocates (base : ValuePtr) (exp_val : float) (h : heap) :
  live h base -> allocates (pow base exp_val) h.
Proof.
  intros Hb. destruct (proj1 (live_lookup _ _) Hb) as [vb Hvb].
  eapply allocates_intro.
  - rewrite pow_eq, Hvb. reflexivity.
  - apply wf_node_new; simpl; [by repeat constructor|set_solver|congruence].
  - done.
Qed.

Lemma tanh_allocates (v : ValuePtr) (h : heap) :
  live h v -> allocates (tanh v) h.
Proof.
  intros Hb. destruct (proj1 (live_lookup _ _) Hb) as [vb Hvb].
  eapply allocates_intro.
  - rewrite tanh_eq, Hvb. reflexivity.
  - apply wf_node_new; simpl; [by repeat constructor|set_solver|congruence].
  - done.
Qed.

Lemma exp_allocates (v : ValuePtr) (h : heap) :
  live h v -> allocates (exp v) h.
Proof.
  intros Hb. destruct (proj1 (live_lookup _ _) Hb) as [vb Hvb].
  eapply allocates_intro.
  - rewrite exp_eq, Hvb. reflexivity.
  - apply wf_node_new; simpl; [by repeat constructor|set_solver|congruence].
  - done.
Qed.

Lemma operator_mul_double_allocates (lhs : ValuePtr) (d : float) (h : heap) :
  live h lhs -> allocates (operator_mul_double lhs d) h.
Proof.
  intros Hl. apply allocates_bind; [apply make_value_allocates|].
  intros out l _ Hout. apply operator_mul_allocates; [by apply live_app|done].
Qed.

Lemma double_operator_mul_allocates (d : float) (rhs : ValuePtr) (h : heap) :
  live h rhs -> allocates (double_operator_mul d rhs) h.
Proof.
  intros Hl. apply allocates_bind; [apply make_value_allocates|].
  intros out l _ Hout. apply operator_mul_allocates; [done|by apply live_app].
Qed.

Lemma operator_add_double_allocates (lhs : ValuePtr) (d : float) (h : heap) :
  live h lhs -> allocates (operator_add_double lhs d) h.
Proof.
  intros Hl. apply allocates_bind; [apply make_value_allocates|].
  intros out l _ Hout. apply operator_add_allocates; [by apply live_app|done].
Qed.

Lemma double_operator_add_allocates (d : float) (rhs : ValuePtr) (h : heap) :
  live h rhs -> allocates (double_operator_add d rhs) h.
Proof.
  intros Hl. apply allocates_bind; [apply make_value_allocates|].
  intros out l _ Hout. apply operator_add_allocates; [done|by apply live_app].
Qed.

Lemma operator_neg_allocates (v : ValuePtr) (h : heap) :
  live h v -> allocates (operator_neg v) h.
Proof. apply operator_mul_double_allocates. Qed.

Lemma operator_sub_allocates (lhs rhs : ValuePtr) (h : heap) :
  live h lhs -> live h rhs -> allocates (operator_sub lhs rhs) h.
Proof.
  intros Hl Hr. apply allocates_bind; [by apply operator_neg_allocates|].
  intros out l _ Hout. apply operator_add_allocates; [by apply live_app|done].
Qed.

Lemma operator_div_allocates (lhs rhs : ValuePtr) (h : heap) :
  live h lhs -> live h rhs -> allocates (operator_div lhs rhs) h.
Proof.
  intros Hl Hr. apply allocates_bind; [by apply pow_allocates|].
  intros out l _ Hout. apply operator_mul_allocates; [by apply live_app|done].
Qed.

Lemma operator_div_double_allocates (lhs : ValuePtr) (d : float) (h : heap) :
  live h lhs -> allocates (operator_div_double lhs d) h.
Proof.
  intros Hl. apply allocates_bind; [apply make_value_allocates|].
  intros out l _ Hout. apply operator_div_allocates; [by apply live_app|done].
Qed.

Lemma operator_sub_double_allocates (lhs : ValuePtr) (d : float) (h : heap) :
  live h lhs -> allocates (operator_sub_double lhs d) h.
Proof.
  intros Hl. apply allocates_bind; [apply make_value_allocates|].
  intros out l _ Hout. apply operator_sub_allocates; [by apply live_app|done].
Qed.

Lemma double_operator_sub_allocates (d : float) (rhs : ValuePtr) (h : heap) :
  live h rhs -> allocates (double_operator_sub d rhs) h.
Proof.
  intros Hl. apply allocates_bind; [apply make_value_allocates|].
  intros out l _ Hout. apply operator_sub_allocates; [done|by apply live_app].
Qed.

(** ** Heap computations, step by step *)

Lemma bind_Some {A B} (m : M A) (k : A -> M B) (h : heap) (r : B * heap) :
  bind m k h = Some r <-> exists a h1, m h = Some (a, h1) /\ k a h1 = Some r.
Proof.
  unfold bind. destruct (m h) as [[a h1]|]; naive_solver.
Qed.

Lemma query_Some {A} (p : ValuePtr) (f : Value -> A) (h : heap) (a : A) (h' : heap) :
  query p f h = Some (a, h') <-> h' = h /\ exists v, h !! p = Some v /\ a = f v.
Proof.
  clear ptr_less.
  unfold query. destruct (h !! p) as [v|]; naive_solver.
Qed.

Lemma insert_as_alter (h : heap) (p : ValuePtr) (v : Value) (f : Value -> Value) :
  h !! p = Some v -> <[p := f v]> h = alter f p h.
Proof.
  intros Hp. apply list_eq. intros i.
  destruct (decide (i = p)) as [Heq|Hne].
  - subst i. rewrite list_lookup_insert_eq by (by eapply lookup_lt_Some).
    by rewrite list_lookup_alter_eq, Hp.
  - by rewrite list_lookup_insert_ne, list_lookup_alter_ne.
Qed.

Lemma invoke_Some (p : ValuePtr) (f : Value -> Value) (h : heap) (u : unit) (h' : heap) :
  invoke p f h = Some (u, h') <-> is_Some (h !! p) /\ h' = alter f p h.
Proof.
  unfold invoke. destruct (h !! p) as [v|] eqn:Hp.
  - rewrite (insert_as_alter h p v f Hp). destruct u.
    split; [intros [= <-]; eauto|intros [_ ->]; done].
  - split; [done|]. by intros [[? ?] _].
Qed.

Lemma ret_Some {A} (a b : A) (h h' : heap) :
  ret a h = Some (b, h') <-> b = a /\ h' = h.
Proof. unfold ret. naive_solver. Qed.

(** ** The effect of [add_to_grad] calls *)

Lemma set_grad_same (v : Value) : set_grad (m_grad v) v = v.
Proof. by destruct v. Qed.

Lemma accumulate_cons (g d : float) (ds : list float) :
  accumulate g (d :: ds) = accumulate (g + d) ds.
Proof. reflexivity. Qed.

Lemma accumulate_app (g : float) (ds1 ds2 : list float) :
  accumulate g (ds1 ++ ds2) = accumulate (accumulate g ds1) ds2.
Proof. unfold accumulate. by rewrite fold_left_app. Qed.

Lemma deltas_app (n : ValuePtr) (l1 l2 : list (ValuePtr * float)) :
  deltas n (l1 ++ l2) = deltas n l1 ++ deltas n l2.
Proof. unfold deltas. by rewrite filter_app, fmap_app. Qed.

Lemma deltas_cons (n : ValuePtr) (e : ValuePtr * float) (l : list (ValuePtr * float)) :
  deltas n (e :: l) = if decide (e.1 = n) then e.2 :: deltas n l else deltas n l.
Proof.
  unfold deltas. rewrite filter_cons. by destruct (decide (e.1 = n)).
Qed.

Lemma deltas_not_target (n : ValuePtr) (l : list (ValuePtr * float)) :
  n ∉ l.*1 -> deltas n l = [].
Proof.
  induction l as [|e l IH]; [done|]. rewrite fmap_cons, not_elem_of_cons.
  intros [Hne Hl]. rewrite deltas_cons, decide_False by congruence. by apply IH.
Qed.

Lemma apply_incs_cons (e : ValuePtr * float) (incs : list (ValuePtr * float)) (h : heap) :
  apply_incs (e :: incs) h = apply_incs incs (alter (add_to_grad e.2) e.1 h).
Proof. reflexivity. Qed.

Lemma apply_incs_app (l1 l2 : list (ValuePtr * float)) (h : heap) :
  apply_incs (l1 ++ l2) h = apply_incs l2 (apply_incs l1 h).
Proof. unfold apply_incs. by rewrite fold_left_app. Qed.

(** After the calls, an object differs from what it was by its gradient
    only, which has accumulated the increments aimed at it. *)
Lemma apply_incs_lookup (incs : list (ValuePtr * float)) (h : heap) (x : ValuePtr) :
  apply_incs incs h !! x =
    (fun v => set_grad (accumulate (m_grad v) (deltas x incs)) v) <$> h !! x.
Proof.
  revert h. induction incs as [|e incs IH]; intros h.
  - simpl. destruct (h !! x) as [v|]; simpl; [|done].
    unfold accumulate. simpl. by rewrite set_grad_same.
  - rewrite apply_incs_cons, IH, deltas_cons.
    destruct (decide (e.1 = x)) as [->|Hne].
    + rewrite list_lookup_alter_eq.
      destruct (h !! x) as [v|]; simpl; [|done]. by destruct v.
    + by rewrite list_lookup_alter_ne.
Qed.

Lemma apply_incs_length (incs : list (ValuePtr * float)) (h : heap) :
  length (apply_incs incs h) = length h.
Proof.
  revert h. induction incs as [|e incs IH]; intros h; [done|].
  by rewrite apply_incs_cons, IH, length_alter.
Qed.

Lemma apply_incs_skeleton (incs : list (ValuePtr * float)) (h : heap) :
  skeleton (apply_incs incs h) = skeleton h.
Proof.
  apply list_eq. intros i. unfold skeleton.
  rewrite !list_lookup_fmap, apply_incs_lookup.
  by destruct (h !! i).
Qed.

Lemma apply_incs_not_target (incs : list (ValuePtr * float)) (h : heap) (x : ValuePtr) :
  x ∉ incs.*1 -> apply_incs incs h !! x = h !! x.
Proof.
  intros Hx. rewrite apply_incs_lookup, deltas_not_target by done.
  destruct (h !! x) as [v|]; simpl; [|done].
  unfold accumulate. simpl. by rewrite set_grad_same.
Qed.

(** ** Skeletons *)

Lemma skeleton_lookup (h h' : heap) (p : ValuePtr) (v' : Value) :
  skeleton h' = skeleton h -> h' !! p = Some v' ->
  exists v, h !! p = Some v /\ set_grad 0 v' = set_grad 0 v.
Proof.
  intros Hsk Hp.
  assert (Hl : skeleton h' !! p = skeleton h !! p) by by rewrite Hsk.
  unfold skeleton in Hl. rewrite !list_lookup_fmap, Hp in Hl.
  destruct (h !! p) as [v|]; simpl in Hl; [|done].
  exists v. split; [done|]. congruence.
Qed.

Lemma skeleton_length (h h' : heap) :
  skeleton h' = skeleton h -> length h' = length h.
Proof.
  intros Hsk. unfold skeleton in Hsk.
  by rewrite <- (length_fmap (set_grad 0) h'), Hsk, length_fmap.
Qed.

Lemma skeleton_fields (v v' : Value) :
  set_grad 0 v' = set_grad 0 v ->
  m_data v' = m_data v /\ m_label v' = m_label v /\ m_op v' = m_op v
  /\ m_prev v' = m_prev v /\ m_backward_fn v' = m_backward_fn v.
Proof. destruct v, v'. unfold set_grad. simpl. intros [=]. by subst. Qed.

Lemma skeleton_wf (h h' : heap) : skeleton h' = skeleton h -> wf h -> wf h'.
Proof.
  intros Hsk Hwf p v' Hp.
  destruct (skeleton_lookup _ _ _ _ Hsk Hp) as (v & Hv & Heq).
  destruct (skeleton_fields _ _ Heq) as (_ & _ & _ & Hprev & Hfn).
  unfold wf_node. rewrite Hprev, Hfn. by apply Hwf.
Qed.

Lemma skeleton_alter (h : heap) (p : ValuePtr) (f : Value -> Value) :
  (forall v, set_grad 0 (f v) = set_grad 0 v) -> skeleton (alter f p h) = skeleton h.
Proof.
  intros Hf. apply list_eq. intros i. unfold skeleton. rewrite !list_lookup_fmap.
  destruct (decide (i = p)) as [->|Hne].
  - rewrite list_lookup_alter_eq. destruct (h !! p); simpl; [|done]. by rewrite Hf.
  - by rewrite list_lookup_alter_ne.
Qed.

(** ** Running one lambda *)

Lemma call_backward_fn_effect (f : backward_fn) (h : heap)
    (incs : list (ValuePtr * float)) (h' : heap) :
  call_backward_fn f h = Some (incs, h') ->
  h' = apply_incs incs h /\ incs.*1 = targets f.
Proof.
  intros Hcall.
  destruct f; unfold call_backward_fn, bind, query, invoke, ret in Hcall;
    repeat case_match; simplify_eq; (split; [|done]);
    unfold apply_incs; simpl;
    repeat (erewrite insert_as_alter by eassumption); done.
Qed.

Lemma call_backward_fn_total (f : backward_fn) (h : heap) :
  Forall (live h) (targets f) ->
  (forall o, source f = Some o -> live h o) ->
  is_Some (call_backward_fn f h).
Proof.
  intros Htg Hsrc.
  destruct f; simpl in Htg; [by exists ([], h)|..];
    specialize (Hsrc _ eq_refl);
    unfold call_backward_fn, bind, query, invoke, ret;
    repeat match goal with
      | H : Forall _ (_ :: _) |- _ => apply Forall_cons in H as [? H]
      end;
    repeat match goal with
      | |- context [?l !! ?p] => destruct (l !! p) eqn:?; simpl
      end;
    try done;
    exfalso;
    repeat match goal with
      | H : _ !! _ = None |- _ => apply lookup_ge_None in H
      end;
    rewrite ?length_insert in *; unfold live in *; lia.
Qed.

(** ** The loop over the sorted nodes *)

Lemma for_each_cons (v : ValuePtr) (rest : list ValuePtr) (h : heap) (tr : trace)
    (h' : heap) :
  for_each (v :: rest) h = Some (tr, h') <->
  exists node incs h1 tr',
    h !! v = Some node
    /\ call_backward_fn (m_backward_fn node) h = Some (incs, h1)
    /\ for_each rest h1 = Some (tr', h')
    /\ tr = (v, incs) :: tr'.
Proof.
  clear ptr_less.
  simpl. rewrite bind_Some. split.
  - intros (f & h0 & Hq & Hrest). apply query_Some in Hq as (-> & node & Hnode & ->).
    apply bind_Some in Hrest as (incs & h1 & Hcall & Hrest).
    apply bind_Some in Hrest as (tr' & h2 & Hfor & Hret).
    apply ret_Some in Hret as [-> ->]. naive_solver.
  - intros (node & incs & h1 & tr' & Hnode & Hcall & Hfor & ->).
    exists (m_backward_fn node), h. split; [apply query_Some; eauto|].
    apply bind_Some. exists incs, h1. split; [done|].
    apply bind_Some. exists tr', h'. split; [done|]. by apply ret_Some.
Qed.

Lemma for_each_app (l1 l2 : list ValuePtr) (h : heap) (tr : trace) (h' : heap) :
  for_each (l1 ++ l2) h = Some (tr, h') <->
  exists tr1 h1 tr2,
    for_each l1 h = Some (tr1, h1) /\ for_each l2 h1 = Some (tr2, h')
    /\ tr = tr1 ++ tr2.
Proof.
  clear ptr_less.
  revert h tr. induction l1 as [|v l1 IH]; intros h tr.
  - simpl. split.
    + intros Hfor. exists [], h, tr. by rewrite ret_Some.
    + intros (tr1 & h1 & tr2 & Hret & Hfor & ->).
      apply ret_Some in Hret as [-> ->]. done.
  - rewrite <- app_comm_cons, for_each_cons. split.
    + intros (node & incs & h1 & tr' & Hnode & Hcall & Hfor & ->).
      apply IH in Hfor as (tr1 & h2 & tr2 & Hfor1 & Hfor2 & ->).
      exists ((v, incs) :: tr1), h2, tr2. split; [|done].
      apply for_each_cons. naive_solver.
    + intros (tr1 & h1 & tr2 & Hfor1 & Hfor2 & ->).
      apply for_each_cons in Hfor1 as (node & incs & h0 & tr' & Hnode & Hcall & Hfor & ->).
      exists node, incs, h0, (tr' ++ tr2). split; [done|]. split; [done|].
      split; [|done]. apply IH. naive_solver.
Qed.

(** What a pass did, read off its trace: it ran the lambdas of the listed
    nodes in order, each wrote to the targets of its lambda, and the heap
    changed by these increments only. *)
Lemma for_each_effect (l : list ValuePtr) (h : heap) (tr : trace) (h' : heap) :
  for_each l h = Some (tr, h') ->
  invoked tr = l
  /\ h' = apply_incs (increments tr) h
  /\ Forall (fun e => exists node,
                h !! e.1 = Some node /\ e.2.*1 = targets (m_backward_fn node)) tr.
Proof.
  revert h tr. induction l as [|v l IH]; intros h tr Hfor.
  - apply ret_Some in Hfor as [-> ->]. by repeat split.
  - apply for_each_cons in Hfor as (node & incs & h1 & tr' & Hnode & Hcall & Hfor & ->).
    apply call_backward_fn_effect in Hcall as [-> Htg].
    destruct (IH _ _ Hfor) as (Hinv & Hh' & Hall). split; [|split].
    + unfold invoked in *. rewrite fmap_cons. simpl. by f_equal.
    + unfold increments in *. rewrite fmap_cons. simpl concat.
      by rewrite apply_incs_app.
    + apply Forall_cons. split; [by exists node|].
      eapply Forall_impl; [exact Hall|]. intros e (node' & Hnode' & He). simpl in *.
      rewrite apply_incs_lookup in Hnode'.
      destruct (h !! e.1) as [w|]; simpl in Hnode'; [|done].
      injection Hnode' as <-. by exists w.
Qed.

Lemma for_each_skeleton (l : list ValuePtr) (h : heap) (tr : trace) (h' : heap) :
  for_each l h = Some (tr, h') -> skeleton h' = skeleton h.
Proof.
  intros Hfor. apply for_each_effect in Hfor as (_ & -> & _).
  apply apply_incs_skeleton.
Qed.

(** A node whose lambda is [[]() {}] is passed over. *)
Lemma for_each_noop (l : list ValuePtr) (h : heap) :
  (forall x, x ∈ l -> exists v, h !! x = Some v /\ m_backward_fn v = FnEmpty) ->
  for_each l h = Some ((fun x => (x, [])) <$> l, h).
Proof.
  induction l as [|v l IH]; intros Hl; [done|].
  apply for_each_cons. destruct (Hl v) as (node & Hnode & Hfn); [apply list_elem_of_here|].
  exists node, [], h, ((fun x => (x, [])) <$> l). rewrite Hfn.
  repeat split; [done|]. apply IH. intros x Hx. apply Hl. by apply list_elem_of_further.
Qed.

Lemma wf_targets_live (h : heap) (p : ValuePtr) (v : Value) :
  wf h -> h !! p = Some v ->
  Forall (live h) (targets (m_backward_fn v))
  /\ (forall o, source (m_backward_fn v) = Some o -> live h o).
Proof.
  intros Hwf Hp. destruct (Hwf p v Hp) as (Hprev & Htg & Hsrc).
  assert (Hlt : (p < length h)%nat) by by eapply lookup_lt_Some.
  split.
  - apply Forall_forall. intros c Hc. apply Htg in Hc.
    pose proof (proj1 (Forall_forall _ _) Hprev c Hc). unfold live. simpl in *. lia.
  - intros o Ho. apply Hsrc in Ho. by subst.
Qed.

(** In a well-formed heap the loop runs to its end. *)
Lemma for_each_total (l : list ValuePtr) (h : heap) :
  wf h -> Forall (live h) l -> is_Some (for_each l h).
Proof.
  clear ptr_less.
  revert h. induction l as [|v l IH]; intros h Hwf Hl; [by eexists|].
  apply Forall_cons in Hl as [Hv Hl].
  destruct (proj1 (live_lookup _ _) Hv) as [node Hnode].
  destruct (wf_targets_live _ _ _ Hwf Hnode) as [Htg Hsrc].
  destruct (call_backward_fn_total _ _ Htg Hsrc) as [[incs h1] Hcall].
  pose proof (call_backward_fn_effect _ _ _ _ Hcall) as [Hh1 _].
  destruct (IH h1) as [[tr' h'] Hfor].
  - eapply skeleton_wf; [|exact Hwf]. subst h1. apply apply_incs_skeleton.
  - subst h1. eapply Forall_impl; [exact Hl|]. intros x. unfold live.
    by rewrite apply_incs_length.
  - exists ((v, incs) :: tr', h'). apply for_each_cons. naive_solver.
Qed.

(** ** The depth-first traversal *)

Lemma visit_each_nil {S : Type} (visit : ValuePtr -> S -> option S) (st : S) :
  visit_each visit [] st = Some st.
Proof. reflexivity. Qed.

Lemma visit_each_cons {S : Type} (visit : ValuePtr -> S -> option S)
    (c : ValuePtr) (cs : list ValuePtr) (st : S) :
  visit_each visit (c :: cs) st =
    match visit c st with
    | Some st' => visit_each visit cs st'
    | None => None
    end.
Proof.
  unfold visit_each. simpl. destruct (visit c st) as [st'|]; [done|].
  induction cs as [|c' cs IH]; [done|]. apply IH.
Qed.

Lemma operand_lt (h : heap) (x c : ValuePtr) : wf h -> operand h x c -> (c < x)%nat.
Proof.
  intros Hwf (node & Hx & Hc). destruct (Hwf x node Hx) as (Hprev & _).
  by apply (proj1 (Forall_forall _ _) Hprev).
Qed.

Lemma reachable_le (h : heap) (x y : ValuePtr) :
  wf h -> reachable h x y -> (y <= x)%nat.
Proof.
  intros Hwf Hxy. induction Hxy as [x|x c y Hop _ IH]; [done|].
  pose proof (operand_lt _ _ _ Hwf Hop). lia.
Qed.

Lemma operand_live (h : heap) (x c : ValuePtr) : wf h -> operand h x c -> live h c.
Proof.
  intros Hwf Hop. pose proof (operand_lt _ _ _ Hwf Hop) as Hlt.
  destruct Hop as (node & Hx & _). apply lookup_lt_Some in Hx. unfold live. lia.
Qed.

Lemma reachable_live (h : heap) (x y : ValuePtr) :
  wf h -> live h x -> reachable h x y -> live h y.
Proof.
  intros Hwf Hx Hxy. pose proof (reachable_le _ _ _ Hwf Hxy). unfold live in *. lia.
Qed.

Lemma operands_first_app (h : heap) (topo : list ValuePtr) (v : ValuePtr) :
  operands_first h topo ->
  (forall c, operand h v c -> c ∈ topo) ->
  operands_first h (topo ++ [v]).
Proof.
  intros Htopo Hv i x c Hi Hop.
  destruct (decide (i < length topo)%nat) as [Hlt|Hge].
  - rewrite lookup_app_l in Hi by done.
    destruct (Htopo i x c Hi Hop) as (j & Hj & Hjc).
    exists j. split; [done|]. rewrite lookup_app_l by lia. done.
  - rewrite lookup_app_r in Hi by lia.
    destruct (i - length topo)%nat as [|k] eqn:Hk; simpl in Hi; [|done].
    injection Hi as <-.
    destruct (proj1 (list_elem_of_lookup _ _) (Hv c Hop)) as [j Hj].
    exists j. split.
    + apply lookup_lt_Some in Hj. lia.
    + by rewrite lookup_app_l by (by eapply lookup_lt_Some).
Qed.

(** One call of [build_topo] appends [v] last unless [v] was visited. *)
Lemma build_topo_last (fuel : nat) (h : heap) (v : ValuePtr)
    (st st' : gset ValuePtr * list ValuePtr) :
  build_topo fuel h v st = Some st' -> v ∉ st.1 -> exists l, st'.2 = l ++ [v].
Proof.
  destruct fuel as [|fuel]; [done|]. simpl. intros Hb Hv.
  rewrite decide_False in Hb by done.
  destruct (h !! v) as [node|]; [|done].
  destruct (visit_each _ _ _) as [st1|]; [|done].
  injection Hb as <-. by exists st1.2.
Qed.

Section Traversal.

Variable h : heap.
Hypothesis Hwf : wf h.
Variable fuel : nat.

(** The recursive calls are correct for the nodes the fuel suffices for. *)
Hypothesis IHfuel : forall c st,
  (c < fuel)%nat -> live h c -> dfs_inv h st -> pending_ge (S c) st ->
  visited_from h [c] st (build_topo fuel h c st).

Lemma visit_each_spec (v : ValuePtr) (cs : list ValuePtr)
    (st : gset ValuePtr * list ValuePtr) :
  (v <= fuel)%nat -> live h v ->
  (forall c, c ∈ cs -> operand h v c) ->
  dfs_inv h st -> pending_ge v st ->
  visited_from h cs st (visit_each (build_topo fuel h) cs st).
Proof using Hwf IHfuel.
  clear ptr_less.
  intros Hfuel Hv. revert st. induction cs as [|c cs IH]; intros st Hcs Hinv Hpend.
  - exists st.1, []. rewrite app_nil_r, visit_each_nil. destruct st as [vis topo].
    split; [done|]. split; [done|]. split; [set_solver|].
    split; intros x Hx; by apply not_elem_of_nil in Hx.
  - assert (Hop : operand h v c) by (apply Hcs, list_elem_of_here).
    pose proof (operand_lt _ _ _ Hwf Hop) as Hlt.
    destruct (IHfuel c st) as (vis1 & new1 & Hb & Hinv1 & Hvis1 & Hnew1 & Hroot1).
    { lia. } { by eapply operand_live. } { done. }
    { intros x Hx. destruct (Hpend x Hx); [by left|right; lia]. }
    rewrite visit_each_cons, Hb.
    destruct (IH (vis1, st.2 ++ new1)) as (vis2 & new2 & Hb2 & Hinv2 & Hvis2 & Hnew2 & Hroot2).
    { intros c' Hc'. apply Hcs. by apply list_elem_of_further. }
    { done. }
    { intros x Hx. simpl in *. apply Hvis1 in Hx as [Hx|Hx].
      - destruct (Hpend x Hx) as [Hin|Hge]; [left|by right].
        apply elem_of_app. by left.
      - left. apply elem_of_app. by right. }
    simpl in *. exists vis2, (new1 ++ new2). rewrite app_assoc.
    split; [done|]. split; [done|]. split; [|split].
    + intros x. rewrite Hvis2, Hvis1, elem_of_app. tauto.
    + intros x Hx. apply elem_of_app in Hx as [Hx|Hx].
      * destruct (Hnew1 x Hx) as (Hnot & r0 & Hr0 & Hreach). split; [done|].
        apply list_elem_of_singleton in Hr0 as ->. exists c.
        split; [apply list_elem_of_here|done].
      * destruct (Hnew2 x Hx) as (Hnot & r0 & Hr0 & Hreach). split.
        -- intros Hin. apply Hnot, Hvis1. by left.
        -- exists r0. split; [by apply list_elem_of_further|done].
    + intros r0 Hr0. apply elem_of_cons in Hr0 as [->|Hr0].
      * apply elem_of_app. left. apply Hroot1, list_elem_of_here.
      * by apply Hroot2.
Qed.

End Traversal.

Lemma build_topo_spec (h : heap) (fuel : nat) :
  wf h ->
  forall v st,
    (v < fuel)%nat -> live h v -> dfs_inv h st -> pending_ge (S v) st ->
    visited_from h [v] st (build_topo fuel h v st).
Proof.
  clear ptr_less.
  intros Hwf. induction fuel as [|fuel IH]; intros v st Hfuel Hv Hinv Hpend; [lia|].
  destruct st as [vis topo]. simpl.
  destruct (decide (v ∈ vis)) as [Hin|Hout].
  - exists vis, []. rewrite app_nil_r. split; [done|]. split; [done|].
    split; [set_solver|]. split.
    + intros x Hx. by apply not_elem_of_nil in Hx.
    + intros r0 Hr0. apply list_elem_of_singleton in Hr0 as ->.
      destruct (Hpend v Hin) as [Hv'|Hv']; [done|lia].
  - destruct (proj1 (live_lookup _ _) Hv) as [node Hnode]. rewrite Hnode.
    destruct Hinv as (Hnd & Hsub & Hfirst). simpl in *.
    destruct (visit_each_spec h Hwf fuel IH v (m_prev node) ({[v]} ∪ vis, topo))
      as (vis1 & new & Hb & (Hnd1 & Hsub1 & Hfirst1) & Hvis1 & Hnew & Hroots).
    { lia. } { done. } { intros c Hc. by exists node. }
    { split; [done|]. split; [|done]. intros x Hx. simpl. set_solver. }
    { intros x Hx. simpl in *. apply elem_of_union in Hx as [Hx|Hx].
      - apply elem_of_singleton in Hx as ->. by right.
      - destruct (Hpend x Hx); [by left|right; lia]. }
    simpl in *. rewrite Hb. simpl.
    exists vis1, (new ++ [v]). rewrite app_assoc.
    assert (Hvtopo : v ∉ topo ++ new).
    { intros Hvin. apply elem_of_app in Hvin as [Hvin|Hvin].
      - by apply Hout, Hsub.
      - destruct (Hnew v Hvin) as [Hnot _]. apply Hnot. set_solver. }
    split; [done|]. split; [|split; [|split]].
    + split; [|split]; simpl.
      * apply NoDup_app. split; [done|]. split; [|apply NoDup_singleton].
        intros x Hx Hxv. apply list_elem_of_singleton in Hxv as ->. done.
      * intros x Hx. apply elem_of_app in Hx as [Hx|Hx]; [by apply Hsub1|].
        apply list_elem_of_singleton in Hx as ->. apply Hvis1. left. set_solver.
      * apply operands_first_app; [done|].
        intros c (node' & Hnode' & Hc). rewrite Hnode in Hnode'.
        injection Hnode' as <-. by apply Hroots.
    + intros x. rewrite Hvis1, elem_of_app, list_elem_of_singleton. set_solver.
    + intros x Hx. apply elem_of_app in Hx as [Hx|Hx].
      * destruct (Hnew x Hx) as (Hnot & r0 & Hr0 & Hreach). split; [set_solver|].
        exists v. split; [apply list_elem_of_here|].
        eapply rtc_l; [|exact Hreach]. by exists node.
      * apply list_elem_of_singleton in Hx as ->. split; [done|].
        exists v. split; [apply list_elem_of_here|apply rtc_refl].
    + intros r0 Hr0. apply list_elem_of_singleton in Hr0 as ->.
      apply elem_of_app. right. apply list_elem_of_here.
Qed.

(** The list the traversal hands to the loop: the root, then the nodes
    reachable from it, each once, every node after all the nodes that use it
    as an operand. *)
Lemma build_topo_root (h : heap) (root : ValuePtr) :
  wf h -> live h root ->
  exists vis rest,
    build_topo (S (length h)) h root (∅, []) = Some (vis, rest ++ [root])
    /\ NoDup (rest ++ [root])
    /\ operands_first h (rest ++ [root])
    /\ (forall x, x ∈ rest ++ [root] <-> reachable h root x).
Proof.
  intros Hwf Hroot.
  destruct (build_topo_spec h (S (length h)) Hwf root (∅, []))
    as (vis & new & Hb & (Hnd & Hsub & Hfirst) & Hvis & Hnew & Hroots).
  { unfold live in Hroot. lia. } { done. }
  { split; [apply NoDup_nil_2|]. split; [set_solver|].
    intros i x c Hi. done. }
  { intros x Hx. set_solver. }
  destruct (build_topo_last _ _ _ _ _ Hb) as [rest Hrest]; [set_solver|].
  simpl in Hrest, Hnd, Hsub, Hfirst, Hvis, Hnew, Hroots.
  change ([] ++ new) with new in Hb. subst new. exists vis, rest.
  split; [done|]. split; [done|]. split; [done|].
  intros x. split.
  - intros Hx. destruct (Hnew x Hx) as (_ & r0 & Hr0 & Hreach).
    by apply list_elem_of_singleton in Hr0 as ->.
  - revert x. apply rtc_ind_r.
    + apply elem_of_app. right. apply list_elem_of_here.
    + intros y z _ Hop IH. destruct (proj1 (list_elem_of_lookup _ _) IH) as [i Hi].
      destruct (Hfirst i y z Hi Hop) as (j & _ & Hj).
      by eapply list_elem_of_lookup_2.
Qed.

(** ** [backward], unfolded *)

Lemma backward_Some (root : ValuePtr) (h : heap) (tr : trace) (h' : heap) :
  backward root h = Some (tr, h') <->
  exists vis topo,
    build_topo (S (length h)) h root (∅, []) = Some (vis, topo)
    /\ is_Some (h !! root)
    /\ for_each (reverse topo) (alter (set_grad 1) root h) = Some (tr, h').
Proof.
  clear ptr_less.
  unfold backward.
  destruct (build_topo (S (length h)) h root (∅, [])) as [[vis topo]|]; [|naive_solver].
  rewrite bind_Some. split.
  - intros ([] & h1 & Hinv & Hfor). apply invoke_Some in Hinv as [Hroot ->].
    by exists vis, topo.
  - intros (vis' & topo' & [= <- <-] & Hroot & Hfor).
    exists tt, (alter (set_grad 1) root h). split; [|done]. by apply invoke_Some.
Qed.

Lemma backward_skeleton (root : ValuePtr) (h : heap) (tr : trace) (h' : heap) :
  backward root h = Some (tr, h') -> skeleton h' = skeleton h.
Proof.
  intros Hb. apply backward_Some in Hb as (vis & topo & _ & _ & Hfor).
  apply for_each_skeleton in Hfor. rewrite Hfor.
  apply skeleton_alter. by intros [].
Qed.

(** On a well-formed heap [backward] returns, and the lambdas it runs are
    those of the root and then of the rest of the traversal, reversed. *)
Lemma backward_total (root : ValuePtr) (h : heap) :
  wf h -> live h root ->
  exists rest tr h',
    backward root h = Some (tr, h')
    /\ for_each (root :: reverse rest) (alter (set_grad 1) root h) = Some (tr, h')
    /\ invoked tr = root :: reverse rest
    /\ NoDup (rest ++ [root])
    /\ operands_first h (rest ++ [root])
    /\ (forall x, x ∈ rest ++ [root] <-> reachable h root x).
Proof.
  intros Hwf Hroot.
  destruct (build_topo_root h root Hwf Hroot) as (vis & rest & Hb & Hnd & Hfirst & Hreach).
  destruct (for_each_total (root :: reverse rest) (alter (set_grad 1) root h))
    as [[tr h'] Hfor].
  - eapply skeleton_wf; [|exact Hwf]. apply skeleton_alter. by intros [].
  - apply Forall_forall. intros x Hx. unfold live. rewrite length_alter.
    apply (reachable_live h root x Hwf Hroot). apply Hreach.
    rewrite <- reverse_snoc in Hx. by apply elem_of_reverse.
  - exists rest, tr, h'. split; [|split; [done|split; [|done]]].
    + apply backward_Some. exists vis, (rest ++ [root]). rewrite reverse_snoc.
      split; [done|]. split; [by apply live_lookup|done].
    + by apply for_each_effect in Hfor as (? & _).
Qed.

(** ** Every reachable heap is well formed *)

Lemma wf_alter (h : heap) (p : ValuePtr) (f : Value -> Value) :
  (forall v, m_prev (f v) = m_prev v /\ m_backward_fn (f v) = m_backward_fn v) ->
  wf h -> wf (alter f p h).
Proof.
  intros Hf Hwf q v Hq.
  destruct (decide (p = q)) as [->|Hne].
  - rewrite list_lookup_alter_eq in Hq.
    destruct (h !! q) as [w|] eqn:Hw; simpl in Hq; [|done]. injection Hq as <-.
    destruct (Hf w) as [Hprev Hfn]. unfold wf_node. rewrite Hprev, Hfn. by apply Hwf.
  - rewrite list_lookup_alter_ne in Hq by done. by apply Hwf.
Qed.

Lemma discard_Some {A} (m : M A) (h h' : heap) :
  discard m h = Some (tt, h') <-> exists a, m h = Some (a, h').
Proof.
  unfold discard. rewrite bind_Some. split.
  - intros (a & h1 & Hm & Hret). apply ret_Some in Hret as [_ ->]. eauto.
  - intros [a Hm]. exists a, h'. by rewrite ret_Some.
Qed.

Lemma allocates_wf (m : M ValuePtr) (h h' : heap) :
  allocates m h -> wf h -> discard m h = Some (tt, h') -> wf h'.
Proof.
  intros (out & l & Hm & _ & Hwf' & _) Hwf Hd. apply discard_Some in Hd as [a Hd].
  rewrite Hm in Hd. injection Hd as _ <-. auto.
Qed.

Lemma exec_wf (c : api_call) (h h' : heap) :
  wf h -> Forall (live h) (call_args c) -> exec c h = Some (tt, h') -> wf h'.
Proof.
  intros Hwf Hargs Hexec.
  destruct c; simpl in Hargs, Hexec;
    repeat match goal with
      | H : Forall _ (_ :: _) |- _ => apply Forall_cons in H as [? H]
      end;
    try (eapply allocates_wf; [|exact Hwf|exact Hexec];
         eauto using make_value_allocates, make_value_op_allocates,
           operator_add_allocates, operator_mul_allocates, operator_neg_allocates,
           operator_sub_allocates, operator_div_allocates,
           operator_add_double_allocates, double_operator_add_allocates,
           operator_mul_double_allocates, double_operator_mul_allocates,
           operator_sub_double_allocates, double_operator_sub_allocates,
           operator_div_double_allocates, tanh_allocates, exp_allocates,
           pow_allocates; fail);
    try (apply invoke_Some in Hexec as [_ ->]; apply wf_alter; [by intros []|done]).
  apply discard_Some in Hexec as [tr Hb].
  eapply skeleton_wf; [|exact Hwf]. by eapply backward_skeleton.
Qed.

Lemma built_wf (h : heap) : built h -> wf h.
Proof.
  induction 1 as [|h c h' _ IH Hargs Hexec].
  - intros p v Hp. done.
  - by eapply exec_wf.
Qed.

(** A call of the public interface on live pointers returns. *)
Lemma exec_total (c : api_call) (h : heap) :
  wf h -> Forall (live h) (call_args c) -> exists h', exec c h = Some (tt, h').
Proof.
  intros Hwf Hargs.
  assert (Halloc : forall m, allocates m h -> exists h', discard m h = Some (tt, h')).
  { intros m (out & l & Hm & _). exists (h ++ l). apply discard_Some. eauto. }
  assert (Hinv : forall p f, live h p -> exists h', invoke p f h = Some (tt, h')).
  { intros p f Hp. exists (alter f p h). apply invoke_Some. by rewrite <- live_lookup. }
  destruct c; simpl in Hargs |- *;
    repeat match goal with
      | H : Forall _ (_ :: _) |- _ => apply Forall_cons in H as [? H]
      end;
    try (apply Halloc;
         eauto using make_value_allocates, make_value_op_allocates,
           operator_add_allocates, operator_mul_allocates, operator_neg_allocates,
           operator_sub_allocates, operator_div_allocates,
           operator_add_double_allocates, double_operator_add_allocates,
           operator_mul_double_allocates, double_operator_mul_allocates,
           operator_sub_double_allocates, double_operator_sub_allocates,
           operator_div_double_allocates, tanh_allocates, exp_allocates,
           pow_allocates; fail);
    try (by apply Hinv).
  destruct (backward_total p h Hwf) as (rest & tr & h' & Hb & _); [done|].
  exists h'. apply discard_Some. eauto.
Qed.

(** ** One pass, node by node *)

(** The gradient a pass leaves in a node: what it held before (1.0 for the
    root), plus the increments of the pass, in order. *)
Lemma backward_grad (root : ValuePtr) (h : heap) (tr : trace) (h' : heap)
    (n : ValuePtr) (v : Value) :
  backward root h = Some (tr, h') -> h !! n = Some v ->
  h' !! n =
    Some (set_grad
            (accumulate (if decide (n = root) then 1 else m_grad v) (contributions n tr)) v).
Proof.
  intros Hb Hn. apply backward_Some in Hb as (vis & topo & _ & _ & Hfor).
  apply for_each_effect in Hfor as (_ & -> & _).
  rewrite apply_incs_lookup. unfold contributions.
  destruct (decide (n = root)) as [->|Hne].
  - rewrite list_lookup_alter_eq, Hn. simpl. by destruct v.
  - by rewrite list_lookup_alter_ne, Hn by done.
Qed.

Lemma backward_pass (root : ValuePtr) (h : heap) (node : Value) :
  wf h -> h !! root = Some node ->
  exists rest incs h1 tr' h',
    backward root h = Some ((root, incs) :: tr', h')
    /\ call_backward_fn (m_backward_fn node) (alter (set_grad 1) root h) = Some (incs, h1)
    /\ for_each (reverse rest) h1 = Some (tr', h')
    /\ skeleton h1 = skeleton h
    /\ NoDup (rest ++ [root])
    /\ operands_first h (rest ++ [root])
    /\ (forall x, x ∈ rest ++ [root] <-> reachable h root x).
Proof.
  intros Hwf Hroot.
  destruct (backward_total root h Hwf) as (rest & tr & h' & Hb & Hfor & _ & Hnd & Hfirst & Hreach).
  { by eapply lookup_lt_Some. }
  apply for_each_cons in Hfor as (node' & incs & h1 & tr' & Hnode' & Hcall & Hfor & ->).
  rewrite list_lookup_alter_eq, Hroot in Hnode'. injection Hnode' as <-.
  exists rest, incs, h1, tr', h'. repeat split; try done; try by apply Hreach.
  apply call_backward_fn_effect in Hcall as [-> _].
  rewrite apply_incs_skeleton. apply skeleton_alter. by intros [].
Qed.

Lemma contributions_cons (a v : ValuePtr) (incs : list (ValuePtr * float)) (tr : trace) :
  contributions a ((v, incs) :: tr) = deltas a incs ++ contributions a tr.
Proof.
  unfold contributions, increments. rewrite fmap_cons. simpl concat.
  apply deltas_app.
Qed.

Lemma contributions_app (a : ValuePtr) (tr1 tr2 : trace) :
  contributions a (tr1 ++ tr2) = contributions a tr1 ++ contributions a tr2.
Proof.
  unfold contributions, increments. rewrite fmap_app, concat_app. apply deltas_app.
Qed.

Lemma operand_skeleton (h h' : heap) (x c : ValuePtr) :
  skeleton h' = skeleton h -> operand h' x c -> operand h x c.
Proof.
  intros Hsk (v' & Hx & Hc).
  destruct (skeleton_lookup _ _ _ _ Hsk Hx) as (v & Hv & Heq).
  destruct (skeleton_fields _ _ Heq) as (_ & _ & _ & Hprev & _).
  exists v. split; [done|]. by rewrite <- Hprev.
Qed.

(** Nodes that do not use [a] as an operand make no increment to [a]. *)
Lemma for_each_contributions_nil (l : list ValuePtr) (h : heap) (tr : trace)
    (h' : heap) (a : ValuePtr) :
  wf h -> for_each l h = Some (tr, h') ->
  (forall x, x ∈ l -> ~ operand h x a) ->
  contributions a tr = [].
Proof.
  intros Hwf Hfor Hl. apply for_each_effect in Hfor as (Hinv & _ & Hall).
  subst l. induction tr as [|[v incs] tr IH]; [done|].
  apply Forall_cons in Hall as [(node & Hnode & Htg) Hall]. simpl in Hnode, Htg.
  rewrite contributions_cons, IH; [|done|].
  - rewrite app_nil_r. apply deltas_not_target. rewrite Htg. intros Ha.
    apply (Hl v); [unfold invoked; rewrite fmap_cons; apply list_elem_of_here|].
    exists node. split; [done|]. by apply (Hwf v node Hnode).
  - intros x Hx. apply Hl. unfold invoked in *. rewrite fmap_cons.
    by apply list_elem_of_further.
Qed.

Lemma reachable_inv (h : heap) (r x : ValuePtr) :
  reachable h r x -> x = r \/ exists c, operand h r c /\ reachable h c x.
Proof.
  intros Hr. apply rtc_inv in Hr as [->|(c & Hop & Hc)]; [by left|right; eauto].
Qed.

Lemma operand_snoc_new (h : heap) (v : Value) (c : ValuePtr) :
  operand (h ++ [v]) (length h) c <-> c ∈ m_prev v.
Proof.
  clear ptr_less.
  unfold operand. rewrite lookup_snoc_new. naive_solver.
Qed.

Lemma operand_snoc_old (h : heap) (v : Value) (x c : ValuePtr) :
  (x < length h)%nat -> operand (h ++ [v]) x c <-> operand h x c.
Proof.
  intros Hx. unfold operand. by rewrite lookup_app_l.
Qed.

(** ** The lambdas, evaluated *)

Lemma call_add_Some (lhs rhs out : ValuePtr) (h : heap)
    (incs : list (ValuePtr * float)) (h' : heap) :
  call_backward_fn (FnAdd lhs rhs out) h = Some (incs, h') -> out <> lhs ->
  exists vo, h !! out = Some vo /\ incs = [(lhs, m_grad vo); (rhs, m_grad vo)].
Proof.
  intros Hcall Hne. unfold call_backward_fn, bind, query, invoke, ret in Hcall.
  repeat case_match; simplify_eq.
  repeat match goal with
    | H : <[?p := _]> _ !! ?q = Some _ |- _ =>
        rewrite list_lookup_insert_ne in H by congruence; simplify_eq
    end.
  eexists. split; done.
Qed.

Lemma call_mul_Some (lhs rhs out : ValuePtr) (h : heap)
    (incs : list (ValuePtr * float)) (h' : heap) :
  call_backward_fn (FnMul lhs rhs out) h = Some (incs, h') -> out <> lhs ->
  exists vl vr vo,
    h !! lhs = Some vl /\ h !! rhs = Some vr /\ h !! out = Some vo
    /\ incs = [(lhs, m_data vr * m_grad vo); (rhs, m_data vl * m_grad vo)].
Proof.
  intros Hcall Hne. unfold call_backward_fn, bind, query, invoke, ret in Hcall.
  repeat case_match; simplify_eq.
  repeat match goal with
    | H : <[?p := _]> _ !! ?p = Some _ |- _ =>
        rewrite list_lookup_insert_eq in H by (by eapply lookup_lt_Some); simplify_eq
    | H : <[?p := _]> _ !! ?q = Some _ |- _ =>
        rewrite list_lookup_insert_ne in H by congruence; simplify_eq
    end.
  eexists _, _, _. split; [eassumption|]. split; [reflexivity|].
  split; [eassumption|]. reflexivity.
Qed.

Lemma call_tanh_Some (v : ValuePtr) (t : float) (out : ValuePtr) (h : heap)
    (incs : list (ValuePtr * float)) (h' : heap) :
  call_backward_fn (FnTanh v t out) h = Some (incs, h') ->
  exists vo, h !! out = Some vo /\ incs = [(v, (1 - t * t) * m_grad vo)].
Proof.
  intros Hcall. unfold call_backward_fn, bind, query, invoke, ret in Hcall.
  repeat case_match; simplify_eq. eexists. split; done.
Qed.

Lemma call_pow_Some (base : ValuePtr) (exp_val : float) (out : ValuePtr) (h : heap)
    (incs : list (ValuePtr * float)) (h' : heap) :
  call_backward_fn (FnPow base exp_val out) h = Some (incs, h') ->
  exists vb vo,
    h !! base = Some vb /\ h !! out = Some vo
    /\ incs = [(base, (exp_val * std_pow (m_data vb) (exp_val - 1)) * m_grad vo)].
Proof.
  intros Hcall. unfold call_backward_fn, bind, query, invoke, ret in Hcall.
  repeat case_match; simplify_eq. eexists _, _. repeat split; done.
Qed.

(** ** Passes over small graphs *)

Lemma leaf_no_operand (h : heap) (l : ValuePtr) (vl : Value) (a : ValuePtr) :
  h !! l = Some vl -> m_prev vl = [] -> ~ operand h l a.
Proof.
  intros Hl Hprev (v & Hv & Ha). rewrite Hl in Hv. injection Hv as <-.
  rewrite Hprev in Ha. by apply not_elem_of_nil in Ha.
Qed.

Lemma leaf_reachable (h : heap) (l : ValuePtr) (vl : Value) (x : ValuePtr) :
  h !! l = Some vl -> m_prev vl = [] -> reachable h l x -> x = l.
Proof.
  intros Hl Hprev Hr. apply reachable_inv in Hr as [->|(c & Hop & _)]; [done|].
  by apply (leaf_no_operand _ _ _ _ Hl Hprev) in Hop.
Qed.

(** Behind the root, the traversal holds nodes below the root's operands. *)
Lemma rest_below (h : heap) (root : ValuePtr) (rest : list ValuePtr) (x : ValuePtr) :
  NoDup (rest ++ [root]) ->
  (forall y, y ∈ rest ++ [root] <-> reachable h root y) ->
  x ∈ reverse rest ->
  x <> root /\ exists c, operand h root c /\ reachable h c x.
Proof.
  intros Hnd Hreach Hx. rewrite elem_of_reverse in Hx.
  apply NoDup_app in Hnd as (_ & Hdisj & _).
  assert (Hne : x <> root).
  { intros ->. apply (Hdisj root Hx), list_elem_of_here. }
  split; [done|].
  assert (Hr : reachable h root x) by (apply Hreach, elem_of_app; by left).
  by apply reachable_inv in Hr as [->|Hc].
Qed.

(** The root of a pass is nobody's operand, so the pass adds nothing to its
    gradient. *)
Lemma backward_root_untouched (root : ValuePtr) (h : heap) (tr : trace) (h' : heap) :
  wf h -> backward root h = Some (tr, h') -> contributions root tr = [].
Proof.
  intros Hwf Hb.
  assert (Hroot : live h root).
  { apply backward_Some in Hb as (_ & _ & _ & Hr & _). by apply live_lookup. }
  destruct (backward_total root h Hwf Hroot)
    as (rest & tr0 & h0 & Hb0 & Hfor & _ & Hnd & _ & Hreach).
  rewrite Hb in Hb0. injection Hb0 as <- <-.
  assert (Hsk : skeleton (alter (set_grad 1) root h) = skeleton h)
    by (apply skeleton_alter; by intros []).
  eapply for_each_contributions_nil; [|exact Hfor|].
  - by eapply skeleton_wf.
  - intros x Hx Hop. apply (operand_skeleton _ _ _ _ Hsk) in Hop.
    pose proof (operand_lt _ _ _ Hwf Hop) as Hlt.
    rewrite <- reverse_snoc in Hx. apply elem_of_reverse, Hreach in Hx.
    pose proof (reachable_le _ _ _ Hwf Hx). lia.
Qed.

(** A pass from a sum of two distinct leaves: each leaf receives the
    gradient of the sum, 1.0, once. *)
Lemma backward_add_leaves (h : heap) (a b c : ValuePtr) (va vb nc : Value) :
  wf h -> a <> b ->
  h !! a = Some va -> h !! b = Some vb -> h !! c = Some nc ->
  m_prev va = [] -> m_prev vb = [] ->
  m_backward_fn nc = FnAdd a b c ->
  (forall x, x ∈ m_prev nc -> x = a \/ x = b) ->
  exists tr h',
    backward c h = Some (tr, h')
    /\ contributions a tr = [1] /\ contributions b tr = [1]
    /\ contributions c tr = [].
Proof.
  intros Hwf Hab Ha Hb Hc Hpa Hpb Hfn Hprev.
  destruct (backward_pass c h nc Hwf Hc)
    as (rest & incs & h1 & tr' & h' & Hback & Hcall & Hfor & Hsk & Hnd & _ & Hreach).
  exists ((c, incs) :: tr'), h'. split; [done|].
  assert (Htg : forall t, t ∈ [a; b] -> t ∈ m_prev nc).
  { intros t Ht. destruct (Hwf c nc Hc) as (_ & Htg & _). apply Htg. by rewrite Hfn. }
  assert (Hca : c <> a).
  { intros ->. rewrite Ha in Hc. injection Hc as <-. specialize (Htg a).
    rewrite Hpa in Htg. eapply not_elem_of_nil, Htg, list_elem_of_here. }
  assert (Hcb : c <> b).
  { intros ->. rewrite Hb in Hc. injection Hc as <-. specialize (Htg b).
    rewrite Hpb in Htg. eapply not_elem_of_nil, Htg.
    apply list_elem_of_further, list_elem_of_here. }
  rewrite Hfn in Hcall. apply call_add_Some in Hcall as (vo & Hvo & ->); [|done].
  rewrite list_lookup_alter_eq, Hc in Hvo. injection Hvo as <-. simpl.
  assert (Hrest : forall x t, x ∈ reverse rest -> ~ operand h1 x t).
  { intros x t Hx Hop. apply (operand_skeleton _ _ _ _ Hsk) in Hop.
    destruct (rest_below h c rest x Hnd Hreach Hx) as (_ & c' & (nc' & Hnc' & Hc') & Hr).
    rewrite Hc in Hnc'. injection Hnc' as <-.
    destruct (Hprev c' Hc') as [->| ->].
    - apply (leaf_reachable _ _ _ _ Ha Hpa) in Hr as ->.
      by apply (leaf_no_operand _ _ _ _ Ha Hpa) in Hop.
    - apply (leaf_reachable _ _ _ _ Hb Hpb) in Hr as ->.
      by apply (leaf_no_operand _ _ _ _ Hb Hpb) in Hop. }
  assert (Hwf1 : wf h1) by by eapply skeleton_wf.
  rewrite !contributions_cons.
  rewrite !(for_each_contributions_nil _ _ _ _ _ Hwf1 Hfor) by (intros; by apply Hrest).
  rewrite !app_nil_r, !deltas_cons. simpl.
  rewrite !decide_True by done.
  rewrite (decide_False (P := b = a)) by congruence.
  rewrite (decide_False (P := a = b)) by done.
  rewrite (decide_False (P := a = c)) by congruence.
  rewrite (decide_False (P := b = c)) by congruence.
  rewrite ?decide_True by done. done.
Qed.

(** A pass from a node all of whose operands are [a]: behind the root the
    traversal holds [a] and nodes below it, none of which writes to [a]. *)
Lemma backward_over_one_operand (h : heap) (c a : ValuePtr) (nc : Value) :
  wf h -> h !! c = Some nc ->
  (forall x, x ∈ m_prev nc -> x = a) ->
  exists incs h1 tr' h',
    backward c h = Some ((c, incs) :: tr', h')
    /\ call_backward_fn (m_backward_fn nc) (alter (set_grad 1) c h) = Some (incs, h1)
    /\ contributions a ((c, incs) :: tr') = deltas a incs.
Proof.
  intros Hwf Hc Hprev.
  destruct (backward_pass c h nc Hwf Hc)
    as (rest & incs & h1 & tr' & h' & Hback & Hcall & Hfor & Hsk & Hnd & _ & Hreach).
  exists incs, h1, tr', h'. split; [done|]. split; [done|].
  rewrite contributions_cons.
  rewrite (for_each_contributions_nil _ _ _ _ a (skeleton_wf _ _ Hsk Hwf) Hfor).
  - apply app_nil_r.
  - intros x Hx Hop. apply (operand_skeleton _ _ _ _ Hsk) in Hop.
    destruct (rest_below h c rest x Hnd Hreach Hx) as (_ & c' & (nc' & Hnc' & Hc') & Hr).
    rewrite Hc in Hnc'. injection Hnc' as <-. apply Hprev in Hc' as ->.
    pose proof (reachable_le _ _ _ Hwf Hr). pose proof (operand_lt _ _ _ Hwf Hop). lia.
Qed.

(** [b = a * a; b->backward()] *)
Lemma backward_self_mul (h : heap) (a : ValuePtr) (va : Value) :
  wf h -> h !! a = Some va ->
  exists b h0 nb tr h1,
    operator_mul a a h = Some (b, h0)
    /\ h0 !! b = Some nb /\ m_prev nb = [a]
    /\ backward b h0 = Some (tr, h1)
    /\ contributions a tr = [m_data va * 1; m_data va * 1]
    /\ h1 !! a = Some (set_grad ((m_grad va + m_data va * 1) + m_data va * 1) va).
Proof.
  intros Hwf Ha. pose proof (lookup_lt_Some _ _ _ Ha) as Hlt.
  set (b := length h).
  set (nb := mkValue (m_data va * m_data va) 0 "" "*" (std_set [a; a]) (FnMul a a b)).
  assert (Hmul : operator_mul a a h = Some (b, h ++ [nb])).
  { rewrite operator_mul_eq, Ha. done. }
  assert (Hwf0 : wf (h ++ [nb])).
  { destruct (operator_mul_allocates a a h) as (out & l & Hm & _ & Hwf' & _); [done..|].
    rewrite Hmul in Hm. injection Hm as _ Hl. apply app_inv_head in Hl as <-. auto. }
  assert (Hb0 : (h ++ [nb]) !! b = Some nb) by apply lookup_snoc_new.
  assert (Ha0 : (h ++ [nb]) !! a = Some va) by by rewrite lookup_app_l.
  assert (Hab : a <> b) by (unfold b; lia).
  destruct (backward_over_one_operand (h ++ [nb]) b a nb Hwf0 Hb0)
    as (incs & h1' & tr' & h1 & Hback & Hcall & Hcontr).
  { intros x Hx. simpl in Hx. rewrite std_set_twice in Hx.
    by apply list_elem_of_singleton in Hx. }
  simpl in Hcall. apply call_mul_Some in Hcall as (vl & vr & vo & Hvl & Hvr & Hvo & ->);
    [|congruence].
  rewrite list_lookup_alter_ne, Ha0 in Hvl, Hvr by congruence.
  injection Hvl as <-. injection Hvr as <-.
  rewrite list_lookup_alter_eq, Hb0 in Hvo. injection Hvo as <-.
  change (m_grad (set_grad 1 nb)) with 1 in Hback, Hcontr.
  rewrite !deltas_cons, !decide_True in Hcontr by done. simpl in Hcontr.
  exists b, (h ++ [nb]), nb, ((b, [(a, m_data va * 1); (a, m_data va * 1)]) :: tr'), h1.
  split; [done|]. split; [done|]. split; [apply std_set_twice|].
  split; [done|]. split; [done|].
  rewrite (backward_grad _ _ _ _ _ _ Hback Ha0), Hcontr, decide_False by done.
  done.
Qed.

(** [c = a + a; c->backward()] *)
Lemma backward_self_add (h : heap) (a : ValuePtr) (va : Value) :
  wf h -> h !! a = Some va ->
  exists c h0 nc tr h1,
    operator_add a a h = Some (c, h0)
    /\ h0 !! c = Some nc /\ m_prev nc = [a]
    /\ backward c h0 = Some (tr, h1)
    /\ contributions a tr = [1; 1]
    /\ h1 !! a = Some (set_grad ((m_grad va + 1) + 1) va).
Proof.
  intros Hwf Ha. pose proof (lookup_lt_Some _ _ _ Ha) as Hlt.
  set (c := length h).
  set (nc := mkValue (m_data va + m_data va) 0 "" "+" (std_set [a; a]) (FnAdd a a c)).
  assert (Hadd : operator_add a a h = Some (c, h ++ [nc])).
  { rewrite operator_add_eq, Ha. done. }
  assert (Hwf0 : wf (h ++ [nc])).
  { destruct (operator_add_allocates a a h) as (out & l & Hm & _ & Hwf' & _); [done..|].
    rewrite Hadd in Hm. injection Hm as _ Hl. apply app_inv_head in Hl as <-. auto. }
  assert (Hc0 : (h ++ [nc]) !! c = Some nc) by apply lookup_snoc_new.
  assert (Ha0 : (h ++ [nc]) !! a = Some va) by by rewrite lookup_app_l.
  assert (Hac : a <> c) by (unfold c; lia).
  destruct (backward_over_one_operand (h ++ [nc]) c a nc Hwf0 Hc0)
    as (incs & h1' & tr' & h1 & Hback & Hcall & Hcontr).
  { intros x Hx. simpl in Hx. rewrite std_set_twice in Hx.
    by apply list_elem_of_singleton in Hx. }
  simpl in Hcall. apply call_add_Some in Hcall as (vo & Hvo & ->); [|congruence].
  rewrite list_lookup_alter_eq, Hc0 in Hvo. injection Hvo as <-.
  change (m_grad (set_grad 1 nc)) with 1 in Hback, Hcontr.
  rewrite !deltas_cons, !decide_True in Hcontr by done. simpl in Hcontr.
  exists c, (h ++ [nc]), nc, ((c, [(a, 1); (a, 1)]) :: tr'), h1.
  split; [done|]. split; [done|]. split; [apply std_set_twice|].
  split; [done|]. split; [done|].
  rewrite (backward_grad _ _ _ _ _ _ Hback Ha0), Hcontr, decide_False by done.
  done.
Qed.

(** [f = tanh(a); f->backward()] *)
Lemma backward_tanh (h : heap) (a : ValuePtr) (va : Value) :
  wf h -> h !! a = Some va ->
  let t := std_tanh (m_data va) in
  exists f h0 nf tr h1,
    tanh a h = Some (f, h0)
    /\ h0 !! f = Some nf /\ m_data nf = t
    /\ backward f h0 = Some (tr, h1)
    /\ contributions a tr = [(1 - t * t) * 1]
    /\ h1 !! a = Some (set_grad (m_grad va + (1 - t * t) * 1) va)
    /\ (exists nf', h1 !! f = Some nf' /\ m_data nf' = t).
Proof.
  intros Hwf Ha t. pose proof (lookup_lt_Some _ _ _ Ha) as Hlt.
  set (f := length h).
  set (nf := mkValue t 0 "" "tanh" (std_set [a]) (FnTanh a t f)).
  assert (Htanh : tanh a h = Some (f, h ++ [nf])).
  { rewrite tanh_eq, Ha. done. }
  assert (Hwf0 : wf (h ++ [nf])).
  { destruct (tanh_allocates a h) as (out & l & Hm & _ & Hwf' & _); [done..|].
    rewrite Htanh in Hm. injection Hm as _ Hl. apply app_inv_head in Hl as <-. auto. }
  assert (Hf0 : (h ++ [nf]) !! f = Some nf) by apply lookup_snoc_new.
  assert (Ha0 : (h ++ [nf]) !! a = Some va) by by rewrite lookup_app_l.
  assert (Haf : a <> f) by (unfold f; lia).
  destruct (backward_over_one_operand (h ++ [nf]) f a nf Hwf0 Hf0)
    as (incs & h1' & tr' & h1 & Hback & Hcall & Hcontr).
  { intros x Hx. simpl in Hx. rewrite std_set_single in Hx.
    by apply list_elem_of_singleton in Hx. }
  simpl in Hcall. apply call_tanh_Some in Hcall as (vo & Hvo & ->).
  rewrite list_lookup_alter_eq, Hf0 in Hvo. injection Hvo as <-.
  change (m_grad (set_grad 1 nf)) with 1 in Hback, Hcontr.
  rewrite !deltas_cons, !decide_True in Hcontr by done. simpl in Hcontr.
  exists f, (h ++ [nf]), nf, ((f, [(a, (1 - t * t) * 1)]) :: tr'), h1.
  split; [done|]. split; [done|]. split; [done|].
  split; [done|]. split; [done|]. split.
  - rewrite (backward_grad _ _ _ _ _ _ Hback Ha0), Hcontr, decide_False by done. done.
  - rewrite (backward_grad _ _ _ _ _ _ Hback Hf0). eexists. split; done.
Qed.

(** A stretch of the loop in which only [p] holds a lambda that does
    something: the stretch amounts to one run of that lambda. *)
Lemma increments_noop (l : list ValuePtr) :
  increments ((fun x => (x, [])) <$> l) = [].
Proof. unfold increments. induction l as [|x l IH]; [done|]. by rewrite !fmap_cons. Qed.

Lemma increments_cons (v : ValuePtr) (incs : list (ValuePtr * float)) (tr : trace) :
  increments ((v, incs) :: tr) = incs ++ increments tr.
Proof. unfold increments. by rewrite fmap_cons. Qed.

Lemma increments_app (tr1 tr2 : trace) :
  increments (tr1 ++ tr2) = increments tr1 ++ increments tr2.
Proof. unfold increments. by rewrite fmap_app, concat_app. Qed.

Lemma for_each_one_active (l : list ValuePtr) (p : ValuePtr) (h : heap) (tr : trace)
    (h' : heap) :
  NoDup l -> p ∈ l ->
  (forall x, x ∈ l -> x <> p -> exists v, h !! x = Some v /\ m_backward_fn v = FnEmpty) ->
  for_each l h = Some (tr, h') ->
  exists node incs,
    h !! p = Some node
    /\ call_backward_fn (m_backward_fn node) h = Some (incs, h')
    /\ increments tr = incs.
Proof.
  intros Hnd Hp Hleaf Hfor.
  apply list_elem_of_split in Hp as (l1 & l2 & ->).
  apply NoDup_app in Hnd as (_ & Hdisj & Hnd2). apply NoDup_cons in Hnd2 as [Hp2 _].
  apply for_each_app in Hfor as (tr1 & h1 & tr2' & Hfor1 & Hfor2 & ->).
  rewrite for_each_noop in Hfor1.
  2:{ intros x Hx. apply Hleaf; [apply elem_of_app; by left|].
      intros ->. apply (Hdisj p Hx), list_elem_of_here. }
  injection Hfor1 as <- <-.
  apply for_each_cons in Hfor2 as (node & incs & hC & tr2 & Hnode & Hcall & Hfor2 & ->).
  pose proof (call_backward_fn_effect _ _ _ _ Hcall) as [HhC _].
  rewrite for_each_noop in Hfor2.
  2:{ intros x Hx. destruct (Hleaf x) as (v & Hv & Hfn).
      - apply elem_of_app. right. by apply list_elem_of_further.
      - by intros ->.
      - subst hC. rewrite apply_incs_lookup, Hv. simpl. eauto. }
  injection Hfor2 as <- <-.
  exists node, incs. split; [done|]. split; [done|].
  by rewrite increments_app, increments_cons, !increments_noop, app_nil_r.
Qed.

(** [i = g / d; i->backward()] for two distinct leaves. *)
Lemma backward_div_leaves (h0 : heap) (g d : ValuePtr) (vg vd : Value) :
  wf h0 -> g <> d -> h0 !! g = Some vg -> h0 !! d = Some vd ->
  is_leaf vg -> is_leaf vd ->
  let r := std_pow (m_data vd) (-1) in
  let q := std_pow (m_data vd) (-1 - 1) in
  exists i h1 ni tr h2,
    operator_div g d h0 = Some (i, h1)
    /\ h1 !! i = Some ni /\ m_data ni = m_data vg * r
    /\ backward i h1 = Some (tr, h2)
    /\ h2 !! g = Some (set_grad (m_grad vg + r * 1) vg)
    /\ h2 !! d = Some (set_grad (m_grad vd + (-1 * q) * (0 + m_data vg * 1)) vd).
Proof.
  clear std_tanh std_exp.
  intros Hwf Hgd Hg Hd [Hpg Hfg] [Hpd Hfd] r q.
  pose proof (lookup_lt_Some _ _ _ Hg) as Hltg.
  pose proof (lookup_lt_Some _ _ _ Hd) as Hltd.
  set (p := length h0).
  set (np := mkValue r 0 "" "pow" (std_set [d]) (FnPow d (-1) p)).
  set (i := length (h0 ++ [np])).
  set (ni := mkValue (m_data vg * r) 0 "" "*" (std_set [g; p]) (FnMul g p i)).
  set (h1 := (h0 ++ [np]) ++ [ni]).
  assert (Hi : i = S p) by (unfold i, p; rewrite length_app; simpl; lia).
  assert (Hp1 : h1 !! p = Some np).
  { unfold h1. rewrite lookup_app_l by (rewrite length_app; simpl; lia).
    apply lookup_snoc_new. }
  assert (Hi1 : h1 !! i = Some ni) by apply lookup_snoc_new.
  assert (Hg1 : h1 !! g = Some vg).
  { unfold h1. rewrite <- app_assoc. by rewrite lookup_app_l. }
  assert (Hd1 : h1 !! d = Some vd).
  { unfold h1. rewrite <- app_assoc. by rewrite lookup_app_l. }
  assert (Hdiv : operator_div g d h0 = Some (i, h1)).
  { assert (HgP : (h0 ++ [np]) !! g = Some vg) by by rewrite lookup_app_l.
    assert (HpP : (h0 ++ [np]) !! p = Some np) by apply lookup_snoc_new.
    unfold operator_div, bind. rewrite pow_eq, Hd. simpl.
    change (operator_mul g p (h0 ++ [np]) = Some (i, h1)).
    rewrite operator_mul_eq, HgP, HpP. done. }
  assert (Hwf1 : wf h1).
  { destruct (operator_div_allocates g d h0) as (out & l & Hm & _ & Hwf' & _); [done..|].
    rewrite Hdiv in Hm. injection Hm as _ Hl. unfold h1 in Hl.
    rewrite <- app_assoc in Hl. apply app_inv_head in Hl as <-.
    unfold h1. rewrite <- app_assoc. auto. }
  destruct (backward_pass i h1 ni Hwf1 Hi1)
    as (rest & incs & hA & tr' & h2 & Hback & Hcall & Hfor & Hsk & Hnd & _ & Hreach).
  change (m_backward_fn ni) with (FnMul g p i) in Hcall.
  pose proof (call_backward_fn_effect _ _ _ _ Hcall) as [HhA _].
  apply call_mul_Some in Hcall as (vl & vr & vo & Hvl & Hvr & Hvo & Hincs); [|lia].
  rewrite list_lookup_alter_ne, Hg1 in Hvl by lia. injection Hvl as <-.
  rewrite list_lookup_alter_ne, Hp1 in Hvr by lia. injection Hvr as <-.
  rewrite list_lookup_alter_eq, Hi1 in Hvo. injection Hvo as <-.
  change (m_grad (set_grad 1 ni)) with 1 in Hincs.
  change (m_data np) with r in Hincs.
  assert (HpA : hA !! p = Some (set_grad (0 + m_data vg * 1) np)).
  { rewrite HhA, apply_incs_lookup, list_lookup_alter_ne, Hp1, Hincs by lia. simpl.
    rewrite !deltas_cons. simpl.
    rewrite (decide_False (P := g = p)), (decide_True (P := p = p)) by (done || lia).
    done. }
  assert (HdA : hA !! d = Some vd).
  { rewrite HhA, apply_incs_lookup, list_lookup_alter_ne, Hd1, Hincs by lia. simpl.
    rewrite !deltas_cons. simpl.
    rewrite (decide_False (P := g = d)), (decide_False (P := p = d)) by (done || lia).
    by destruct vd. }
  assert (HgA : exists vg', hA !! g = Some vg' /\ m_backward_fn vg' = FnEmpty).
  { rewrite HhA, apply_incs_lookup, list_lookup_alter_ne, Hg1 by lia. simpl. eauto. }
  assert (Hopi : forall c, operand h1 i c -> c = g \/ c = p).
  { intros c (w & Hw & Hc). rewrite Hi1 in Hw. injection Hw as <-. simpl in Hc.
    apply (proj2 (std_set_spec [g; p])) in Hc. set_solver. }
  assert (Hopp : forall c, operand h1 p c -> c = d).
  { intros c (w & Hw & Hc). rewrite Hp1 in Hw. injection Hw as <-. simpl in Hc.
    rewrite std_set_single in Hc. by apply list_elem_of_singleton in Hc. }
  destruct (for_each_one_active (reverse rest) p hA tr' h2)
    as (node & incs_p & Hnode & Hcallp & Hincsp); [| | |done|].
  { rewrite reverse_Permutation. by apply NoDup_app in Hnd as (? & _). }
  { apply elem_of_reverse.
    assert (Hpin : p ∈ rest ++ [i]).
    { apply Hreach. eapply rtc_l; [|apply rtc_refl]. exists ni. split; [done|].
      simpl. apply (proj2 (std_set_spec [g; p])). set_solver. }
    apply elem_of_app in Hpin as [Hpin|Hpin]; [done|].
    apply list_elem_of_singleton in Hpin. lia. }
  { intros x Hx Hxp.
    destruct (rest_below h1 i rest x Hnd Hreach Hx) as (_ & c & Hc & Hr).
    apply Hopi in Hc as [-> | ->].
    - apply (leaf_reachable _ _ _ _ Hg1 Hpg) in Hr as ->. done.
    - apply reachable_inv in Hr as [->|(c & Hc & Hr)]; [done|].
      apply Hopp in Hc as ->.
      apply (leaf_reachable _ _ _ _ Hd1 Hpd) in Hr as ->. eauto. }
  rewrite HpA in Hnode. injection Hnode as <-.
  change (call_backward_fn (FnPow d (-1) p) hA = Some (incs_p, h2)) in Hcallp.
  apply call_pow_Some in Hcallp as (vb & vo & Hvb & Hvo & Hip).
  rewrite HdA in Hvb. injection Hvb as <-.
  rewrite HpA in Hvo. injection Hvo as <-.
  change (m_grad (set_grad (0 + m_data vg * 1) np)) with (0 + m_data vg * 1) in Hip.
  fold q in Hip.
  exists i, h1, ni, ((i, incs) :: tr'), h2.
  split; [done|]. split; [done|]. split; [done|]. split; [done|].
  rewrite (backward_grad _ _ _ _ _ _ Hback Hg1), (backward_grad _ _ _ _ _ _ Hback Hd1).
  unfold contributions. rewrite increments_cons, Hincsp, Hincs, Hip.
  rewrite !deltas_app, !deltas_cons. simpl.
  rewrite (decide_True (P := g = g)), (decide_True (P := d = d)) by done.
  rewrite (decide_False (P := p = g)), (decide_False (P := d = g)) by (congruence || lia).
  rewrite (decide_False (P := g = d)), (decide_False (P := p = d)) by (congruence || lia).
  rewrite (decide_False (P := g = i)), (decide_False (P := d = i)) by lia.
  done.
Qed.

(** [o = pow(b, e); o->backward()] *)
Lemma backward_pow (h : heap) (b : ValuePtr) (e : float) (vb : Value) :
  wf h -> h !! b = Some vb ->
  exists o h0 no tr h1,
    pow b e h = Some (o, h0)
    /\ h0 !! o = Some no /\ m_data no = std_pow (m_data vb) e
    /\ backward o h0 = Some (tr, h1)
    /\ h1 !! b =
         Some (set_grad (m_grad vb + (e * std_pow (m_data vb) (e - 1)) * 1) vb).
Proof.
  intros Hwf Hb. pose proof (lookup_lt_Some _ _ _ Hb) as Hlt.
  set (o := length h).
  set (no := mkValue (std_pow (m_data vb) e) 0 "" "pow" (std_set [b]) (FnPow b e o)).
  assert (Hpow : pow b e h = Some (o, h ++ [no])).
  { rewrite pow_eq, Hb. done. }
  assert (Hwf0 : wf (h ++ [no])).
  { destruct (pow_allocates b e h) as (out & l & Hm & _ & Hwf' & _); [done..|].
    rewrite Hpow in Hm. injection Hm as _ Hl. apply app_inv_head in Hl as <-. auto. }
  assert (Ho0 : (h ++ [no]) !! o = Some no) by apply lookup_snoc_new.
  assert (Hb0 : (h ++ [no]) !! b = Some vb) by by rewrite lookup_app_l.
  assert (Hbo : b <> o) by (unfold o; lia).
  destruct (backward_over_one_operand (h ++ [no]) o b no Hwf0 Ho0)
    as (incs & h1' & tr' & h1 & Hback & Hcall & Hcontr).
  { intros x Hx. simpl in Hx. rewrite std_set_single in Hx.
    by apply list_elem_of_singleton in Hx. }
  simpl in Hcall. apply call_pow_Some in Hcall as (vb' & vo & Hvb' & Hvo & ->).
  rewrite list_lookup_alter_ne, Hb0 in Hvb' by congruence. injection Hvb' as <-.
  rewrite list_lookup_alter_eq, Ho0 in Hvo. injection Hvo as <-.
  change (m_grad (set_grad 1 no)) with 1 in Hback, Hcontr.
  rewrite !deltas_cons, !decide_True in Hcontr by done. simpl in Hcontr.
  eexists o, (h ++ [no]), no, _, h1.
  split; [done|]. split; [done|]. split; [done|]. split; [exact Hback|].
  rewrite (backward_grad _ _ _ _ _ _ Hback Hb0), Hcontr, decide_False by done. done.
Qed.

(** ** Who writes a gradient *)

Lemma discard_allocates_grads (m : M ValuePtr) (h h' : heap) :
  allocates m h -> discard m h = Some (tt, h') ->
  (forall p v', h !! p = None -> h' !! p = Some v' -> m_grad v' = 0)
  /\ (forall p v v', h !! p = Some v -> h' !! p = Some v' -> v' = v).
Proof.
  intros (out & l & Hm & _ & _ & Hl) Hd. apply discard_Some in Hd as [a Hd].
  rewrite Hm in Hd. injection Hd as _ <-. split.
  - intros p v' Hp Hp'. apply lookup_ge_None in Hp.
    rewrite lookup_app_r in Hp' by done.
    apply list_elem_of_lookup_2 in Hp'. by apply (proj1 (Forall_forall _ _) Hl).
  - intros p v v' Hp Hp'. rewrite lookup_app_l in Hp' by (by eapply lookup_lt_Some).
    congruence.
Qed.

Lemma is_nan_not_finite (x : float) : is_nan x = true -> is_finite x = false.
Proof. unfold is_finite. by intros ->. Qed.

Lemma accumulate_not_finite (g : float) (ds : list float) :
  is_finite g = false -> is_finite (accumulate g ds) = false.
Proof.
  revert g. induction ds as [|d ds IH]; intros g Hg; [done|].
  rewrite accumulate_cons. by apply IH, add_not_finite_l.
Qed.

(** ** The loop, step by step *)

(** A run of the loop over a list in which no node comes before one that
    uses it.  [hs] lists the heaps the loop goes through, one more than
    there are steps: step [i] is one call of the lambda stored in its node,
    on the heap step [i - 1] left, and the node is then as the loop will
    leave it, since every node that writes to it has had its turn. *)
Lemma for_each_steps (l : list ValuePtr) (h : heap) (tr : trace) (h' : heap) :
  wf h ->
  (forall i j x y, l !! i = Some x -> l !! j = Some y -> (i < j)%nat -> ~ operand h y x) ->
  for_each l h = Some (tr, h') ->
  exists hs : list heap,
    length hs = S (length tr) /\ hs !! 0%nat = Some h /\ hs !! length tr = Some h'
    /\ forall i n incs, tr !! i = Some (n, incs) ->
         exists hi hi' node,
           hs !! i = Some hi /\ hs !! S i = Some hi'
           /\ skeleton hi = skeleton h
           /\ hi !! n = Some node
           /\ call_backward_fn (m_backward_fn node) hi = Some (incs, hi')
           /\ h' !! n = Some node.
Proof.
  revert h tr. induction l as [|v rest IH]; intros h tr Hwf Hord Hfor.
  - apply ret_Some in Hfor as [-> ->]. exists [h]. repeat split. intros i n incs Hi.
    by destruct i.
  - apply for_each_cons in Hfor as (node & incs & h1 & tr' & Hnode & Hcall & Hfor & ->).
    pose proof (call_backward_fn_effect _ _ _ _ Hcall) as [Hh1 Htg].
    assert (Hsk1 : skeleton h1 = skeleton h) by (rewrite Hh1; apply apply_incs_skeleton).
    assert (Hwf1 : wf h1) by by eapply skeleton_wf.
    assert (Hself : v ∉ targets (m_backward_fn node)).
    { intros Hin. destruct (Hwf v node Hnode) as (Hlt & Hsub & _).
      apply Hsub in Hin. apply (proj1 (Forall_forall _ _) Hlt) in Hin. lia. }
    assert (Hv1 : h1 !! v = Some node).
    { rewrite Hh1, apply_incs_lookup, Hnode. simpl.
      rewrite deltas_not_target by (by rewrite Htg).
      unfold accumulate. simpl. by rewrite set_grad_same. }
    pose proof (for_each_effect _ _ _ _ Hfor) as (_ & Hh' & _).
    assert (Hnil : contributions v tr' = []).
    { eapply for_each_contributions_nil; [exact Hwf1|exact Hfor|].
      intros x Hx Hop. apply (operand_skeleton _ _ _ _ Hsk1) in Hop.
      apply list_elem_of_lookup in Hx as [j Hj].
      apply (Hord 0%nat (S j) v x); [done|done|lia|done]. }
    assert (Hv' : h' !! v = Some node).
    { rewrite Hh', apply_incs_lookup, Hv1. simpl. unfold contributions in Hnil.
      rewrite Hnil. unfold accumulate. simpl. by rewrite set_grad_same. }
    destruct (IH h1 tr' Hwf1) as (hs & Hlen & Hfirst & Hlast & Hsteps); [|done|].
    { intros i j x y Hi Hj Hij Hop. apply (operand_skeleton _ _ _ _ Hsk1) in Hop.
      apply (Hord (S i) (S j) x y); [done|done|lia|done]. }
    exists (h :: hs). split; [simpl; by rewrite Hlen|]. split; [done|].
    split; [done|]. intros [|i] n incs' Hi.
    + injection Hi as <- <-. exists h, h1, node. by repeat split.
    + destruct (Hsteps i n incs' Hi) as (hi & hi' & node' & H1 & H2 & H3 & H4 & H5 & H6).
      exists hi, hi', node'. repeat split; try done. by rewrite H3.
Qed.

(** [backward], step by step: the first heap is the one in which the root
    has received its gradient 1.0. *)
Lemma backward_steps (h : heap) (root : ValuePtr) (tr : trace) (h' : heap) :
  wf h -> backward root h = Some (tr, h') ->
  exists hs : list heap,
    length hs = S (length tr)
    /\ hs !! 0%nat = Some (alter (set_grad 1) root h)
    /\ hs !! length tr = Some h'
    /\ forall i n incs, tr !! i = Some (n, incs) ->
         exists hi hi' node,
           hs !! i = Some hi /\ hs !! S i = Some hi'
           /\ skeleton hi = skeleton h
           /\ hi !! n = Some node
           /\ call_backward_fn (m_backward_fn node) hi = Some (incs, hi')
           /\ h' !! n = Some node.
Proof.
  intros Hwf Hb0.
  assert (Hroot : live h root).
  { apply backward_Some in Hb0 as (_ & _ & _ & Hr & _). by apply live_lookup. }
  destruct (backward_total root h Hwf Hroot)
    as (rest & tr0 & h0' & Hb & Hfor & _ & Hnd & Hfirst & _).
  rewrite Hb0 in Hb. injection Hb as <- <-.
  assert (Hsk : skeleton (alter (set_grad 1) root h) = skeleton h)
    by (apply skeleton_alter; by intros []).
  apply (for_each_steps _ _ _ _ (skeleton_wf _ _ Hsk Hwf)) in Hfor
    as (hs & Hlen & H0 & Hlast & Hsteps).
  - exists hs. split; [done|]. split; [done|]. split; [done|].
    intros i n incs Hi.
    destruct (Hsteps i n incs Hi) as (hi & hi' & node & H1 & H2 & H3 & H4 & H5 & H6).
    exists hi, hi', node. repeat split; try done. by rewrite H3.
  - rewrite <- reverse_snoc. set (topo := rest ++ [root]) in *.
    intros i j x y Hi Hj Hij Hop. apply (operand_skeleton _ _ _ _ Hsk) in Hop.
    pose proof (lookup_lt_Some _ _ _ Hi) as Hli.
    pose proof (lookup_lt_Some _ _ _ Hj) as Hlj.
    rewrite length_reverse in Hli, Hlj.
    rewrite reverse_lookup in Hi, Hj by done.
    destruct (Hfirst _ _ _ Hj Hop) as (k & Hk & Hx).
    pose proof (NoDup_lookup _ _ _ _ Hnd Hi Hx). lia.
Qed.

(** ** Values that are not finite *)

Lemma accumulate_elem_not_finite (g d : float) (ds : list float) :
  d ∈ ds -> is_finite d = false -> is_finite (accumulate g ds) = false.
Proof.
  intros Hd Hnf. revert g. induction ds as [|d' ds IH]; intros g.
  - by apply not_elem_of_nil in Hd.
  - rewrite accumulate_cons. apply elem_of_cons in Hd as [<-|Hd].
    + by apply accumulate_not_finite, add_not_finite_r.
    + by apply IH.
Qed.

Lemma deltas_elem (t : ValuePtr) (x : float) (incs : list (ValuePtr * float)) :
  (t, x) ∈ incs -> x ∈ deltas t incs.
Proof.
  induction incs as [|e incs IH]; intros Hin.
  - by apply not_elem_of_nil in Hin.
  - rewrite deltas_cons. apply elem_of_cons in Hin as [<-|Hin].
    + simpl. rewrite decide_True by done. apply list_elem_of_here.
    + destruct (decide (e.1 = t)); [apply list_elem_of_further|]; by apply IH.
Qed.

(** An increment a lambda made is among the contributions to its target. *)
Lemma contributions_elem (tr : trace) (k : nat) (n t : ValuePtr)
    (incs : list (ValuePtr * float)) (x : float) :
  tr !! k = Some (n, incs) -> (t, x) ∈ incs -> x ∈ contributions t tr.
Proof.
  intros Hk Hin. apply list_elem_of_lookup_2, list_elem_of_split in Hk as (tr1 & tr2 & ->).
  rewrite contributions_app, contributions_cons, !elem_of_app.
  right. left. by apply deltas_elem.
Qed.

(** [i = g / d; i->backward()] for any two nodes, which may be one and the
    same or lie one below the other.  The lambda of the product adds
    [pow(d, -1) * 1.0] to the gradient of [g], and the lambda of the power
    adds [(-1 * pow(d, -2))] times its own gradient to that of [d]. *)
Lemma backward_div (h0 : heap) (g d : ValuePtr) (vg vd : Value) :
  wf h0 -> h0 !! g = Some vg -> h0 !! d = Some vd ->
  let r := std_pow (m_data vd) (-1) in
  let q := std_pow (m_data vd) (-1 - 1) in
  exists i h1 ni tr h2 gr,
    operator_div g d h0 = Some (i, h1)
    /\ h1 !! i = Some ni /\ m_data ni = m_data vg * r
    /\ backward i h1 = Some (tr, h2)
    /\ r * 1 ∈ contributions g tr
    /\ (-1 * q) * gr ∈ contributions d tr
    /\ h2 !! g = Some (set_grad (accumulate (m_grad vg) (contributions g tr)) vg)
    /\ h2 !! d = Some (set_grad (accumulate (m_grad vd) (contributions d tr)) vd).
Proof.
  clear std_tanh std_exp.
  intros Hwf Hg Hd r q.
  pose proof (lookup_lt_Some _ _ _ Hg) as Hltg.
  pose proof (lookup_lt_Some _ _ _ Hd) as Hltd.
  set (p := length h0).
  set (np := mkValue r 0 "" "pow" (std_set [d]) (FnPow d (-1) p)).
  set (i := length (h0 ++ [np])).
  set (ni := mkValue (m_data vg * r) 0 "" "*" (std_set [g; p]) (FnMul g p i)).
  set (h1 := (h0 ++ [np]) ++ [ni]).
  assert (Hi : i = S p) by (unfold i, p; rewrite length_app; simpl; lia).
  assert (Hp1 : h1 !! p = Some np).
  { unfold h1. rewrite lookup_app_l by (rewrite length_app; simpl; lia).
    apply lookup_snoc_new. }
  assert (Hi1 : h1 !! i = Some ni) by apply lookup_snoc_new.
  assert (Hg1 : h1 !! g = Some vg).
  { unfold h1. rewrite <- app_assoc. by rewrite lookup_app_l. }
  assert (Hd1 : h1 !! d = Some vd).
  { unfold h1. rewrite <- app_assoc. by rewrite lookup_app_l. }
  assert (Hdiv : operator_div g d h0 = Some (i, h1)).
  { assert (HgP : (h0 ++ [np]) !! g = Some vg) by by rewrite lookup_app_l.
    assert (HpP : (h0 ++ [np]) !! p = Some np) by apply lookup_snoc_new.
    unfold operator_div, bind. rewrite pow_eq, Hd. simpl.
    change (operator_mul g p (h0 ++ [np]) = Some (i, h1)).
    rewrite operator_mul_eq, HgP, HpP. done. }
  assert (Hwf1 : wf h1).
  { destruct (operator_div_allocates g d h0) as (out & l & Hm & _ & Hwf' & _); [done..|].
    rewrite Hdiv in Hm. injection Hm as _ Hl. unfold h1 in Hl.
    rewrite <- app_assoc in Hl. apply app_inv_head in Hl as <-.
    unfold h1. rewrite <- app_assoc. auto. }
  assert (Hli : live h1 i) by (by eapply lookup_lt_Some).
  destruct (backward_total i h1 Hwf1 Hli)
    as (rest & tr & h2 & Hback & _ & Hinv & _ & _ & Hreach).
  destruct (backward_steps h1 i tr h2 Hwf1 Hback) as (hs & _ & H0 & _ & Hsteps).
  (* the lambda of the product, first in the sequence *)
  assert (Hroot : exists incs0, tr !! 0%nat = Some (i, incs0)).
  { destruct tr as [|[n0 incs0] tr']; [done|]. unfold invoked in Hinv.
    rewrite fmap_cons in Hinv. injection Hinv as -> _. by exists incs0. }
  destruct Hroot as [incs0 Htr0].
  destruct (Hsteps _ _ _ Htr0) as (hi & hi' & node & Hhi & _ & _ & Hnode & Hcall & _).
  rewrite H0 in Hhi. injection Hhi as <-.
  rewrite list_lookup_alter_eq, Hi1 in Hnode. injection Hnode as <-.
  change (call_backward_fn (FnMul g p i) (alter (set_grad 1) i h1) = Some (incs0, hi'))
    in Hcall.
  apply call_mul_Some in Hcall as (vl & vr & vo & Hvl & Hvr & Hvo & Hincs); [|lia].
  rewrite list_lookup_alter_ne, Hp1 in Hvr by lia. injection Hvr as <-.
  rewrite list_lookup_alter_eq, Hi1 in Hvo. injection Hvo as <-.
  change (m_grad (set_grad 1 ni)) with 1 in Hincs. change (m_data np) with r in Hincs.
  (* the lambda of the power *)
  assert (Hpin : p ∈ invoked tr).
  { rewrite Hinv, <- reverse_snoc. apply elem_of_reverse, Hreach.
    eapply rtc_l; [|apply rtc_refl]. exists ni. split; [done|].
    simpl. apply (proj2 (std_set_spec [g; p])).
    apply list_elem_of_further, list_elem_of_here. }
  apply list_elem_of_fmap in Hpin as ([nk incs_p] & Heq & Hin). simpl in Heq. subst nk.
  apply list_elem_of_lookup in Hin as [k Htrk].
  destruct (Hsteps _ _ _ Htrk) as (hk & hk' & nodek & _ & _ & Hskk & Hnodek & Hcallk & _).
  destruct (skeleton_lookup _ _ _ _ Hskk Hnodek) as (np' & Hnp' & Heqp).
  rewrite Hp1 in Hnp'. injection Hnp' as <-.
  destruct (skeleton_fields _ _ Heqp) as (_ & _ & _ & _ & Hfnk).
  rewrite Hfnk in Hcallk.
  change (call_backward_fn (FnPow d (-1) p) hk = Some (incs_p, hk')) in Hcallk.
  apply call_pow_Some in Hcallk as (vb & vok & Hvb & _ & Hincsp).
  destruct (skeleton_lookup _ _ _ _ Hskk Hvb) as (vd' & Hvd' & Heqd).
  rewrite Hd1 in Hvd'. injection Hvd' as <-.
  destruct (skeleton_fields _ _ Heqd) as (Hdata & _).
  rewrite Hdata in Hincsp. fold q in Hincsp.
  exists i, h1, ni, tr, h2, (m_grad vok).
  split; [done|]. split; [done|]. split; [done|]. split; [done|]. split.
  { apply (contributions_elem tr 0 i g incs0); [done|]. rewrite Hincs.
    apply list_elem_of_here. }
  split.
  { apply (contributions_elem tr k p d incs_p); [done|]. rewrite Hincsp.
    apply list_elem_of_here. }
  rewrite (backward_grad _ _ _ _ _ _ Hback Hg1), (backward_grad _ _ _ _ _ _ Hback Hd1).
  rewrite !decide_False by lia. done.
Qed.

(** * The claims of the design document *)

(** ** Visitation order *)

(** C1.  On every heap built through the operator layer, [backward(root)]
    returns.  Each node reachable from [root] through operands has its
    [m_backward_fn] invoked exactly once (there is exactly one position of
    the invocation sequence that holds it), no other node is invoked, and a
    node that uses another as an operand is invoked before it.  The
    invocations are the calls the loop makes: the pass goes through the
    heaps [hs], starting from the heap in which the gradient of the root is
    1.0 and ending in the heap [backward] leaves; step [i] calls the lambda
    stored in node number [i] of the sequence on the heap the step before
    left, and makes the increments recorded for it.  When the lambda of a
    node runs, the node is already as the pass will leave it: every node
    that uses it has run, so its gradient holds all their contributions. *)
Theorem backward_reverse_topological (h : heap) (root : ValuePtr) :
  built h -> live h root ->
  exists tr h' (hs : list heap),
    backward root h = Some (tr, h')
    /\ (forall n, reachable h root n ->
          exists i, invoked tr !! i = Some n
                    /\ forall j, invoked tr !! j = Some n -> j = i)
    /\ (forall n, n ∈ invoked tr -> reachable h root n)
    /\ (forall c n, reachable h root c -> operand h c n -> before (invoked tr) c n)
    /\ length hs = S (length tr)
    /\ hs !! 0%nat = Some (alter (set_grad 1) root h)
    /\ hs !! length tr = Some h'
    /\ (forall i n incs, tr !! i = Some (n, incs) ->
          exists hi hi' node,
            hs !! i = Some hi /\ hs !! S i = Some hi'
            /\ hi !! n = Some node
            /\ call_backward_fn (m_backward_fn node) hi = Some (incs, hi')
            /\ h' !! n = Some node).
Proof.
  intros Hbuilt Hroot. pose proof (built_wf h Hbuilt) as Hwf.
  destruct (backward_total root h Hwf Hroot)
    as (rest & tr & h' & Hb & _ & Hinv & Hnd & Hfirst & Hreach).
  destruct (backward_steps h root tr h' Hwf Hb) as (hs & Hlen & H0 & Hlast & Hsteps).
  rewrite <- reverse_snoc in Hinv. set (topo := rest ++ [root]) in *.
  exists tr, h', hs. split; [done|]. rewrite Hinv.
  split; [|split; [|split; [|split; [done|split; [done|split; [done|]]]]]].
  - intros n Hn. apply Hreach, elem_of_reverse, list_elem_of_lookup in Hn as [i Hi].
    exists i. split; [done|]. intros j Hj.
    eapply NoDup_lookup; [|exact Hj|exact Hi]. by rewrite reverse_Permutation.
  - intros n Hn. by apply Hreach, elem_of_reverse.
  - intros c n Hc Hop. apply Hreach, list_elem_of_lookup in Hc as [i Hi].
    destruct (Hfirst i c n Hi Hop) as (j & Hji & Hj).
    pose proof (lookup_lt_Some _ _ _ Hi) as Hlen'.
    exists (length topo - S i)%nat, (length topo - S j)%nat.
    rewrite !reverse_lookup by lia.
    replace (length topo - S (length topo - S i))%nat with i by lia.
    replace (length topo - S (length topo - S j))%nat with j by lia.
    split; [done|]. split; [done|]. lia.
  - intros i n incs Hi.
    destruct (Hsteps i n incs Hi) as (hi & hi' & node & H1 & H2 & _ & H4 & H5 & H6).
    by exists hi, hi', node.
Qed.

(** ** Frame *)

(** C9.  [backward(root)] returns, keeps every object of the heap in place,
    and leaves its value, label, operation tag, operand set and stored
    lambda as they were; this holds of every object, reachable from [root]
    or not. *)
Theorem backward_changes_gradients_only (h : heap) (root : ValuePtr) :
  built h -> live h root ->
  exists tr h',
    backward root h = Some (tr, h')
    /\ length h' = length h
    /\ forall n v, h !! n = Some v ->
         exists v', h' !! n = Some v'
                    /\ m_data v' = m_data v /\ m_label v' = m_label v
                    /\ m_op v' = m_op v /\ m_prev v' = m_prev v
                    /\ m_backward_fn v' = m_backward_fn v.
Proof.
  intros Hbuilt Hroot. pose proof (built_wf h Hbuilt) as Hwf.
  destruct (backward_total root h Hwf Hroot) as (rest & tr & h' & Hb & _).
  exists tr, h'. split; [done|]. split.
  - apply skeleton_length. by eapply backward_skeleton.
  - intros n v Hn. rewrite (backward_grad _ _ _ _ _ _ Hb Hn).
    eexists. split; [done|]. by destruct v.
Qed.

(** ** Accumulation across passes *)

(** C7.  [backward] never resets a gradient.  On every reachable heap, two
    calls of [backward(root)] in a row both return and leave in each node
    other than the root the gradient it held before the first call plus the
    increments of the first pass plus those of the second, while the root
    starts each pass at 1.0 and (being nobody's operand) ends it there.
    For [c = a + b] with distinct leaves [a], [b] of gradient 0, this gives
    2.0 in both leaves after the second call. *)
Theorem backward_twice_accumulates :
  (forall (h : heap) (root : ValuePtr),
     built h -> live h root ->
     exists tr1 h1 tr2 h2,
       backward root h = Some (tr1, h1)
       /\ backward root h1 = Some (tr2, h2)
       /\ (forall n v, h !! n = Some v -> n <> root ->
             exists v2, h2 !! n = Some v2
               /\ m_grad v2 =
                    accumulate (accumulate (m_grad v) (contributions n tr1))
                      (contributions n tr2))
       /\ (exists r1 r2,
             h1 !! root = Some r1 /\ m_grad r1 = accumulate 1 (contributions root tr1)
             /\ m_grad r1 = 1
             /\ h2 !! root = Some r2 /\ m_grad r2 = accumulate 1 (contributions root tr2)
             /\ m_grad r2 = 1))
  /\ (forall (h : heap) (a b : ValuePtr) (va vb : Value),
       built h -> a <> b ->
       h !! a = Some va -> h !! b = Some vb ->
       is_leaf va -> is_leaf vb -> m_grad va = 0 -> m_grad vb = 0 ->
       exists c h0 tr1 h1 tr2 h2 va' vb' vc',
         operator_add a b h = Some (c, h0)
         /\ backward c h0 = Some (tr1, h1)
         /\ backward c h1 = Some (tr2, h2)
         /\ h2 !! a = Some va' /\ m_grad va' = 2
         /\ h2 !! b = Some vb' /\ m_grad vb' = 2
         /\ h2 !! c = Some vc' /\ m_grad vc' = 1).
Proof.
  split.
  - intros h root Hbuilt Hroot. pose proof (built_wf h Hbuilt) as Hwf.
    destruct (backward_total root h Hwf Hroot) as (rest1 & tr1 & h1 & Hb1 & _).
    pose proof (backward_skeleton _ _ _ _ Hb1) as Hsk1.
    assert (Hwf1 : wf h1) by by eapply skeleton_wf.
    assert (Hroot1 : live h1 root).
    { unfold live. by rewrite (skeleton_length _ _ Hsk1). }
    destruct (backward_total root h1 Hwf1 Hroot1) as (rest2 & tr2 & h2 & Hb2 & _).
    exists tr1, h1, tr2, h2. split; [done|]. split; [done|]. split.
    + intros n v Hn Hne.
      pose proof (backward_grad _ _ _ _ _ _ Hb1 Hn) as Hn1.
      rewrite decide_False in Hn1 by done.
      pose proof (backward_grad _ _ _ _ _ _ Hb2 Hn1) as Hn2.
      rewrite decide_False in Hn2 by done.
      eexists. split; [exact Hn2|]. done.
    + destruct (proj1 (live_lookup _ _) Hroot) as [r Hr].
      pose proof (backward_grad _ _ _ _ _ _ Hb1 Hr) as Hr1.
      rewrite decide_True in Hr1 by done.
      pose proof (backward_grad _ _ _ _ _ _ Hb2 Hr1) as Hr2.
      rewrite decide_True in Hr2 by done.
      eexists _, _. split; [exact Hr1|]. split; [done|]. split.
      { simpl. by rewrite (backward_root_untouched _ _ _ _ Hwf Hb1). }
      split; [exact Hr2|]. split; [done|].
      simpl. by rewrite (backward_root_untouched _ _ _ _ Hwf1 Hb2).
  - intros h a b va vb Hbuilt Hab Ha Hb [Hpa _] [Hpb _] Hga Hgb.
    pose proof (built_wf h Hbuilt) as Hwf.
    set (c := length h).
    set (nc := mkValue (m_data va + m_data vb) 0 "" "+" (std_set [a; b]) (FnAdd a b c)).
    assert (Hadd : operator_add a b h = Some (c, h ++ [nc])).
    { rewrite operator_add_eq, Ha, Hb. done. }
    assert (Hwf0 : wf (h ++ [nc])).
    { destruct (operator_add_allocates a b h) as (out & l & Hm & _ & Hwf' & _);
        [by eapply lookup_lt_Some..|].
      rewrite Hadd in Hm. injection Hm as _ Hl. apply app_inv_head in Hl as <-. auto. }
    assert (Hprev : forall x, x ∈ m_prev nc -> x = a \/ x = b).
    { intros x Hx. simpl in Hx. apply (proj2 (std_set_spec [a; b])) in Hx. set_solver. }
    assert (Ha0 : (h ++ [nc]) !! a = Some va)
      by (rewrite lookup_app_l; [done|by eapply lookup_lt_Some]).
    assert (Hb0 : (h ++ [nc]) !! b = Some vb)
      by (rewrite lookup_app_l; [done|by eapply lookup_lt_Some]).
    assert (Hc0 : (h ++ [nc]) !! c = Some nc) by apply lookup_snoc_new.
    destruct (backward_add_leaves (h ++ [nc]) a b c va vb nc)
      as (tr1 & h1 & Hb1 & Hca1 & Hcb1 & Hcc1); try done.
    assert (Hac : a <> c) by (apply lookup_lt_Some in Ha; unfold c; lia).
    assert (Hbc : b <> c) by (apply lookup_lt_Some in Hb; unfold c; lia).
    pose proof (backward_grad _ _ _ _ _ _ Hb1 Ha0) as Ha1.
    pose proof (backward_grad _ _ _ _ _ _ Hb1 Hb0) as Hb1'.
    pose proof (backward_grad _ _ _ _ _ _ Hb1 Hc0) as Hc1.
    rewrite Hca1, decide_False in Ha1 by done.
    rewrite Hcb1, decide_False in Hb1' by done.
    rewrite Hcc1, decide_True in Hc1 by done.
    assert (Hwf1 : wf h1).
    { eapply skeleton_wf; [|exact Hwf0]. by eapply backward_skeleton. }
    destruct (backward_add_leaves h1 a b c _ _ _ Hwf1 Hab Ha1 Hb1' Hc1)
      as (tr2 & h2 & Hb2 & Hca2 & Hcb2 & Hcc2); try done.
    pose proof (backward_grad _ _ _ _ _ _ Hb2 Ha1) as Ha2.
    pose proof (backward_grad _ _ _ _ _ _ Hb2 Hb1') as Hb2'.
    pose proof (backward_grad _ _ _ _ _ _ Hb2 Hc1) as Hc2.
    rewrite Hca2, decide_False in Ha2 by done.
    rewrite Hcb2, decide_False in Hb2' by done.
    rewrite Hcc2, decide_True in Hc2 by done.
    exists c, (h ++ [nc]), tr1, h1, tr2, h2. eexists _, _, _.
    split; [done|]. split; [done|]. split; [done|].
    split; [exact Ha2|]. split; [simpl; by rewrite Hga|].
    split; [exact Hb2'|]. split; [simpl; by rewrite Hgb|].
    split; [exact Hc2|]. done.
Qed.

(** ** A node used twice *)

(** C2, as amended.  For every node [a] of a reachable heap whose gradient is
    zero and whose value is not NaN, with [b = a * a]: [b->backward()]
    returns, makes exactly two increments to the gradient of [a], one per
    use, and then [a->grad() == 2 * a->data()] ([==] of doubles). *)
Theorem square_gradient (h : heap) (a : ValuePtr) (va : Value) :
  built h -> h !! a = Some va ->
  is_zero (m_grad va) = true -> is_nan (m_data va) = false ->
  exists b h0 tr h1 va',
    operator_mul a a h = Some (b, h0)
    /\ backward b h0 = Some (tr, h1)
    /\ contributions a tr = [m_data va * 1; m_data va * 1]
    /\ h1 !! a = Some va'
    /\ m_data va' = m_data va
    /\ (m_grad va' =? 2 * m_data va') = true.
Proof.
  intros Hbuilt Ha Hg Hx.
  destruct (backward_self_mul h a va (built_wf h Hbuilt) Ha)
    as (b & h0 & nb & tr & h1 & Hmul & _ & _ & Hback & Hcontr & Ha1).
  exists b, h0, tr, h1. eexists. split; [done|]. split; [done|]. split; [done|].
  split; [exact Ha1|]. split; [done|]. simpl. by apply twice_from_zero.
Qed.

(** C10.  When both operands of [+] or [*] are the node [a], the operand set
    of the result has exactly one element, [a]; the stored lambda still
    writes to [a] once per operand occurrence, so a pass makes two
    increments to the gradient of [a] and both are in it afterwards. *)
Theorem shared_operand_collapses (h : heap) (a : ValuePtr) (va : Value) :
  built h -> h !! a = Some va ->
  (exists c h0 nc tr h1 va',
     operator_add a a h = Some (c, h0)
     /\ h0 !! c = Some nc /\ m_prev nc = [a] /\ length (m_prev nc) = 1%nat
     /\ m_backward_fn nc = FnAdd a a c
     /\ backward c h0 = Some (tr, h1)
     /\ contributions a tr = [1; 1]
     /\ h1 !! a = Some va' /\ m_grad va' = (m_grad va + 1) + 1)
  /\ (exists c h0 nc tr h1 va',
        operator_mul a a h = Some (c, h0)
        /\ h0 !! c = Some nc /\ m_prev nc = [a] /\ length (m_prev nc) = 1%nat
        /\ m_backward_fn nc = FnMul a a c
        /\ backward c h0 = Some (tr, h1)
        /\ contributions a tr = [m_data va * 1; m_data va * 1]
        /\ h1 !! a = Some va'
        /\ m_grad va' = (m_grad va + m_data va * 1) + m_data va * 1).
Proof.
  intros Hbuilt Ha. pose proof (built_wf h Hbuilt) as Hwf. split.
  - destruct (backward_self_add h a va Hwf Ha)
      as (c & h0 & nc & tr & h1 & Hadd & Hc & Hprev & Hback & Hcontr & Ha1).
    exists c, h0, nc, tr, h1. eexists. split; [done|]. split; [done|].
    split; [done|]. split; [by rewrite Hprev|]. split.
    { rewrite operator_add_eq, Ha in Hadd. simpl in Hadd. injection Hadd as <- <-.
      rewrite lookup_snoc_new in Hc. by injection Hc as <-. }
    split; [done|]. split; [done|]. split; [exact Ha1|]. done.
  - destruct (backward_self_mul h a va Hwf Ha)
      as (c & h0 & nc & tr & h1 & Hmul & Hc & Hprev & Hback & Hcontr & Ha1).
    exists c, h0, nc, tr, h1. eexists. split; [done|]. split; [done|].
    split; [done|]. split; [by rewrite Hprev|]. split.
    { rewrite operator_mul_eq, Ha in Hmul. simpl in Hmul. injection Hmul as <- <-.
      rewrite lookup_snoc_new in Hc. by injection Hc as <-. }
    split; [done|]. split; [done|]. split; [exact Ha1|]. done.
Qed.

(** ** Hyperbolic tangent *)

(** C4.  For every node [a] (a leaf in particular) of a reachable heap with
    a finite value and gradient zero, and [f = tanh(a)]: the value of [f] is
    [std::tanh] of the value of [a], [f->backward()] returns, and then
    [a->grad() == 1 - f->data() * f->data()].  [std::tanh] is a parameter;
    what is used of it is that its result at this finite argument is not
    NaN. *)
Theorem tanh_gradient (h : heap) (a : ValuePtr) (va : Value) :
  built h -> h !! a = Some va ->
  is_finite (m_data va) = true -> is_zero (m_grad va) = true ->
  is_nan (std_tanh (m_data va)) = false ->
  exists f h0 nf tr h1 va' nf',
    tanh a h = Some (f, h0)
    /\ h0 !! f = Some nf /\ m_data nf = std_tanh (m_data va)
    /\ backward f h0 = Some (tr, h1)
    /\ h1 !! a = Some va' /\ h1 !! f = Some nf'
    /\ m_data nf' = m_data nf
    /\ (m_grad va' =? 1 - m_data nf' * m_data nf') = true.
Proof.
  intros Hbuilt Ha _ Hg Ht.
  destruct (backward_tanh h a va (built_wf h Hbuilt) Ha)
    as (f & h0 & nf & tr & h1 & Htanh & Hf & Hdata & Hback & _ & Ha1 & nf' & Hf1 & Hdata').
  exists f, h0, nf, tr, h1. eexists _, nf'.
  split; [done|]. split; [done|]. split; [done|]. split; [done|].
  split; [exact Ha1|]. split; [done|]. split; [congruence|].
  rewrite Hdata'. simpl. apply once_from_zero; [done|].
  by apply one_minus_square_not_nan.
Qed.

(** ** Division *)

(** C3.  For leaves [g] of value 8.0 and [d] of value 2.0, both of gradient
    0, [i = g / d] is [g * pow(d, -1.0)], its value is 4.0, and after
    [i->backward()] the gradient of [g] is 0.5 and that of [d] is -2.0.
    [std::pow] is a parameter; what is used of it are its two values
    [pow(2, -1) = 0.5] and [pow(2, -2) = 0.25]. *)
Theorem division_scenario (h0 : heap) (g d : ValuePtr) (vg vd : Value) :
  built h0 -> h0 !! g = Some vg -> h0 !! d = Some vd ->
  is_leaf vg -> is_leaf vd ->
  m_data vg = 8 -> m_data vd = 2 -> m_grad vg = 0 -> m_grad vd = 0 ->
  std_pow 2 (-1) = 0.5 -> std_pow 2 (-2) = 0.25 ->
  exists i h1 ni tr h2 vg' vd',
    operator_div g d h0 = (r <- pow d (-1) ;; operator_mul g r) h0
    /\ operator_div g d h0 = Some (i, h1)
    /\ h1 !! i = Some ni /\ m_data ni = 4
    /\ backward i h1 = Some (tr, h2)
    /\ h2 !! g = Some vg' /\ m_grad vg' = 0.5
    /\ h2 !! d = Some vd' /\ m_grad vd' = -2.
Proof.
  intros Hbuilt Hg Hd Hlg Hld Hdg Hdd Hgg Hgd Hp1 Hp2.
  assert (Hne : g <> d).
  { intros ->. rewrite Hg in Hd. injection Hd as ->. rewrite Hdg in Hdd.
    by apply (f_equal (fun x => x =? 8)) in Hdd. }
  destruct (backward_div_leaves h0 g d vg vd (built_wf h0 Hbuilt) Hne Hg Hd Hlg Hld)
    as (i & h1 & ni & tr & h2 & Hdiv & Hi & Hdi & Hback & Hg2 & Hd2).
  rewrite Hdg, Hdd in *. change (-1 - 1) with (-2) in Hd2.
  rewrite Hp1 in Hdi, Hg2. rewrite Hp2 in Hd2. rewrite Hgg in Hg2. rewrite Hgd in Hd2.
  exists i, h1, ni, tr, h2. eexists _, _.
  split; [done|]. split; [done|]. split; [done|]. split; [by rewrite Hdi|].
  split; [done|]. split; [exact Hg2|]. split; [done|]. split; [exact Hd2|]. done.
Qed.

(** ** Mixed node/scalar forms *)

(** C5.  Each mixed overload of [+], [*], [-] and [/] allocates a fresh leaf
    without label for the scalar (the next identity of the heap, value the
    scalar, gradient 0, no operands) and then is the node/node form on it.
    For a leaf [j] of value 5.0 and gradient 0 and [k = j + 10.0]: the
    value of [k] is 15.0 and after [k->backward()] the gradient of [j] is
    1.0. *)
Theorem mixed_scalar_forms :
  (forall lhs x h,
     operator_add_double lhs x h = operator_add lhs (length h) (h ++ [Value_leaf x ""]))
  /\ (forall x rhs h,
        double_operator_add x rhs h = operator_add (length h) rhs (h ++ [Value_leaf x ""]))
  /\ (forall lhs x h,
        operator_mul_double lhs x h = operator_mul lhs (length h) (h ++ [Value_leaf x ""]))
  /\ (forall x rhs h,
        double_operator_mul x rhs h = operator_mul (length h) rhs (h ++ [Value_leaf x ""]))
  /\ (forall lhs x h,
        operator_sub_double lhs x h = operator_sub lhs (length h) (h ++ [Value_leaf x ""]))
  /\ (forall x rhs h,
        double_operator_sub x rhs h = operator_sub (length h) rhs (h ++ [Value_leaf x ""]))
  /\ (forall lhs x h,
        operator_div_double lhs x h = operator_div lhs (length h) (h ++ [Value_leaf x ""]))
  /\ (forall (h : heap) (j : ValuePtr) (vj : Value),
        built h -> h !! j = Some vj -> is_leaf vj -> m_data vj = 5 -> m_grad vj = 0 ->
        exists k h0 nk tr h1 vj',
          operator_add_double j 10 h = Some (k, h0)
          /\ h0 !! k = Some nk /\ m_data nk = 15
          /\ backward k h0 = Some (tr, h1)
          /\ h1 !! j = Some vj' /\ m_grad vj' = 1).
Proof.
  repeat (split; [done|]).
  intros h j vj Hbuilt Hj [Hpj _] Hdj Hgj.
  pose proof (built_wf h Hbuilt) as Hwf.
  pose proof (lookup_lt_Some _ _ _ Hj) as Hlt.
  set (r := length h). set (hL := h ++ [Value_leaf 10 ""]).
  assert (HwfL : wf hL) by (apply wf_snoc; [done|apply wf_node_leaf]).
  assert (HjL : hL !! j = Some vj) by by (unfold hL; rewrite lookup_app_l).
  assert (HrL : hL !! r = Some (Value_leaf 10 "")) by apply lookup_snoc_new.
  set (k := length hL).
  set (nk := mkValue (m_data vj + 10) 0 "" "+" (std_set [j; r]) (FnAdd j r k)).
  assert (Hadd : operator_add_double j 10 h = Some (k, hL ++ [nk])).
  { change (operator_add j r hL = Some (k, hL ++ [nk])).
    rewrite operator_add_eq, HjL, HrL. done. }
  assert (Hwf0 : wf (hL ++ [nk])).
  { destruct (operator_add_allocates j r hL) as (out & l & Hm & _ & Hwf' & _).
    - by apply live_lookup.
    - by apply live_lookup.
    - change (operator_add j r hL = Some (k, hL ++ [nk])) in Hadd.
      rewrite Hadd in Hm. injection Hm as _ Hl. apply app_inv_head in Hl as <-. auto. }
  assert (Hj0 : (hL ++ [nk]) !! j = Some vj).
  { rewrite lookup_app_l; [done|]. by eapply lookup_lt_Some. }
  assert (Hr0 : (hL ++ [nk]) !! r = Some (Value_leaf 10 "")).
  { rewrite lookup_app_l; [done|]. by eapply lookup_lt_Some. }
  assert (Hk0 : (hL ++ [nk]) !! k = Some nk) by apply lookup_snoc_new.
  destruct (backward_add_leaves (hL ++ [nk]) j r k vj (Value_leaf 10 "") nk)
    as (tr & h1 & Hback & Hcj & _); try done.
  { unfold r. lia. }
  { intros x Hx. simpl in Hx. apply (proj2 (std_set_spec [j; r])) in Hx. set_solver. }
  exists k, (hL ++ [nk]), nk, tr, h1. eexists.
  split; [done|]. split; [done|]. split; [simpl; by rewrite Hdj|]. split; [done|].
  split; [apply (backward_grad _ _ _ _ _ _ Hback Hj0)|].
  simpl. rewrite Hcj, decide_False, Hgj; [done|].
  apply lookup_lt_Some in HjL. unfold k. lia.
Qed.

(** ** Totality and special values *)

(** C6, as amended.  On a heap built through the operator layer every
    operator, applied to live nodes whatever their values, returns a node.
    Dividing any node by a node whose value is zero gives a quotient whose
    value is not finite, [backward] on it returns, and the gradients it
    leaves in both operands are not finite either.  For [pow] where
    [std::pow] yields NaN (as it does for a negative base and a non-integer
    exponent) the value is NaN, [backward] returns, and the gradient of the
    base is what it held plus [(e * std::pow(b, e - 1)) * 1.0]; this is not
    finite when [std::pow(b, e - 1)] is NaN as well.  [std::pow] is a
    parameter; its special values at these arguments are hypotheses. *)
Theorem operators_total_and_propagate :
  (forall (h : heap) (a b : ValuePtr) (e : float),
     built h -> live h a -> live h b ->
     returns_node (operator_add a b) h /\ returns_node (operator_mul a b) h
     /\ returns_node (pow a e) h /\ returns_node (exp a) h
     /\ returns_node (tanh a) h /\ returns_node (operator_neg a) h
     /\ returns_node (operator_sub a b) h /\ returns_node (operator_div a b) h)
  /\ (forall (h0 : heap) (g z : ValuePtr) (vg vz : Value),
        built h0 -> h0 !! g = Some vg -> h0 !! z = Some vz ->
        is_zero (m_data vz) = true ->
        is_finite (std_pow (m_data vz) (-1)) = false ->
        is_finite (std_pow (m_data vz) (-1 - 1)) = false ->
        exists i h1 ni tr h2 vg' vz',
          operator_div g z h0 = Some (i, h1)
          /\ h1 !! i = Some ni /\ is_finite (m_data ni) = false
          /\ backward i h1 = Some (tr, h2)
          /\ h2 !! g = Some vg' /\ is_finite (m_grad vg') = false
          /\ h2 !! z = Some vz' /\ is_finite (m_grad vz') = false)
  /\ (forall (h : heap) (b : ValuePtr) (vb : Value) (e : float),
        built h -> h !! b = Some vb ->
        (m_data vb <? 0) = true ->
        is_nan (std_pow (m_data vb) e) = true ->
        exists o h0 no tr h1 vb',
          pow b e h = Some (o, h0)
          /\ h0 !! o = Some no
          /\ is_nan (m_data no) = true /\ is_finite (m_data no) = false
          /\ backward o h0 = Some (tr, h1)
          /\ h1 !! b = Some vb'
          /\ m_grad vb' = m_grad vb + (e * std_pow (m_data vb) (e - 1)) * 1
          /\ (is_nan (std_pow (m_data vb) (e - 1)) = true ->
              is_finite (m_grad vb') = false)).
Proof.
  assert (Hret : forall m h, allocates m h -> returns_node m h).
  { intros m h (out & l & Hm & Hout & _). by exists out, (h ++ l). }
  split; [|split].
  - intros h a b e _ Ha Hb.
    repeat split; apply Hret;
      auto using operator_add_allocates, operator_mul_allocates, pow_allocates,
        exp_allocates, tanh_allocates, operator_neg_allocates,
        operator_sub_allocates, operator_div_allocates.
  - intros h0 g z vg vz Hbuilt Hg Hz _ Hr Hq.
    destruct (backward_div h0 g z vg vz (built_wf h0 Hbuilt) Hg Hz)
      as (i & h1 & ni & tr & h2 & gr & Hdiv & Hi & Hdi & Hback & Hcg & Hcz & Hg2 & Hz2).
    exists i, h1, ni, tr, h2. eexists _, _.
    split; [done|]. split; [done|]. split.
    { rewrite Hdi. by apply mul_not_finite_r. }
    split; [done|]. split; [exact Hg2|]. split.
    { simpl. apply (accumulate_elem_not_finite _ _ _ Hcg). by apply mul_not_finite_l. }
    split; [exact Hz2|]. simpl.
    apply (accumulate_elem_not_finite _ _ _ Hcz). by apply mul_not_finite_l, mul_not_finite_r.
  - intros h b vb e Hbuilt Hb _ Hn1.
    destruct (backward_pow h b e vb (built_wf h Hbuilt) Hb)
      as (o & h0 & no & tr & h1 & Hpow & Ho & Hdo & Hback & Hb1).
    exists o, h0, no, tr, h1. eexists.
    split; [done|]. split; [done|]. split; [by rewrite Hdo|]. split.
    { rewrite Hdo. by apply is_nan_not_finite. }
    split; [done|]. split; [exact Hb1|]. split; [done|]. simpl. intros Hn2.
    by apply add_not_finite_r, mul_not_finite_l, mul_not_finite_r, is_nan_not_finite.
Qed.

(** ** Writers of the gradient *)

(** C8, as amended.  The calls return: those of the named functions on a
    heap built through them, those of the special members on any heap, on
    live pointers.  Whenever a call of the header, named function or special
    member, returns, on any heap:
    - an object it allocates has gradient 0, unless the call is a copy or
      move construction, in which case it has the gradient of its source;
    - in an object that was there before, the gradient is unchanged; or the
      call was [add_to_grad(d)] on this object and it is the old one plus
      [d]; or the call was [zero_grad] on it and it is 0; or the call was
      [set_grad(g)] on it and it is [g], the value the caller chose; or the
      call was [backward] and it is the old one (1.0 for the root) plus, in
      order, the increments the lambdas of this pass made to the object; or
      the call was a copy or move assignment to this object and it is the
      gradient of the object assigned from. *)
Theorem gradient_writers :
  (forall (c : api_call) (h : heap),
     built h -> Forall (live h) (call_args c) ->
     exists h', run (Named c) h = Some (tt, h'))
  /\ (forall (p q : ValuePtr) (h : heap),
        live h p -> live h q ->
        (exists h', run (CallCopyAssign p q) h = Some (tt, h'))
        /\ (exists h', run (CallMoveAssign p q) h = Some (tt, h'))
        /\ (exists h', run (CallCopy q) h = Some (tt, h'))
        /\ (exists h', run (CallMove q) h = Some (tt, h')))
  /\ (forall (c : client_call) (h h' : heap),
        Forall (live h) (client_args c) -> run c h = Some (tt, h') ->
        (forall p v', h !! p = None -> h' !! p = Some v' ->
           (m_grad v' = 0 /\ exists c0, c = Named c0)
           \/ (exists q vq, (c = CallCopy q \/ c = CallMove q)
                 /\ h !! q = Some vq /\ m_grad v' = m_grad vq))
        /\ (forall p v v', h !! p = Some v -> h' !! p = Some v' ->
              m_grad v' = m_grad v
              \/ (exists d, c = Named (CallAddToGrad p d) /\ m_grad v' = m_grad v + d)
              \/ (c = Named (CallZeroGrad p) /\ m_grad v' = 0)
              \/ (exists g, c = Named (CallSetGrad p g) /\ m_grad v' = g)
              \/ (exists root tr,
                    c = Named (CallBackward root)
                    /\ backward root h = Some (tr, h')
                    /\ m_grad v' =
                         accumulate (if decide (p = root) then 1 else m_grad v)
                           (contributions p tr))
              \/ (exists q vq, (c = CallCopyAssign p q \/ c = CallMoveAssign p q)
                    /\ h !! q = Some vq /\ m_grad v' = m_grad vq))).
Proof.
  split; [|split].
  - intros c h Hbuilt Hargs. apply (exec_total c h (built_wf h Hbuilt) Hargs).
  - intros p q h Hp Hq.
    destruct (proj1 (live_lookup _ _) Hp) as [vp Hvp].
    destruct (proj1 (live_lookup _ _) Hq) as [vq Hvq].
    assert (Hqr : forall h0, h0 !! q = Some vq -> query q id h0 = Some (vq, h0)).
    { intros h0 Hh0. unfold query. by rewrite Hh0. }
    assert (Hi : forall x f h0, live h0 x -> invoke x f h0 = Some (tt, alter f x h0)).
    { intros x f h0 Hx. apply invoke_Some. split; [by apply live_lookup|done]. }
    split; [|split; [|split]]; eexists; simpl.
    + unfold Value_copy_assign, bind. rewrite (Hqr h Hvq), (Hi p _ h Hp). done.
    + unfold Value_move_assign, bind. rewrite (Hqr h Hvq), (Hi p _ h Hp), Hi; [done|].
      unfold live. by rewrite length_alter.
    + unfold discard, Value_copy, bind, make_shared, ret. rewrite (Hqr h Hvq). done.
    + unfold discard, Value_move, bind, make_shared, ret. rewrite (Hqr h Hvq), Hi; [done|].
      by apply live_app.
  - intros c h h' Hargs Hrun.
    assert (Halloc : forall c0 m, c = Named c0 -> allocates m h ->
      discard m h = Some (tt, h') ->
      (forall p v', h !! p = None -> h' !! p = Some v' ->
         (m_grad v' = 0 /\ exists c0, c = Named c0)
         \/ (exists q vq, (c = CallCopy q \/ c = CallMove q)
               /\ h !! q = Some vq /\ m_grad v' = m_grad vq))
      /\ (forall p v v', h !! p = Some v -> h' !! p = Some v' -> m_grad v' = m_grad v)).
    { intros c0 m Hc Hm Hd. destruct (discard_allocates_grads m h h' Hm Hd) as [Hnew Hold].
      split.
      - intros p v' Hp Hp'. left. split; [by eapply Hnew|by exists c0].
      - intros p v v' Hp Hp'. by rewrite (Hold p v v' Hp Hp'). }
    assert (Hinv : forall p0 f h0, h' = alter f p0 h0 -> length h0 = length h ->
      forall p v', h !! p = None -> h' !! p = Some v' -> False).
    { intros p0 f h0 -> Hlen p v' Hp Hp'. apply lookup_ge_None in Hp.
      apply lookup_lt_Some in Hp'. rewrite length_alter in Hp'. lia. }
    destruct c as [c0|p0 q0|p0 q0|q0|q0]; simpl in Hargs, Hrun.
    + (* the named functions *)
      destruct c0; simpl in Hargs, Hrun;
        repeat match goal with
          | H : Forall _ (_ :: _) |- _ => apply Forall_cons in H as [? H]
          end;
        try (edestruct Halloc as [Hnew Hold]; [reflexivity| |exact Hrun|];
             [eauto using make_value_allocates, make_value_op_allocates,
                operator_add_allocates, operator_mul_allocates, operator_neg_allocates,
                operator_sub_allocates, operator_div_allocates,
                operator_add_double_allocates, double_operator_add_allocates,
                operator_mul_double_allocates, double_operator_mul_allocates,
                operator_sub_double_allocates, double_operator_sub_allocates,
                operator_div_double_allocates, tanh_allocates, exp_allocates,
                pow_allocates; fail|];
             split; [exact Hnew|]; intros ? ? ? Hq Hq'; left; by eapply Hold).
      * (* set_data *)
        apply invoke_Some in Hrun as [_ Hh']. split.
        { intros q v' Hq Hq'. destruct (Hinv _ _ h Hh' eq_refl q v' Hq Hq'). }
        intros q v v' Hq Hq'. left. subst h'.
        destruct (decide (q = p)) as [->|Hne].
        -- rewrite list_lookup_alter_eq, Hq in Hq'. by injection Hq' as <-.
        -- rewrite list_lookup_alter_ne, Hq in Hq' by done. by injection Hq' as <-.
      * (* set_grad *)
        apply invoke_Some in Hrun as [_ Hh']. split.
        { intros q v' Hq Hq'. destruct (Hinv _ _ h Hh' eq_refl q v' Hq Hq'). }
        intros q v v' Hq Hq'. subst h'.
        destruct (decide (q = p)) as [->|Hne].
        -- rewrite list_lookup_alter_eq, Hq in Hq'. injection Hq' as <-.
           do 3 right. left. by exists g.
        -- rewrite list_lookup_alter_ne, Hq in Hq' by done. injection Hq' as <-. by left.
      * (* add_to_grad *)
        apply invoke_Some in Hrun as [_ Hh']. split.
        { intros q v' Hq Hq'. destruct (Hinv _ _ h Hh' eq_refl q v' Hq Hq'). }
        intros q v v' Hq Hq'. subst h'.
        destruct (decide (q = p)) as [->|Hne].
        -- rewrite list_lookup_alter_eq, Hq in Hq'. injection Hq' as <-.
           right. left. by exists d.
        -- rewrite list_lookup_alter_ne, Hq in Hq' by done. injection Hq' as <-. by left.
      * (* zero_grad *)
        apply invoke_Some in Hrun as [_ Hh']. split.
        { intros q v' Hq Hq'. destruct (Hinv _ _ h Hh' eq_refl q v' Hq Hq'). }
        intros q v v' Hq Hq'. subst h'.
        destruct (decide (q = p)) as [->|Hne].
        -- rewrite list_lookup_alter_eq, Hq in Hq'. injection Hq' as <-.
           do 2 right. left. done.
        -- rewrite list_lookup_alter_ne, Hq in Hq' by done. injection Hq' as <-. by left.
      * (* set_label *)
        apply invoke_Some in Hrun as [_ Hh']. split.
        { intros q v' Hq Hq'. destruct (Hinv _ _ h Hh' eq_refl q v' Hq Hq'). }
        intros q v v' Hq Hq'. left. subst h'.
        destruct (decide (q = p)) as [->|Hne].
        -- rewrite list_lookup_alter_eq, Hq in Hq'. by injection Hq' as <-.
        -- rewrite list_lookup_alter_ne, Hq in Hq' by done. by injection Hq' as <-.
      * (* backward *)
        apply discard_Some in Hrun as [tr Hback]. split.
        { intros q v' Hq Hq'. apply lookup_ge_None in Hq. apply lookup_lt_Some in Hq'.
          rewrite (skeleton_length _ _ (backward_skeleton _ _ _ _ Hback)) in Hq'. lia. }
        intros q v v' Hq Hq'. rewrite (backward_grad _ _ _ _ _ _ Hback Hq) in Hq'.
        injection Hq' as <-. do 4 right. left. exists p, tr. done.
    + (* copy assignment *)
      apply bind_Some in Hrun as (other & h1 & Hq & Hrun).
      apply query_Some in Hq as (-> & vq & Hvq & ->).
      apply invoke_Some in Hrun as [_ Hh']. split.
      { intros q v' Hq Hq'. destruct (Hinv _ _ h Hh' eq_refl q v' Hq Hq'). }
      intros q v v' Hq Hq'. subst h'.
      destruct (decide (q = p0)) as [->|Hne].
      * rewrite list_lookup_alter_eq, Hq in Hq'. injection Hq' as <-.
        do 5 right. exists q0, vq. split; [by left|done].
      * rewrite list_lookup_alter_ne, Hq in Hq' by done. injection Hq' as <-. by left.
    + (* move assignment *)
      apply bind_Some in Hrun as (other & h1 & Hq & Hrun).
      apply query_Some in Hq as (-> & vq & Hvq & ->).
      apply bind_Some in Hrun as ([] & h1 & Hi1 & Hrun).
      apply invoke_Some in Hi1 as [_ ->].
      apply invoke_Some in Hrun as [_ Hh']. split.
      { intros q v' Hq Hq'. exfalso. refine (Hinv _ _ _ Hh' _ q v' Hq Hq').
        apply length_alter. }
      intros q v v' Hq Hq'. subst h'.
      destruct (decide (q = q0)) as [->|Hneq].
      * rewrite list_lookup_alter_eq in Hq'.
        destruct (decide (q0 = p0)) as [->|Hnep].
        -- rewrite list_lookup_alter_eq, Hq in Hq'. injection Hq' as <-.
           rewrite Hq in Hvq. injection Hvq as <-. by left.
        -- rewrite list_lookup_alter_ne, Hq in Hq' by done. injection Hq' as <-. by left.
      * rewrite list_lookup_alter_ne in Hq' by done.
        destruct (decide (q = p0)) as [->|Hnep].
        -- rewrite list_lookup_alter_eq, Hq in Hq'. injection Hq' as <-.
           do 5 right. exists q0, vq. split; [by right|done].
        -- rewrite list_lookup_alter_ne, Hq in Hq' by done. injection Hq' as <-. by left.
    + (* copy construction *)
      apply discard_Some in Hrun as [out Hrun].
      apply bind_Some in Hrun as (other & h1 & Hq & Hrun).
      apply query_Some in Hq as (-> & vq & Hvq & ->).
      unfold make_shared in Hrun. injection Hrun as _ <-. split.
      * intros q v' Hq Hq'. apply lookup_ge_None in Hq.
        rewrite lookup_app_r in Hq' by done.
        apply list_elem_of_lookup_2, list_elem_of_singleton in Hq' as ->.
        right. exists q0, vq. split; [by left|done].
      * intros q v v' Hq Hq'. left.
        rewrite lookup_app_l in Hq' by (by eapply lookup_lt_Some). congruence.
    + (* move construction *)
      apply discard_Some in Hrun as [out Hrun].
      apply bind_Some in Hrun as (other & h1 & Hq & Hrun).
      apply query_Some in Hq as (-> & vq & Hvq & ->).
      apply bind_Some in Hrun as (out' & h1 & Hmk & Hrun).
      unfold make_shared in Hmk. injection Hmk as <- <-.
      apply bind_Some in Hrun as ([] & h1 & Hi1 & Hret).
      apply ret_Some in Hret as [_ ->]. apply invoke_Some in Hi1 as [_ ->].
      pose proof (lookup_lt_Some _ _ _ Hvq) as Hltq. split.
      * intros q v' Hq Hq'. apply lookup_ge_None in Hq.
        rewrite list_lookup_alter_ne in Hq' by lia.
        rewrite lookup_app_r in Hq' by done.
        apply list_elem_of_lookup_2, list_elem_of_singleton in Hq' as ->.
        right. exists q0, vq. split; [by right|done].
      * intros q v v' Hq Hq'. left. pose proof (lookup_lt_Some _ _ _ Hq) as Hlt.
        destruct (decide (q = q0)) as [->|Hne].
        -- rewrite list_lookup_alter_eq, lookup_app_l, Hq in Hq' by done.
           by injection Hq' as <-.
        -- rewrite list_lookup_alter_ne, lookup_app_l, Hq in Hq' by done.
           by injection Hq' as <-.
Qed.

(** * Further properties of the engine *)

(** ** Passes, continued *)

Lemma reachable_snoc_old (h : heap) (v : Value) (x y : ValuePtr) :
  wf h -> (x < length h)%nat -> reachable (h ++ [v]) x y <-> reachable h x y.
Proof.
  intros Hwf Hx. split.
  - intros Hr. revert Hx. induction Hr as [x|x c y Hop _ IH]; intros Hx; [apply rtc_refl|].
    apply operand_snoc_old in Hop; [|done].
    eapply rtc_l; [exact Hop|]. apply IH. by apply (operand_live h x c).
  - intros Hr. revert Hx. induction Hr as [x|x c y Hop _ IH]; intros Hx; [apply rtc_refl|].
    eapply rtc_l; [by apply operand_snoc_old|]. apply IH. by apply (operand_live h x c).
Qed.

(** A pass from [c], seen from a node [t] that is used under no operand of
    [c] other than itself: the only increments to [t] are those the lambda
    of [c] makes. *)
Lemma backward_root_share (h : heap) (c t : ValuePtr) (nc : Value) :
  wf h -> h !! c = Some nc ->
  (forall x, x ∈ m_prev nc -> x <> t -> ~ reachable h x t) ->
  exists incs h1 tr' h',
    backward c h = Some ((c, incs) :: tr', h')
    /\ call_backward_fn (m_backward_fn nc) (alter (set_grad 1) c h) = Some (incs, h1)
    /\ contributions t ((c, incs) :: tr') = deltas t incs.
Proof.
  intros Hwf Hc Hprev.
  destruct (backward_pass c h nc Hwf Hc)
    as (rest & incs & h1 & tr' & h' & Hback & Hcall & Hfor & Hsk & Hnd & _ & Hreach).
  exists incs, h1, tr', h'. split; [done|]. split; [done|].
  rewrite contributions_cons.
  rewrite (for_each_contributions_nil _ _ _ _ t (skeleton_wf _ _ Hsk Hwf) Hfor).
  - apply app_nil_r.
  - intros x Hx Hop. apply (operand_skeleton _ _ _ _ Hsk) in Hop.
    destruct (rest_below h c rest x Hnd Hreach Hx) as (_ & c' & (nc' & Hnc' & Hc') & Hr).
    rewrite Hc in Hnc'. injection Hnc' as <-.
    destruct (decide (c' = t)) as [->|Hne].
    + pose proof (reachable_le _ _ _ Hwf Hr). pose proof (operand_lt _ _ _ Hwf Hop). lia.
    + apply (Hprev c' Hc' Hne). eapply rtc_r; [exact Hr|exact Hop].
Qed.

Lemma call_exp_Some (v : ValuePtr) (e : float) (out : ValuePtr) (h : heap)
    (incs : list (ValuePtr * float)) (h' : heap) :
  call_backward_fn (FnExp v e out) h = Some (incs, h') ->
  exists vo, h !! out = Some vo /\ incs = [(v, e * m_grad vo)].
Proof.
  intros Hcall. unfold call_backward_fn, bind, query, invoke, ret in Hcall.
  repeat case_match; simplify_eq. eexists. split; done.
Qed.

(** [backward] leaves alone what its root does not use: a node that is not
    reachable from the root has no lambda run, receives no increment and is
    the same object afterwards, gradient included. *)
Theorem backward_skips_unreachable (h : heap) (root n : ValuePtr) (v : Value) :
  built h -> live h root -> h !! n = Some v -> ~ reachable h root n ->
  exists tr h',
    backward root h = Some (tr, h')
    /\ n ∉ invoked tr /\ contributions n tr = [] /\ h' !! n = Some v.
Proof.
  intros Hbuilt Hroot Hn Hnr. pose proof (built_wf h Hbuilt) as Hwf.
  destruct (backward_total root h Hwf Hroot)
    as (rest & tr & h' & Hb & Hfor & Hinv & _ & _ & Hreach).
  assert (Hsk : skeleton (alter (set_grad 1) root h) = skeleton h)
    by (apply skeleton_alter; by intros []).
  assert (Hc : contributions n tr = []).
  { eapply for_each_contributions_nil; [|exact Hfor|].
    - by eapply skeleton_wf.
    - intros x Hx Hop. apply (operand_skeleton _ _ _ _ Hsk) in Hop.
      rewrite <- reverse_snoc in Hx. apply elem_of_reverse, Hreach in Hx.
      apply Hnr. eapply rtc_r; [exact Hx|exact Hop]. }
  exists tr, h'. split; [done|]. split; [|split; [done|]].
  - rewrite Hinv, <- reverse_snoc. intros Hx. by apply elem_of_reverse, Hreach in Hx.
  - rewrite (backward_grad _ _ _ _ _ _ Hb Hn), Hc, decide_False.
    + unfold accumulate. simpl. by rewrite set_grad_same.
    + intros ->. apply Hnr, rtc_refl.
Qed.

(** A pass from a node [c] whose lambda is that of [a * b]. *)
Lemma backward_product (h : heap) (a b c : ValuePtr) (va vb nc : Value) :
  wf h -> a <> b -> h !! a = Some va -> h !! b = Some vb -> h !! c = Some nc ->
  m_backward_fn nc = FnMul a b c ->
  (forall x, x ∈ m_prev nc -> x = a \/ x = b) ->
  exists tr h',
    backward c h = Some (tr, h')
    /\ (~ reachable h b a ->
        h' !! a = Some (set_grad (m_grad va + m_data vb * 1) va))
    /\ (~ reachable h a b ->
        h' !! b = Some (set_grad (m_grad vb + m_data va * 1) vb)).
Proof.
  intros Hwf Hab Ha Hb Hc Hfn Hprev.
  assert (Hlt : (a < c)%nat /\ (b < c)%nat).
  { destruct (Hwf c nc Hc) as (Hlt & Htg & _). rewrite Hfn in Htg.
    split; apply (proj1 (Forall_forall _ _) Hlt), Htg;
      [apply list_elem_of_here|apply list_elem_of_further, list_elem_of_here]. }
  destruct (backward_pass c h nc Hwf Hc)
    as (rest & incs & hA & tr' & h1 & Hback & Hcall & _).
  rewrite Hfn in Hcall.
  apply call_mul_Some in Hcall as (vl & vr & vo & Hvl & Hvr & Hvo & Hincs); [|lia].
  rewrite list_lookup_alter_ne, Ha in Hvl by lia. injection Hvl as <-.
  rewrite list_lookup_alter_ne, Hb in Hvr by lia. injection Hvr as <-.
  rewrite list_lookup_alter_eq, Hc in Hvo. injection Hvo as <-.
  change (m_grad (set_grad 1 nc)) with 1 in Hincs.
  exists ((c, incs) :: tr'), h1. split; [done|]. split.
  - intros Hnr.
    destruct (backward_root_share h c a nc Hwf Hc)
      as (incs' & hA' & tr'' & h1' & Hback' & _ & Hcontr).
    { intros x Hx Hne Hr. by destruct (Hprev x Hx) as [-> | ->]. }
    rewrite Hback in Hback'. injection Hback' as <- <- <-.
    rewrite (backward_grad _ _ _ _ _ _ Hback Ha), Hcontr, Hincs, decide_False by lia.
    rewrite !deltas_cons. simpl.
    rewrite (decide_True (P := a = a)), (decide_False (P := b = a)) by done. done.
  - intros Hnr.
    destruct (backward_root_share h c b nc Hwf Hc)
      as (incs' & hA' & tr'' & h1' & Hback' & _ & Hcontr).
    { intros x Hx Hne Hr. by destruct (Hprev x Hx) as [-> | ->]. }
    rewrite Hback in Hback'. injection Hback' as <- <- <-.
    rewrite (backward_grad _ _ _ _ _ _ Hback Hb), Hcontr, Hincs, decide_False by lia.
    rewrite !deltas_cons. simpl.
    rewrite (decide_True (P := b = b)), (decide_False (P := a = b)) by done. done.
Qed.

Lemma operand_alter (h : heap) (p : ValuePtr) (f : Value -> Value) (x c : ValuePtr) :
  (forall v, m_prev (f v) = m_prev v) ->
  operand (alter f p h) x c <-> operand h x c.
Proof.
  intros Hf. unfold operand. destruct (decide (p = x)) as [->|Hne].
  - rewrite list_lookup_alter_eq. destruct (h !! x) as [v|]; simpl.
    + split; intros (w & [= <-] & Hc); eexists; (split; [done|]).
      * by rewrite <- Hf.
      * by rewrite Hf.
    + split; by intros (w & [=] & _).
  - by rewrite list_lookup_alter_ne.
Qed.

Lemma reachable_alter (h : heap) (p : ValuePtr) (f : Value -> Value) (x y : ValuePtr) :
  (forall v, m_prev (f v) = m_prev v) ->
  reachable (alter f p h) x y <-> reachable h x y.
Proof.
  intros Hf. split; apply rtc_subrel; intros u w Hop; by apply (operand_alter h p f u w Hf).
Qed.

(** The product rule.  For two distinct nodes [a], [b] and [c = a * b]: the
    value of [c] is the product of the values, and a pass from [c] adds to
    the gradient of [a] the value of [b] (times the gradient 1.0 of [c]),
    provided [a] is not also used underneath [b]; likewise for [b].  For two
    leaves both provisos hold. *)
Theorem product_rule (h : heap) (a b : ValuePtr) (va vb : Value) :
  built h -> a <> b -> h !! a = Some va -> h !! b = Some vb ->
  exists c h0 nc tr h1,
    operator_mul a b h = Some (c, h0)
    /\ h0 !! c = Some nc /\ m_data nc = m_data va * m_data vb
    /\ backward c h0 = Some (tr, h1)
    /\ (~ reachable h b a ->
        h1 !! a = Some (set_grad (m_grad va + m_data vb * 1) va))
    /\ (~ reachable h a b ->
        h1 !! b = Some (set_grad (m_grad vb + m_data va * 1) vb)).
Proof.
  intros Hbuilt Hab Ha Hb. pose proof (built_wf h Hbuilt) as Hwf.
  pose proof (lookup_lt_Some _ _ _ Ha) as Hlta.
  pose proof (lookup_lt_Some _ _ _ Hb) as Hltb.
  set (c := length h).
  set (nc := mkValue (m_data va * m_data vb) 0 "" "*" (std_set [a; b]) (FnMul a b c)).
  assert (Hmul : operator_mul a b h = Some (c, h ++ [nc])).
  { rewrite operator_mul_eq, Ha, Hb. done. }
  assert (Hwf0 : wf (h ++ [nc])).
  { destruct (operator_mul_allocates a b h) as (out & l & Hm & _ & Hwf' & _); [done..|].
    rewrite Hmul in Hm. injection Hm as _ Hl. apply app_inv_head in Hl as <-. auto. }
  assert (Hc0 : (h ++ [nc]) !! c = Some nc) by apply lookup_snoc_new.
  assert (Ha0 : (h ++ [nc]) !! a = Some va) by by rewrite lookup_app_l.
  assert (Hb0 : (h ++ [nc]) !! b = Some vb) by by rewrite lookup_app_l.
  destruct (backward_product (h ++ [nc]) a b c va vb nc) as (tr & h1 & Hback & Hga & Hgb);
    try done.
  { intros x Hx. simpl in Hx. apply (proj2 (std_set_spec [a; b])) in Hx. set_solver. }
  exists c, (h ++ [nc]), nc, tr, h1.
  split; [done|]. split; [done|]. split; [done|]. split; [done|]. split.
  - intros Hnr. apply Hga. by rewrite reachable_snoc_old.
  - intros Hnr. apply Hgb. by rewrite reachable_snoc_old.
Qed.

(** The lambda of [a * b] reads the operand values when it runs, not when
    the product was formed.  After [c = a * b; a->set_data(d)] the value of
    [c] is still the product of the old values, while a pass from [c] adds
    the new value [d] of [a] to the gradient of [b]. *)
Theorem set_data_after_product (h : heap) (a b : ValuePtr) (va vb : Value) (d : float) :
  built h -> a <> b -> h !! a = Some va -> h !! b = Some vb -> ~ reachable h a b ->
  exists c h0 h1 nc tr h2,
    operator_mul a b h = Some (c, h0)
    /\ exec (CallSetData a d) h0 = Some (tt, h1)
    /\ h1 !! c = Some nc /\ m_data nc = m_data va * m_data vb
    /\ backward c h1 = Some (tr, h2)
    /\ h2 !! b = Some (set_grad (m_grad vb + d * 1) vb).
Proof.
  intros Hbuilt Hab Ha Hb Hnr. pose proof (built_wf h Hbuilt) as Hwf.
  pose proof (lookup_lt_Some _ _ _ Ha) as Hlta.
  pose proof (lookup_lt_Some _ _ _ Hb) as Hltb.
  set (c := length h).
  set (nc := mkValue (m_data va * m_data vb) 0 "" "*" (std_set [a; b]) (FnMul a b c)).
  assert (Hmul : operator_mul a b h = Some (c, h ++ [nc])).
  { rewrite operator_mul_eq, Ha, Hb. done. }
  assert (Hwf0 : wf (h ++ [nc])).
  { destruct (operator_mul_allocates a b h) as (out & l & Hm & _ & Hwf' & _); [done..|].
    rewrite Hmul in Hm. injection Hm as _ Hl. apply app_inv_head in Hl as <-. auto. }
  assert (Ha0 : (h ++ [nc]) !! a = Some va) by by rewrite lookup_app_l.
  set (h1 := alter (set_data d) a (h ++ [nc])).
  assert (Hwf1 : wf h1) by (apply wf_alter; [by intros []|done]).
  assert (Hc1 : h1 !! c = Some nc).
  { unfold h1. rewrite list_lookup_alter_ne by lia. apply lookup_snoc_new. }
  assert (Ha1 : h1 !! a = Some (set_data d va)).
  { unfold h1. by rewrite list_lookup_alter_eq, Ha0. }
  assert (Hb1 : h1 !! b = Some vb).
  { unfold h1. rewrite list_lookup_alter_ne by done. by rewrite lookup_app_l. }
  destruct (backward_product h1 a b c (set_data d va) vb nc)
    as (tr & h2 & Hback & _ & Hgb); try done.
  { intros x Hx. simpl in Hx. apply (proj2 (std_set_spec [a; b])) in Hx. set_solver. }
  exists c, (h ++ [nc]), h1, nc, tr, h2.
  split; [done|]. split.
  { simpl. apply invoke_Some. split; [by rewrite Ha0|done]. }
  split; [done|]. split; [done|]. split; [done|].
  apply Hgb. unfold h1. rewrite reachable_alter by (by intros []).
  by rewrite reachable_snoc_old.
Qed.

(** [e = exp(a)]: the value of [e] is [std::exp] of the value of [a], and a
    pass from [e] adds that same stored value (times the gradient 1.0 of
    [e]) to the gradient of [a], whatever node [a] is. *)
Theorem exp_gradient (h : heap) (a : ValuePtr) (va : Value) :
  built h -> h !! a = Some va ->
  exists e h0 ne tr h1,
    exp a h = Some (e, h0)
    /\ h0 !! e = Some ne /\ m_data ne = std_exp (m_data va)
    /\ backward e h0 = Some (tr, h1)
    /\ contributions a tr = [std_exp (m_data va) * 1]
    /\ h1 !! a = Some (set_grad (m_grad va + std_exp (m_data va) * 1) va).
Proof.
  intros Hbuilt Ha. pose proof (built_wf h Hbuilt) as Hwf.
  pose proof (lookup_lt_Some _ _ _ Ha) as Hlt.
  set (e := length h). set (y := std_exp (m_data va)).
  set (ne := mkValue y 0 "" "exp" (std_set [a]) (FnExp a y e)).
  assert (Hexp : exp a h = Some (e, h ++ [ne])).
  { rewrite exp_eq, Ha. done. }
  assert (Hwf0 : wf (h ++ [ne])).
  { destruct (exp_allocates a h) as (out & l & Hm & _ & Hwf' & _); [done..|].
    rewrite Hexp in Hm. injection Hm as _ Hl. apply app_inv_head in Hl as <-. auto. }
  assert (He0 : (h ++ [ne]) !! e = Some ne) by apply lookup_snoc_new.
  assert (Ha0 : (h ++ [ne]) !! a = Some va) by by rewrite lookup_app_l.
  assert (Hae : a <> e) by (unfold e; lia).
  destruct (backward_over_one_operand (h ++ [ne]) e a ne Hwf0 He0)
    as (incs & h1' & tr' & h1 & Hback & Hcall & Hcontr).
  { intros x Hx. simpl in Hx. rewrite std_set_single in Hx.
    by apply list_elem_of_singleton in Hx. }
  simpl in Hcall. apply call_exp_Some in Hcall as (vo & Hvo & ->).
  rewrite list_lookup_alter_eq, He0 in Hvo. injection Hvo as <-.
  change (m_grad (set_grad 1 ne)) with 1 in Hback, Hcontr.
  rewrite !deltas_cons, !decide_True in Hcontr by done. simpl in Hcontr.
  eexists e, (h ++ [ne]), ne, _, h1.
  split; [done|]. split; [done|]. split; [done|]. split; [exact Hback|].
  split; [done|].
  rewrite (backward_grad _ _ _ _ _ _ Hback Ha0), Hcontr, decide_False by done. done.
Qed.

(** [o = pow(b, e)]: the value of [o] is [std::pow] of the value of [b] and
    [e], and a pass from [o] adds [e * std::pow(b->data(), e - 1)] (times the
    gradient 1.0 of [o]) to the gradient of [b], whatever node [b] is. *)
Theorem pow_gradient (h : heap) (b : ValuePtr) (e : float) (vb : Value) :
  built h -> h !! b = Some vb ->
  exists o h0 no tr h1,
    pow b e h = Some (o, h0)
    /\ h0 !! o = Some no /\ m_data no = std_pow (m_data vb) e
    /\ backward o h0 = Some (tr, h1)
    /\ h1 !! b =
         Some (set_grad (m_grad vb + (e * std_pow (m_data vb) (e - 1)) * 1) vb).
Proof.
  intros Hbuilt Hb. exact (backward_pow h b e vb (built_wf h Hbuilt) Hb).
Qed.

(** ** Each lambda reads a gradient that is final *)

Lemma skeleton_node (h h' : heap) (p : ValuePtr) :
  skeleton h' = skeleton h -> set_grad 0 <$> h' !! p = set_grad 0 <$> h !! p.
Proof.
  intros Hsk. rewrite <- !list_lookup_fmap. unfold skeleton in Hsk. by rewrite Hsk.
Qed.

(** The increments a lambda makes are those the table gives for the heap it
    starts from, when it does not write to its own node. *)
Lemma call_local (f : backward_fn) (h : heap) (incs : list (ValuePtr * float))
    (h1 : heap) :
  call_backward_fn f h = Some (incs, h1) ->
  (forall o, source f = Some o -> o ∉ targets f) ->
  local_increments h f = Some incs.
Proof.
  intros Hcall Hsrc.
  destruct f as [|lhs rhs out|lhs rhs out|v t out|v e out|base exp_val out].
  - by apply ret_Some in Hcall as [-> _].
  - assert (Hne : out <> lhs).
    { intros ->. apply (Hsrc lhs eq_refl), list_elem_of_here. }
    apply call_add_Some in Hcall as (vo & Hvo & ->); [|done].
    simpl. by rewrite Hvo.
  - assert (Hne : out <> lhs).
    { intros ->. apply (Hsrc lhs eq_refl), list_elem_of_here. }
    apply call_mul_Some in Hcall as (vl & vr & vo & Hvl & Hvr & Hvo & ->); [|done].
    simpl. by rewrite Hvl, Hvr, Hvo.
  - apply call_tanh_Some in Hcall as (vo & Hvo & ->). simpl. by rewrite Hvo.
  - apply call_exp_Some in Hcall as (vo & Hvo & ->). simpl. by rewrite Hvo.
  - apply call_pow_Some in Hcall as (vb & vo & Hvb & Hvo & ->). simpl.
    by rewrite Hvb, Hvo.
Qed.

(** The table depends on the heap through the values, which a pass never
    changes, and through the gradient of the lambda's own node. *)
Lemma local_increments_ext (h h' : heap) (f : backward_fn) :
  skeleton h' = skeleton h ->
  (forall o, source f = Some o -> m_grad <$> h' !! o = m_grad <$> h !! o) ->
  local_increments h' f = local_increments h f.
Proof.
  intros Hsk Hg.
  assert (Hd : forall p, m_data <$> h' !! p = m_data <$> h !! p).
  { intros p. pose proof (skeleton_node h h' p Hsk) as Hp.
    destruct (h' !! p) as [[]|], (h !! p) as [[]|]; unfold set_grad in Hp; simpl in *;
      congruence. }
  assert (Hboth : forall p (k : float -> float -> list (ValuePtr * float)),
    m_grad <$> h' !! p = m_grad <$> h !! p ->
    (v ← h' !! p; Some (k (m_data v) (m_grad v)))
    = (v ← h !! p; Some (k (m_data v) (m_grad v)))).
  { intros p k Hgp. pose proof (Hd p) as Hdp.
    destruct (h' !! p) as [[]|], (h !! p) as [[]|]; simpl in *; congruence. }
  destruct f as [|lhs rhs out|lhs rhs out|v t out|v e out|base exp_val out]; simpl.
  - done.
  - apply (Hboth out (fun _ g => [(lhs, g); (rhs, g)])), Hg. done.
  - pose proof (Hd lhs) as Hl. pose proof (Hd rhs) as Hr.
    pose proof (Hg out eq_refl) as Ho. simpl in Ho.
    destruct (h' !! lhs) as [vl'|], (h !! lhs) as [vl|]; simpl in *; try congruence.
    destruct (h' !! rhs) as [vr'|], (h !! rhs) as [vr|]; simpl in *; try congruence.
    destruct (h' !! out) as [vo'|], (h !! out) as [vo|]; simpl in *; congruence.
  - apply (Hboth out (fun _ g => [(v, (1 - t * t) * g)])), Hg. done.
  - apply (Hboth out (fun _ g => [(v, e * g)])), Hg. done.
  - pose proof (Hd base) as Hb. pose proof (Hg out eq_refl) as Ho. simpl in Ho.
    destruct (h' !! base) as [vb'|], (h !! base) as [vb|]; simpl in *; try congruence.
    destruct (h' !! out) as [vo'|], (h !! out) as [vo|]; simpl in *; congruence.
Qed.

(** A run of the loop over a list in which no node comes before one that
    uses it: every record of the trace is what the table gives for the heap
    the loop ends with. *)
Lemma for_each_final (l : list ValuePtr) (h : heap) (tr : trace) (h' : heap) :
  wf h ->
  (forall i j x y, l !! i = Some x -> l !! j = Some y -> (i < j)%nat -> ~ operand h y x) ->
  for_each l h = Some (tr, h') ->
  Forall (fun r => exists vc, h' !! r.1 = Some vc
                     /\ local_increments h' (m_backward_fn vc) = Some r.2) tr.
Proof.
  revert h tr. induction l as [|v rest IH]; intros h tr Hwf Hord Hfor.
  - apply ret_Some in Hfor as [-> _]. constructor.
  - apply for_each_cons in Hfor as (node & incs & h1 & tr' & Hnode & Hcall & Hfor & ->).
    pose proof (call_backward_fn_effect _ _ _ _ Hcall) as [Hh1 Htg].
    assert (Hsk1 : skeleton h1 = skeleton h) by (rewrite Hh1; apply apply_incs_skeleton).
    assert (Hwf1 : wf h1) by by eapply skeleton_wf.
    assert (Hself : v ∉ targets (m_backward_fn node)).
    { intros Hin. destruct (Hwf v node Hnode) as (Hlt & Hsub & _).
      apply Hsub in Hin. apply (proj1 (Forall_forall _ _) Hlt) in Hin. lia. }
    assert (Hv1 : h1 !! v = Some node).
    { rewrite Hh1, apply_incs_lookup, Hnode. simpl.
      rewrite deltas_not_target by (by rewrite Htg).
      unfold accumulate. simpl. by rewrite set_grad_same. }
    pose proof (for_each_effect _ _ _ _ Hfor) as (_ & Hh' & _).
    assert (Hsk' : skeleton h' = skeleton h1) by (rewrite Hh'; apply apply_incs_skeleton).
    assert (Hnil : contributions v tr' = []).
    { eapply for_each_contributions_nil; [exact Hwf1|exact Hfor|].
      intros x Hx Hop. apply (operand_skeleton _ _ _ _ Hsk1) in Hop.
      apply list_elem_of_lookup in Hx as [j Hj].
      apply (Hord 0%nat (S j) v x); [done|done|lia|done]. }
    assert (Hv' : h' !! v = Some node).
    { rewrite Hh', apply_incs_lookup, Hv1. simpl. unfold contributions in Hnil.
      rewrite Hnil. unfold accumulate. simpl. by rewrite set_grad_same. }
    constructor.
    + exists node. split; [done|]. simpl.
      rewrite (local_increments_ext h h').
      * apply (call_local _ _ _ _ Hcall). intros o Ho.
        destruct (Hwf v node Hnode) as (_ & _ & Hsrc). by rewrite (Hsrc o Ho).
      * by rewrite Hsk'.
      * intros o Ho. destruct (Hwf v node Hnode) as (_ & _ & Hsrc).
        rewrite (Hsrc o Ho). by rewrite Hv', Hnode.
    + apply (IH h1 tr' Hwf1); [|done].
      intros i j x y Hi Hj Hij Hop. apply (operand_skeleton _ _ _ _ Hsk1) in Hop.
      apply (Hord (S i) (S j) x y); [done|done|lia|done].
Qed.

Lemma backward_final (h : heap) (root : ValuePtr) (tr : trace) (h' : heap) :
  wf h -> backward root h = Some (tr, h') ->
  Forall (fun r => exists vc, h' !! r.1 = Some vc
                     /\ local_increments h' (m_backward_fn vc) = Some r.2) tr.
Proof.
  intros Hwf Hb0.
  assert (Hroot : live h root).
  { apply backward_Some in Hb0 as (_ & _ & _ & Hr & _). by apply live_lookup. }
  destruct (backward_total root h Hwf Hroot)
    as (rest & tr0 & h0' & Hb & Hfor & _ & Hnd & Hfirst & _).
  rewrite Hb0 in Hb. injection Hb as <- <-.
  assert (Hsk : skeleton (alter (set_grad 1) root h) = skeleton h)
    by (apply skeleton_alter; by intros []).
  apply (for_each_final _ _ _ _ (skeleton_wf _ _ Hsk Hwf)) in Hfor; [done|].
  rewrite <- reverse_snoc. set (topo := rest ++ [root]) in *.
  intros i j x y Hi Hj Hij Hop. apply (operand_skeleton _ _ _ _ Hsk) in Hop.
  pose proof (lookup_lt_Some _ _ _ Hi) as Hli.
  pose proof (lookup_lt_Some _ _ _ Hj) as Hlj.
  rewrite length_reverse in Hli, Hlj.
  rewrite reverse_lookup in Hi, Hj by done.
  destruct (Hfirst _ _ _ Hj Hop) as (k & Hk & Hx).
  pose proof (NoDup_lookup _ _ _ _ Hnd Hi Hx). lia.
Qed.

(** The equations of backpropagation hold when [backward] returns.  Every
    lambda ran on the gradient its node ends the pass with: the increments
    it made are those the table gives for the final heap.  And the gradient
    a node ends with is the one it had (1.0 for the root) plus the increments
    made to it, in the order the lambdas ran. *)
Theorem backward_reads_final_gradients (h : heap) (root : ValuePtr) :
  built h -> live h root ->
  exists tr h',
    backward root h = Some (tr, h')
    /\ Forall (fun r => exists vc, h' !! r.1 = Some vc
                 /\ local_increments h' (m_backward_fn vc) = Some r.2) tr
    /\ (forall n v, h !! n = Some v ->
          exists v', h' !! n = Some v'
            /\ m_grad v' =
                 accumulate (if decide (n = root) then 1 else m_grad v)
                   (contributions n tr)).
Proof.
  intros Hbuilt Hroot. pose proof (built_wf h Hbuilt) as Hwf.
  destruct (backward_total root h Hwf Hroot) as (rest & tr & h' & Hb & _).
  exists tr, h'. split; [done|]. split.
  - by apply (backward_final h root).
  - intros n v Hn. rewrite (backward_grad _ _ _ _ _ _ Hb Hn). eexists. split; done.
Qed.

(** ** The gradient of the root before a pass *)

Lemma visit_each_ext {S : Type} (f g : ValuePtr -> S -> option S)
    (cs : list ValuePtr) (st : S) :
  (forall c s, f c s = g c s) -> visit_each f cs st = visit_each g cs st.
Proof.
  intros Hfg. revert st. induction cs as [|c cs IH]; intros st; [done|].
  rewrite !visit_each_cons, Hfg. destruct (g c st) as [st'|]; [apply IH|done].
Qed.

(** The traversal reads the operand sets and nothing else. *)
Lemma build_topo_skeleton (fuel : nat) (h h' : heap) (v : ValuePtr)
    (st : gset ValuePtr * list ValuePtr) :
  skeleton h' = skeleton h -> build_topo fuel h' v st = build_topo fuel h v st.
Proof.
  intros Hsk. revert v st. induction fuel as [|fuel IH]; intros v st; [done|].
  simpl. destruct (decide (v ∈ st.1)); [done|].
  pose proof (skeleton_node h h' v Hsk) as Hv.
  destruct (h' !! v) as [nv'|], (h !! v) as [nv|]; simpl in Hv; try done.
  apply (inj Some) in Hv. destruct (skeleton_fields _ _ Hv) as (_ & _ & _ & -> & _).
  by rewrite (visit_each_ext _ _ _ _ IH).
Qed.

(** [backward] overwrites the gradient of its root before anything reads
    it: a pass after [root->set_grad(g)] is the pass without it, lambda by
    lambda and in the final heap. *)
Theorem backward_ignores_root_gradient (h h1 : heap) (root : ValuePtr) (g : float) :
  exec (CallSetGrad root g) h = Some (tt, h1) ->
  backward root h1 = backward root h.
Proof.
  simpl. intros Hset. apply invoke_Some in Hset as [[v Hv] ->].
  assert (Hsk : skeleton (alter (set_grad g) root h) = skeleton h)
    by (apply skeleton_alter; by intros []).
  unfold backward. rewrite length_alter, (build_topo_skeleton _ _ _ _ _ Hsk).
  destruct (build_topo (S (length h)) h root (∅, [])) as [[vis topo]|]; [|done].
  unfold bind, invoke. rewrite list_lookup_alter_eq, Hv. simpl.
  assert (Heq : <[root := set_grad 1 (set_grad g v)]> (alter (set_grad g) root h)
                = <[root := set_grad 1 v]> h).
  { apply list_eq. intros i. destruct (decide (i = root)) as [->|Hne].
    - rewrite !list_lookup_insert_eq; [done|by eapply lookup_lt_Some|].
      rewrite length_alter. by eapply lookup_lt_Some.
    - by rewrite !list_lookup_insert_ne, list_lookup_alter_ne by done. }
  by rewrite Heq.
Qed.

Lemma contributions_not_targeted (t : ValuePtr) (tr : trace) :
  Forall (fun r => t ∉ r.2.*1) tr -> contributions t tr = [].
Proof.
  induction 1 as [|[v incs] tr Hr _ IH]; [done|].
  rewrite contributions_cons, IH, app_nil_r. by apply deltas_not_target.
Qed.

(** A node with one consumer among the nodes a pass visits receives the
    increments of that consumer's lambda and no others. *)
Lemma backward_single_consumer (h : heap) (root : ValuePtr) (tr : trace) (h' : heap)
    (t c : ValuePtr) :
  wf h -> backward root h = Some (tr, h') ->
  reachable h root c ->
  (forall x, reachable h root x -> operand h x t -> x = c) ->
  exists vc incs,
    h' !! c = Some vc /\ local_increments h' (m_backward_fn vc) = Some incs
    /\ contributions t tr = deltas t incs.
Proof.
  intros Hwf Hb0 Hc Hone.
  pose proof (backward_final h root tr h' Hwf Hb0) as Hfinal.
  assert (Hroot : live h root).
  { apply backward_Some in Hb0 as (_ & _ & _ & Hr & _). by apply live_lookup. }
  destruct (backward_total root h Hwf Hroot)
    as (rest & tr0 & h0' & Hb & Hfor & Hinv & Hnd & _ & Hreach).
  rewrite Hb0 in Hb. injection Hb as <- <-.
  assert (Hsk : skeleton (alter (set_grad 1) root h) = skeleton h)
    by (apply skeleton_alter; by intros []).
  pose proof (skeleton_wf _ _ Hsk Hwf) as Hwf1.
  apply for_each_effect in Hfor as (_ & _ & Htg).
  rewrite <- reverse_snoc in Hinv.
  assert (Hin : c ∈ invoked tr).
  { rewrite Hinv. by apply elem_of_reverse, Hreach. }
  assert (Hnd' : NoDup (invoked tr)).
  { rewrite Hinv. by rewrite reverse_Permutation. }
  assert (Hvis : forall x, x ∈ invoked tr -> reachable h root x).
  { intros x Hx. rewrite Hinv in Hx. by apply Hreach, elem_of_reverse. }
  unfold invoked in Hin. apply list_elem_of_fmap in Hin as ([c' incs] & Hc' & Hin).
  simpl in Hc'. subst c'.
  apply list_elem_of_split in Hin as (tr1 & tr2 & ->).
  unfold invoked in Hnd', Hvis. rewrite fmap_app, fmap_cons in Hnd', Hvis. simpl in Hnd', Hvis.
  apply NoDup_app in Hnd' as (_ & Hdisj & Hnd2). apply NoDup_cons in Hnd2 as [Hc2 _].
  apply Forall_app in Hfinal as [_ Hfinal]. apply Forall_cons in Hfinal as [Hhead _].
  destruct Hhead as (vc & Hvc & Hloc). simpl in Hvc, Hloc.
  apply Forall_app in Htg as [Htg1 Htg2]. apply Forall_cons in Htg2 as [_ Htg2].
  assert (Hquiet : forall trx,
    Forall (fun e => exists node, alter (set_grad 1) root h !! e.1 = Some node
                       /\ e.2.*1 = targets (m_backward_fn node)) trx ->
    (forall x, x ∈ trx.*1 -> x <> c /\ reachable h root x) ->
    contributions t trx = []).
  { intros trx Hall Hx. apply contributions_not_targeted.
    apply Forall_forall. intros [x incsx] Hxin.
    apply (proj1 (Forall_forall _ _) Hall) in Hxin as Hnode.
    destruct Hnode as (node & Hnode & Heq). simpl in Hnode, Heq |- *.
    rewrite Heq. intros Ht.
    destruct (Hx x) as [Hne Hr].
    { apply list_elem_of_fmap. by exists (x, incsx). }
    apply Hne, (Hone x Hr). apply (operand_skeleton _ _ _ _ Hsk).
    exists node. split; [done|]. by apply (Hwf1 x node Hnode). }
  exists vc, incs. split; [done|]. split; [done|].
  rewrite contributions_app, contributions_cons.
  rewrite (Hquiet tr1 Htg1), (Hquiet tr2 Htg2), app_nil_r; [done| |].
  - intros x Hx. split.
    + intros ->. done.
    + apply Hvis, elem_of_app. right. by apply list_elem_of_further.
  - intros x Hx. split.
    + intros ->. apply (Hdisj c Hx), list_elem_of_here.
    + apply Hvis, elem_of_app. by left.
Qed.

(** ** Subtraction *)

Lemma operand_app_old (h l : heap) (x c : ValuePtr) :
  (x < length h)%nat -> operand (h ++ l) x c <-> operand h x c.
Proof. intros Hx. unfold operand. by rewrite lookup_app_l. Qed.

Lemma reachable_app_old (h l : heap) (x y : ValuePtr) :
  wf h -> (x < length h)%nat -> reachable (h ++ l) x y <-> reachable h x y.
Proof.
  intros Hwf Hx. split.
  - intros Hr. revert Hx. induction Hr as [x|x c y Hop _ IH]; intros Hx; [apply rtc_refl|].
    apply operand_app_old in Hop; [|done].
    eapply rtc_l; [exact Hop|]. apply IH. by apply (operand_live h x c).
  - intros Hr. revert Hx. induction Hr as [x|x c y Hop _ IH]; intros Hx; [apply rtc_refl|].
    eapply rtc_l; [by apply operand_app_old|]. apply IH. by apply (operand_live h x c).
Qed.

Lemma std_set_pair (a b x : ValuePtr) : x ∈ std_set [a; b] <-> x = a \/ x = b.
Proof.
  rewrite (proj2 (std_set_spec [a; b]) x), elem_of_cons, list_elem_of_singleton. done.
Qed.

(** [c = a - b] is [a + b * (-1.0)], on three new objects: the constant,
    the product and the sum.  A pass from [c] adds 1.0 to the gradient of [a]
    and -1.0 to that of [b], provided neither is also used underneath the
    other. *)
Theorem subtraction_gradients (h : heap) (a b : ValuePtr) (va vb : Value) :
  built h -> a <> b -> h !! a = Some va -> h !! b = Some vb ->
  exists c h1 nc tr h2,
    operator_sub a b h = Some (c, h1)
    /\ length h1 = (length h + 3)%nat
    /\ h1 !! c = Some nc /\ m_data nc = m_data va + m_data vb * -1
    /\ backward c h1 = Some (tr, h2)
    /\ (~ reachable h b a -> h2 !! a = Some (set_grad (m_grad va + 1) va))
    /\ (~ reachable h a b -> h2 !! b = Some (set_grad (m_grad vb + -1) vb)).
Proof.
  intros Hbuilt Hab Ha Hb. pose proof (built_wf h Hbuilt) as Hwf.
  pose proof (lookup_lt_Some _ _ _ Ha) as Hlta.
  pose proof (lookup_lt_Some _ _ _ Hb) as Hltb.
  set (m := length h). set (n := S m). set (c := S n).
  set (nm := Value_leaf (-1) "").
  set (nn := mkValue (m_data vb * -1) 0 "" "*" (std_set [b; m]) (FnMul b m n)).
  set (nc := mkValue (m_data va + m_data vb * -1) 0 "" "+" (std_set [a; n]) (FnAdd a n c)).
  set (h1 := h ++ [nm; nn; nc]).
  assert (Hm1 : h1 !! m = Some nm).
  { unfold h1. by rewrite lookup_app_r, Nat.sub_diag by done. }
  assert (Hn1 : h1 !! n = Some nn).
  { unfold h1, n, m. rewrite lookup_app_r by lia.
    by replace (S (length h) - length h)%nat with 1%nat by lia. }
  assert (Hc1 : h1 !! c = Some nc).
  { unfold h1, c, n, m. rewrite lookup_app_r by lia.
    by replace (S (S (length h)) - length h)%nat with 2%nat by lia. }
  assert (Ha1 : h1 !! a = Some va) by (unfold h1; by rewrite lookup_app_l).
  assert (Hb1 : h1 !! b = Some vb) by (unfold h1; by rewrite lookup_app_l).
  assert (Hsub : operator_sub a b h = Some (c, h1)).
  { unfold operator_sub, operator_neg, operator_mul_double, bind.
    rewrite make_value_eq. fold m nm.
    assert (HbM : (h ++ [nm]) !! b = Some vb) by by rewrite lookup_app_l.
    assert (HmM : (h ++ [nm]) !! m = Some nm) by apply lookup_snoc_new.
    rewrite operator_mul_eq, HbM, HmM. simpl.
    replace (length (h ++ [nm])) with n by (rewrite length_app; simpl; unfold n, m; lia).
    fold nn.
    assert (HaN : ((h ++ [nm]) ++ [nn]) !! a = Some va).
    { rewrite <- app_assoc. by rewrite lookup_app_l. }
    assert (HnN : ((h ++ [nm]) ++ [nn]) !! n = Some nn).
    { replace n with (length (h ++ [nm])) by (rewrite length_app; simpl; unfold n, m; lia).
      apply lookup_snoc_new. }
    rewrite operator_add_eq, HaN, HnN. simpl.
    replace (length ((h ++ [nm]) ++ [nn])) with c
      by (rewrite !length_app; simpl; unfold c, n, m; lia).
    fold nc. unfold h1. by rewrite <- !app_assoc. }
  assert (Hwf1 : wf h1).
  { destruct (operator_sub_allocates a b h) as (out & l & Hm & _ & Hwf' & _); [done..|].
    rewrite Hsub in Hm. injection Hm as _ Hl. unfold h1 in Hl.
    apply app_inv_head in Hl as <-. auto. }
  assert (Hlive : live h1 c) by (by eapply lookup_lt_Some).
  destruct (backward_total c h1 Hwf1 Hlive) as (rest & tr & h2 & Hback & _).
  assert (Hopc : forall x, operand h1 c x -> x = a \/ x = n).
  { intros x (w & Hw & Hx). rewrite Hc1 in Hw. injection Hw as <-. by apply std_set_pair. }
  assert (Hopn : forall x, operand h1 n x -> x = b \/ x = m).
  { intros x (w & Hw & Hx). rewrite Hn1 in Hw. injection Hw as <-. by apply std_set_pair. }
  assert (Hold : forall r x, (r < m)%nat -> reachable h1 r x ->
            reachable h r x /\ (x < m)%nat).
  { intros r x Hr Hrx. apply reachable_app_old in Hrx; [|done..]. split; [done|].
    pose proof (reachable_le _ _ _ Hwf Hrx). unfold m in *. lia. }
  assert (Hvisit : forall x, reachable h1 c x ->
            x = c \/ x = n \/ x = m \/ reachable h a x \/ reachable h b x).
  { intros x Hr. apply reachable_inv in Hr as [->|(c' & Hc' & Hr)]; [by left|].
    apply Hopc in Hc' as [-> | ->].
    - do 3 right. left. by apply (Hold a x).
    - apply reachable_inv in Hr as [->|(c'' & Hc'' & Hr)]; [by right; left|].
      apply Hopn in Hc'' as [-> | ->].
      + do 4 right. by apply (Hold b x).
      + apply (leaf_reachable _ _ _ _ Hm1 eq_refl) in Hr as ->. by right; right; left. }
  assert (Hoperand_old : forall x t, reachable h a x \/ reachable h b x ->
            operand h1 x t -> operand h x t).
  { intros x t Hx Hop. apply operand_app_old in Hop; [done|].
    destruct Hx as [Hx|Hx]; pose proof (reachable_le _ _ _ Hwf Hx); unfold m in *; lia. }
  assert (Hrc : reachable h1 c c) by apply rtc_refl.
  assert (Hrn : reachable h1 c n).
  { eapply rtc_l; [|apply rtc_refl]. exists nc. split; [done|].
    apply std_set_pair. by right. }
  pose proof (backward_grad _ _ _ _ _ _ Hback Hc1) as Hc2.
  rewrite decide_True, (backward_root_untouched _ _ _ _ Hwf1 Hback) in Hc2 by done.
  change (accumulate 1 []) with 1 in Hc2.
  (* the gradient the product ends with *)
  destruct (backward_single_consumer h1 c tr h2 n c Hwf1 Hback Hrc)
    as (vc & incs & Hvc & Hloc & Hcn).
  { intros x Hx Hop. pose proof (operand_lt _ _ _ Hwf1 Hop).
    destruct (Hvisit x Hx) as [->|[->|[->|Hx']]]; [done|lia|unfold n in *; lia|].
    destruct Hx' as [Hx'|Hx']; pose proof (reachable_le _ _ _ Hwf Hx');
      unfold n, m in *; lia. }
  rewrite Hc2 in Hvc. injection Hvc as <-. simpl in Hloc. rewrite Hc2 in Hloc.
  simpl in Hloc. injection Hloc as <-.
  pose proof (backward_grad _ _ _ _ _ _ Hback Hn1) as Hn2.
  rewrite decide_False, Hcn in Hn2 by (unfold c; lia).
  rewrite !deltas_cons in Hn2. simpl in Hn2.
  rewrite (decide_False (P := a = n)), (decide_True (P := n = n)) in Hn2
    by (done || unfold n, m; lia).
  change (accumulate 0 ([] ++ [1] ++ deltas n [])) with (0 + 1) in Hn2.
  exists c, h1, nc, tr, h2.
  split; [done|]. split; [unfold h1; rewrite length_app; simpl; lia|].
  split; [done|]. split; [done|]. split; [done|]. split.
  - intros Hnr.
    destruct (backward_single_consumer h1 c tr h2 a c Hwf1 Hback Hrc)
      as (vc & incs & Hvc & Hloc & Hca).
    { intros x Hx Hop. pose proof (operand_lt _ _ _ Hwf1 Hop).
      destruct (Hvisit x Hx) as [->|[->|[->|Hx']]]; [done| | |].
      - apply Hopn in Hop as [-> | ->]; [done|unfold m in *; lia].
      - by apply (leaf_no_operand _ _ _ _ Hm1 eq_refl) in Hop.
      - apply Hoperand_old in Hop; [|done]. destruct Hx' as [Hx'|Hx'].
        + pose proof (reachable_le _ _ _ Hwf Hx'). pose proof (operand_lt _ _ _ Hwf Hop). lia.
        + exfalso. apply Hnr. eapply rtc_r; [exact Hx'|exact Hop]. }
    rewrite Hc2 in Hvc. injection Hvc as <-. simpl in Hloc. rewrite Hc2 in Hloc.
    simpl in Hloc. injection Hloc as <-.
    rewrite (backward_grad _ _ _ _ _ _ Hback Ha1), Hca, decide_False by (unfold c, n, m; lia).
    rewrite !deltas_cons. simpl.
    rewrite (decide_True (P := a = a)), (decide_False (P := n = a))
      by (done || unfold n, m; lia).
    done.
  - intros Hnr.
    destruct (backward_single_consumer h1 c tr h2 b n Hwf1 Hback Hrn)
      as (vn & incs & Hvn & Hloc & Hcb).
    { intros x Hx Hop. pose proof (operand_lt _ _ _ Hwf1 Hop).
      destruct (Hvisit x Hx) as [->|[->|[->|Hx']]]; [| done | |].
      - apply Hopc in Hop as [-> | ->]; [done|unfold n, m in *; lia].
      - by apply (leaf_no_operand _ _ _ _ Hm1 eq_refl) in Hop.
      - apply Hoperand_old in Hop; [|done]. destruct Hx' as [Hx'|Hx'].
        + exfalso. apply Hnr. eapply rtc_r; [exact Hx'|exact Hop].
        + pose proof (reachable_le _ _ _ Hwf Hx'). pose proof (operand_lt _ _ _ Hwf Hop). lia. }
    rewrite Hn2 in Hvn. injection Hvn as <-.
    pose proof (backward_grad _ _ _ _ _ _ Hback Hb1) as Hb2.
    pose proof (backward_grad _ _ _ _ _ _ Hback Hm1) as Hm2.
    change (m_backward_fn (set_grad (0 + 1) nn)) with (FnMul b m n) in Hloc.
    simpl in Hloc. rewrite Hb2, Hm2, Hn2 in Hloc. simpl in Hloc. injection Hloc as <-.
    rewrite Hb2, Hcb, decide_False by (unfold c, n, m; lia).
    rewrite !deltas_cons. simpl.
    rewrite (decide_True (P := b = b)), (decide_False (P := m = b)) by (done || unfold m; lia).
    done.
Qed.

(** ** Scalar multiples *)

(** Multiplying by a scalar [s], on either side, and unary negation, of any
    node [a]: the scalar becomes a fresh leaf, the value is the product, and
    a pass from the result adds [s] (times the gradient 1.0 of the result) to
    the gradient of [a]; for [-a] that is -1.0. *)
Theorem scalar_multiple_gradient (h : heap) (a : ValuePtr) (va : Value) (s : float) :
  built h -> h !! a = Some va ->
  (exists k h1 nk tr h2,
     operator_mul_double a s h = Some (k, h1)
     /\ h1 !! k = Some nk /\ m_data nk = m_data va * s
     /\ backward k h1 = Some (tr, h2)
     /\ h2 !! a = Some (set_grad (m_grad va + s * 1) va))
  /\ (exists k h1 nk tr h2,
        double_operator_mul s a h = Some (k, h1)
        /\ h1 !! k = Some nk /\ m_data nk = s * m_data va
        /\ backward k h1 = Some (tr, h2)
        /\ h2 !! a = Some (set_grad (m_grad va + s * 1) va))
  /\ (exists k h1 nk tr h2,
        operator_neg a h = Some (k, h1)
        /\ h1 !! k = Some nk /\ m_data nk = m_data va * -1
        /\ backward k h1 = Some (tr, h2)
        /\ h2 !! a = Some (set_grad (m_grad va + -1) va)).
Proof.
  intros Hbuilt Ha. pose proof (built_wf h Hbuilt) as Hwf.
  pose proof (lookup_lt_Some _ _ _ Ha) as Hlta.
  assert (Hright : forall s0, exists k h1 nk tr h2,
     operator_mul_double a s0 h = Some (k, h1)
     /\ h1 !! k = Some nk /\ m_data nk = m_data va * s0
     /\ backward k h1 = Some (tr, h2)
     /\ h2 !! a = Some (set_grad (m_grad va + s0 * 1) va)).
  { intros s0. set (r := length h). set (nr := Value_leaf s0 "").
    set (k := length (h ++ [nr])).
    set (nk := mkValue (m_data va * s0) 0 "" "*" (std_set [a; r]) (FnMul a r k)).
    assert (Hk : k = S r) by (unfold k, r; rewrite length_app; simpl; lia).
    assert (HaL : (h ++ [nr]) !! a = Some va) by by rewrite lookup_app_l.
    assert (HrL : (h ++ [nr]) !! r = Some nr) by apply lookup_snoc_new.
    assert (Hmul : operator_mul_double a s0 h = Some (k, (h ++ [nr]) ++ [nk])).
    { unfold operator_mul_double, bind. rewrite make_value_eq.
      change (operator_mul a r (h ++ [nr]) = Some (k, (h ++ [nr]) ++ [nk])).
      rewrite operator_mul_eq, HaL, HrL. done. }
    assert (Hwf1 : wf ((h ++ [nr]) ++ [nk])).
    { destruct (operator_mul_double_allocates a s0 h) as (o & l & Hm & _ & Hwf' & _); [done|].
      rewrite Hmul in Hm. injection Hm as _ Hl. rewrite <- app_assoc in Hl.
      apply app_inv_head in Hl as <-. rewrite <- app_assoc. auto. }
    assert (Ha1 : ((h ++ [nr]) ++ [nk]) !! a = Some va).
    { rewrite lookup_app_l; [done|]. by eapply lookup_lt_Some. }
    assert (Hr1 : ((h ++ [nr]) ++ [nk]) !! r = Some nr).
    { rewrite lookup_app_l; [done|]. by eapply lookup_lt_Some. }
    assert (Hk1 : ((h ++ [nr]) ++ [nk]) !! k = Some nk) by apply lookup_snoc_new.
    destruct (backward_product ((h ++ [nr]) ++ [nk]) a r k va nr nk)
      as (tr & h2 & Hback & Hga & _); try done.
    { unfold r. lia. }
    { intros x Hx. by apply std_set_pair. }
    exists k, ((h ++ [nr]) ++ [nk]), nk, tr, h2.
    split; [done|]. split; [done|]. split; [done|]. split; [done|].
    apply Hga. intros Hr.
    apply (leaf_reachable _ _ _ _ Hr1 eq_refl) in Hr. unfold r in Hr. lia. }
  split; [apply Hright|]. split.
  - set (r := length h). set (nr := Value_leaf s "").
    set (k := length (h ++ [nr])).
    set (nk := mkValue (s * m_data va) 0 "" "*" (std_set [r; a]) (FnMul r a k)).
    assert (Hk : k = S r) by (unfold k, r; rewrite length_app; simpl; lia).
    assert (HaL : (h ++ [nr]) !! a = Some va) by by rewrite lookup_app_l.
    assert (HrL : (h ++ [nr]) !! r = Some nr) by apply lookup_snoc_new.
    assert (Hmul : double_operator_mul s a h = Some (k, (h ++ [nr]) ++ [nk])).
    { unfold double_operator_mul, bind. rewrite make_value_eq.
      change (operator_mul r a (h ++ [nr]) = Some (k, (h ++ [nr]) ++ [nk])).
      rewrite operator_mul_eq, HaL, HrL. done. }
    assert (Hwf1 : wf ((h ++ [nr]) ++ [nk])).
    { destruct (double_operator_mul_allocates s a h) as (o & l & Hm & _ & Hwf' & _); [done|].
      rewrite Hmul in Hm. injection Hm as _ Hl. rewrite <- app_assoc in Hl.
      apply app_inv_head in Hl as <-. rewrite <- app_assoc. auto. }
    assert (Ha1 : ((h ++ [nr]) ++ [nk]) !! a = Some va).
    { rewrite lookup_app_l; [done|]. by eapply lookup_lt_Some. }
    assert (Hr1 : ((h ++ [nr]) ++ [nk]) !! r = Some nr).
    { rewrite lookup_app_l; [done|]. by eapply lookup_lt_Some. }
    assert (Hk1 : ((h ++ [nr]) ++ [nk]) !! k = Some nk) by apply lookup_snoc_new.
    destruct (backward_product ((h ++ [nr]) ++ [nk]) r a k nr va nk)
      as (tr & h2 & Hback & _ & Hga); try done.
    { unfold r. lia. }
    { intros x Hx. by apply std_set_pair. }
    exists k, ((h ++ [nr]) ++ [nk]), nk, tr, h2.
    split; [done|]. split; [done|]. split; [done|]. split; [done|].
    apply Hga. intros Hr.
    apply (leaf_reachable _ _ _ _ Hr1 eq_refl) in Hr. unfold r in Hr. lia.
  - apply (Hright (-1)).
Qed.

(** ** Division *)

(** [i = g / d] is [g * pow(d, -1.0)].  For two distinct leaves: the value of
    [i] is [g->data() * std::pow(d->data(), -1)]; a pass from [i] adds
    [std::pow(d->data(), -1)] (times 1.0) to the gradient of [g], and to the
    gradient of [d] it adds [-1 * std::pow(d->data(), -2)] times the
    gradient the reciprocal node received, [0 + g->data() * 1]. *)
Theorem division_gradients (h : heap) (g d : ValuePtr) (vg vd : Value) :
  built h -> g <> d -> h !! g = Some vg -> h !! d = Some vd ->
  is_leaf vg -> is_leaf vd ->
  exists i h1 ni tr h2,
    operator_div g d h = Some (i, h1)
    /\ h1 !! i = Some ni /\ m_data ni = m_data vg * std_pow (m_data vd) (-1)
    /\ backward i h1 = Some (tr, h2)
    /\ h2 !! g = Some (set_grad (m_grad vg + std_pow (m_data vd) (-1) * 1) vg)
    /\ h2 !! d =
         Some (set_grad
                 (m_grad vd + (-1 * std_pow (m_data vd) (-2)) * (0 + m_data vg * 1)) vd).
Proof.
  intros Hbuilt Hne Hg Hd Hlg Hld.
  exact (backward_div_leaves h g d vg vd (built_wf h Hbuilt) Hne Hg Hd Hlg Hld).
Qed.

(** ** What the operators allocate *)

Lemma appends_one (m : M ValuePtr) (h : heap) (v : Value) :
  m h = Some (length h, h ++ [v]) -> appends 1 m h.
Proof.
  intros Hm. exists (length h), [v]. split; [done|]. split; [done|].
  unfold live. rewrite length_app. simpl. lia.
Qed.

Lemma appends_bind (k1 k2 : nat) (m : M ValuePtr) (f : ValuePtr -> M ValuePtr) (h : heap) :
  appends k1 m h ->
  (forall out l, length l = k1 -> live (h ++ l) out -> appends k2 (f out) (h ++ l)) ->
  appends (k1 + k2) (x <- m ;; f x) h.
Proof.
  intros (out & l & Hm & Hl & Hout) Hf.
  destruct (Hf out l Hl Hout) as (out' & l' & Hf' & Hl' & Hout').
  exists out', (l ++ l'). unfold bind. rewrite Hm, Hf', app_assoc.
  split; [done|]. split; [|done]. rewrite length_app. lia.
Qed.

Lemma appends_make_value (d : float) (l : string) (h : heap) :
  appends 1 (make_value d l) h.
Proof. by eapply appends_one. Qed.

Lemma appends_make_value_op (d : float) (cs : list ValuePtr) (op l : string) (h : heap) :
  appends 1 (make_value_op d cs op l) h.
Proof. by eapply appends_one. Qed.

Lemma appends_add (lhs rhs : ValuePtr) (h : heap) :
  live h lhs -> live h rhs -> appends 1 (operator_add lhs rhs) h.
Proof.
  intros [vl Hl]%live_lookup [vr Hr]%live_lookup.
  eapply appends_one. rewrite operator_add_eq, Hl, Hr. done.
Qed.

Lemma appends_mul (lhs rhs : ValuePtr) (h : heap) :
  live h lhs -> live h rhs -> appends 1 (operator_mul lhs rhs) h.
Proof.
  intros [vl Hl]%live_lookup [vr Hr]%live_lookup.
  eapply appends_one. rewrite operator_mul_eq, Hl, Hr. done.
Qed.

Lemma appends_pow (base : ValuePtr) (e : float) (h : heap) :
  live h base -> appends 1 (pow base e) h.
Proof.
  intros [vb Hb]%live_lookup. eapply appends_one. rewrite pow_eq, Hb. done.
Qed.

Lemma appends_tanh (v : ValuePtr) (h : heap) : live h v -> appends 1 (tanh v) h.
Proof.
  intros [x Hx]%live_lookup. eapply appends_one. rewrite tanh_eq, Hx. done.
Qed.

Lemma appends_exp (v : ValuePtr) (h : heap) : live h v -> appends 1 (exp v) h.
Proof.
  intros [x Hx]%live_lookup. eapply appends_one. rewrite exp_eq, Hx. done.
Qed.

Lemma appends_neg (v : ValuePtr) (h : heap) : live h v -> appends 2 (operator_neg v) h.
Proof.
  intros Hv. apply (appends_bind 1 1); [apply appends_make_value|].
  intros out l _ Hout. apply appends_mul; [by apply live_app|done].
Qed.

Lemma appends_sub (lhs rhs : ValuePtr) (h : heap) :
  live h lhs -> live h rhs -> appends 3 (operator_sub lhs rhs) h.
Proof.
  intros Hl Hr. apply (appends_bind 2 1); [by apply appends_neg|].
  intros out l _ Hout. apply appends_add; [by apply live_app|done].
Qed.

Lemma appends_div (lhs rhs : ValuePtr) (h : heap) :
  live h lhs -> live h rhs -> appends 2 (operator_div lhs rhs) h.
Proof.
  intros Hl Hr. apply (appends_bind 1 1); [by apply appends_pow|].
  intros out l _ Hout. apply appends_mul; [by apply live_app|done].
Qed.

(** The operators and factories never touch an object that exists: a call
    appends to the heap a number of objects fixed by the operator (one for
    [+], [*], [pow], [tanh], [exp] and the factories, two for unary [-] and
    [/], three for binary [-], one more for each scalar operand) and leaves
    the old objects as they were; the mutators and [backward] allocate
    nothing.  This is for the calls whose body is in [value.cpp]. *)
Theorem calls_append (c : api_call) (h : heap) :
  built h -> Forall (live h) (call_args c) -> has_body c = true ->
  exists h',
    exec c h = Some (tt, h')
    /\ length h' = (length h + allocated c)%nat
    /\ (allocated c <> 0%nat -> exists l, h' = h ++ l).
Proof.
  intros Hbuilt Hargs Hbody. pose proof (built_wf h Hbuilt) as Hwf.
  assert (Happ : forall k m, appends k m h ->
    exists h', discard m h = Some (tt, h') /\ length h' = (length h + k)%nat
               /\ (k <> 0%nat -> exists l, h' = h ++ l)).
  { intros k m (out & l & Hm & Hl & _). exists (h ++ l). split.
    - apply discard_Some. eauto.
    - rewrite length_app, Hl. eauto. }
  assert (Hmut : forall p f, live h p ->
    exists h', invoke p f h = Some (tt, h') /\ length h' = (length h + 0)%nat
               /\ (0%nat <> 0%nat -> exists l, h' = h ++ l)).
  { intros p f Hp. exists (alter f p h). split.
    - apply invoke_Some. by rewrite <- live_lookup.
    - rewrite length_alter. split; [lia|done]. }
  destruct c; simpl in Hargs |- *; try discriminate Hbody;
    repeat match goal with
      | H : Forall _ (_ :: _) |- _ => apply Forall_cons in H as [? H]
      end;
    try (by apply Hmut).
  - apply Happ, appends_make_value.
  - apply Happ, appends_make_value_op.
  - destruct (backward_total p h Hwf) as (rest & tr & h' & Hb & _); [done|].
    exists h'. split; [apply discard_Some; eauto|].
    rewrite (skeleton_length _ _ (backward_skeleton _ _ _ _ Hb)). split; [lia|done].
  - by apply Happ, appends_add.
  - by apply Happ, appends_mul.
  - by apply Happ, appends_neg.
  - by apply Happ, appends_sub.
  - by apply Happ, appends_div.
  - apply Happ, (appends_bind 1 1); [apply appends_make_value|].
    intros out l _ Hout. apply appends_add; [by apply live_app|done].
  - apply Happ, (appends_bind 1 1); [apply appends_make_value|].
    intros out l _ Hout. apply appends_add; [done|by apply live_app].
  - apply Happ, (appends_bind 1 1); [apply appends_make_value|].
    intros out l _ Hout. apply appends_mul; [by apply live_app|done].
  - apply Happ, (appends_bind 1 1); [apply appends_make_value|].
    intros out l _ Hout. apply appends_mul; [done|by apply live_app].
  - apply Happ, (appends_bind 1 2); [apply appends_make_value|].
    intros out l _ Hout. apply appends_div; [by apply live_app|done].
  - by apply Happ, appends_tanh.
  - by apply Happ, appends_exp.
  - by apply Happ, appends_pow.
Qed.

(** * The network *)

(** ** Construction *)

Lemma push_weights_eq (n : nat) (w : list ValuePtr) (k : nat) (h : heap) :
  push_weights n w k h =
    Some ((w ++ seq (length h) n, (k + n)%nat),
          h ++ ((fun i => Value_leaf (random_uniform gen (k + i)) "") <$> seq 0 n)).
Proof.
  revert w k h. induction n as [|n IH]; intros w k h.
  - simpl. unfold ret. by rewrite !app_nil_r, Nat.add_0_r.
  - simpl push_weights. unfold bind. rewrite make_value_eq, IH.
    rewrite length_app. simpl length. rewrite Nat.add_1_r, <- !app_assoc.
    simpl. rewrite Nat.add_0_r, Nat.add_succ_r.
    do 3 f_equal. rewrite <- fmap_S_seq, <- list_fmap_compose. f_equal.
    apply list_fmap_ext. intros j i _. simpl. by rewrite Nat.add_succ_r.
Qed.

Lemma Neuron_ctor_eq (nin : Z) (k : nat) (h : heap) :
  Neuron_ctor nin k h =
    Some ((neuron_at (Z.to_nat nin) (length h), (k + Z.to_nat nin)%nat),
          h ++ neuron_leaves (Z.to_nat nin) k).
Proof.
  unfold Neuron_ctor, bind. rewrite push_weights_eq. cbn [fst snd app].
  rewrite make_value_eq. unfold ret, neuron_at, neuron_leaves.
  by rewrite length_app, length_fmap, length_seq, <- app_assoc.
Qed.

Lemma length_neuron_leaves (n k : nat) : length (neuron_leaves n k) = (n + 1)%nat.
Proof. unfold neuron_leaves. by rewrite length_app, length_fmap, length_seq. Qed.

Lemma length_layer_leaves (nout n k : nat) :
  length (layer_leaves nout n k) = (nout * (n + 1))%nat.
Proof.
  revert k. induction nout as [|nout IH]; intros k; [done|].
  simpl. by rewrite length_app, length_neuron_leaves, IH.
Qed.

Lemma emplace_neurons_eq (nout : nat) (nin : Z) (neurons : list Neuron) (k : nat)
    (h : heap) :
  emplace_neurons nout nin neurons k h =
    Some ((neurons ++ layer_neurons nout (Z.to_nat nin) (length h),
           (k + nout * Z.to_nat nin)%nat),
          h ++ layer_leaves nout (Z.to_nat nin) k).
Proof.
  revert neurons k h. induction nout as [|nout IH]; intros neurons k h.
  - simpl. unfold ret. by rewrite !app_nil_r, Nat.add_0_r.
  - simpl emplace_neurons. unfold bind. rewrite Neuron_ctor_eq. simpl fst. simpl snd.
    rewrite IH, length_app, length_neuron_leaves, <- !app_assoc. simpl.
    do 3 f_equal. lia.
Qed.

Lemma Layer_ctor_eq (nin nout : Z) (k : nat) (h : heap) :
  Layer_ctor nin nout k h =
    Some ((mkLayer (layer_neurons (Z.to_nat nout) (Z.to_nat nin) (length h)),
           (k + Z.to_nat nout * Z.to_nat nin)%nat),
          h ++ layer_leaves (Z.to_nat nout) (Z.to_nat nin) k).
Proof. unfold Layer_ctor, bind. by rewrite emplace_neurons_eq. Qed.

Lemma length_mlp_leaves (nin : Z) (nouts : list Z) (k : nat) :
  length (mlp_leaves nin nouts k) = parameter_count nin nouts.
Proof.
  revert nin k. induction nouts as [|nout nouts IH]; intros nin k; [done|].
  simpl. by rewrite length_app, length_layer_leaves, IH.
Qed.

Lemma emplace_layers_eq (nouts : list Z) (size : Z) (layers : list Layer) (k : nat)
    (h : heap) :
  emplace_layers nouts size layers k h =
    Some ((layers ++ mlp_layers size nouts (length h), (k + weight_count size nouts)%nat),
          h ++ mlp_leaves size nouts k).
Proof.
  revert size layers k h. induction nouts as [|nout nouts IH]; intros size layers k h.
  - simpl. unfold ret. by rewrite !app_nil_r, Nat.add_0_r.
  - simpl emplace_layers. unfold bind. rewrite Layer_ctor_eq. simpl fst. simpl snd.
    rewrite IH, length_app, length_layer_leaves, <- !app_assoc. simpl.
    do 3 f_equal. lia.
Qed.

Lemma MLP_ctor_eq (nin : Z) (nouts : list Z) (k : nat) (h : heap) :
  MLP_ctor nin nouts k h =
    Some ((mkMLP (mlp_layers nin nouts (length h)), (k + weight_count nin nouts)%nat),
          h ++ mlp_leaves nin nouts k).
Proof. unfold MLP_ctor, bind. by rewrite emplace_layers_eq. Qed.

(** ** [parameters()] *)

Lemma Neuron_parameters_at (n base : nat) :
  Neuron_parameters (neuron_at n base) = seq base (n + 1).
Proof. unfold Neuron_parameters, neuron_at. simpl. by rewrite seq_app. Qed.

Lemma fold_left_append {A B : Type} (f : A -> list B) (l : list A) (acc : list B) :
  fold_left (fun params x => params ++ f x) l acc = acc ++ concat (f <$> l).
Proof.
  revert acc. induction l as [|x l IH]; intros acc; simpl.
  - by rewrite app_nil_r.
  - by rewrite IH, app_assoc.
Qed.

Lemma Layer_parameters_concat (l : Layer) :
  Layer_parameters l = concat (Neuron_parameters <$> m_neurons l).
Proof. unfold Layer_parameters. by rewrite fold_left_append. Qed.

Lemma MLP_parameters_concat (m : MLP) :
  MLP_parameters m = concat (Layer_parameters <$> m_layers m).
Proof. unfold MLP_parameters. by rewrite fold_left_append. Qed.

Lemma layer_neurons_parameters (nout n base : nat) :
  concat (Neuron_parameters <$> layer_neurons nout n base) = seq base (nout * (n + 1)).
Proof.
  revert base. induction nout as [|nout IH]; intros base; [done|].
  simpl. by rewrite Neuron_parameters_at, IH, <- seq_app.
Qed.

Lemma mlp_layers_parameters (nin : Z) (nouts : list Z) (base : nat) :
  concat (Layer_parameters <$> mlp_layers nin nouts base)
  = seq base (parameter_count nin nouts).
Proof.
  revert nin base. induction nouts as [|nout nouts IH]; intros nin base; [done|].
  cbn [mlp_layers parameter_count]. rewrite fmap_cons, concat_cons, Layer_parameters_concat.
  cbn [m_neurons]. by rewrite layer_neurons_parameters, IH, <- seq_app.
Qed.

Lemma length_layer_neurons (nout n base : nat) :
  length (layer_neurons nout n base) = nout.
Proof. revert base. induction nout as [|nout IH]; intros base; simpl; [done|]. by rewrite IH. Qed.

Lemma length_mlp_layers (nin : Z) (nouts : list Z) (base : nat) :
  length (mlp_layers nin nouts base) = length nouts.
Proof.
  revert nin base. induction nouts as [|nout nouts IH]; intros nin base; simpl; [done|].
  by rewrite IH.
Qed.

Lemma neuron_leaves_fresh (n k : nat) :
  Forall (fun v => is_leaf v /\ m_grad v = 0 /\ m_label v = "") (neuron_leaves n k).
Proof.
  unfold neuron_leaves. apply Forall_app. split.
  - apply Forall_fmap, Forall_forall. intros i _. simpl. by repeat split.
  - by repeat constructor.
Qed.

Lemma layer_leaves_fresh (nout n k : nat) :
  Forall (fun v => is_leaf v /\ m_grad v = 0 /\ m_label v = "") (layer_leaves nout n k).
Proof.
  revert k. induction nout as [|nout IH]; intros k; [constructor|].
  simpl. apply Forall_app. split; [apply neuron_leaves_fresh|apply IH].
Qed.

Lemma mlp_leaves_fresh (nin : Z) (nouts : list Z) (k : nat) :
  Forall (fun v => is_leaf v /\ m_grad v = 0 /\ m_label v = "") (mlp_leaves nin nouts k).
Proof.
  revert nin k. induction nouts as [|nout nouts IH]; intros nin k; [constructor|].
  simpl. apply Forall_app. split; [apply layer_leaves_fresh|apply IH].
Qed.

Lemma layer_neurons_weights (nout n base : nat) :
  Forall (fun nr => length (m_w nr) = n) (layer_neurons nout n base).
Proof.
  revert base. induction nout as [|nout IH]; intros base; simpl.
  - constructor.
  - constructor; [simpl; by rewrite length_seq|apply IH].
Qed.

Lemma shaped_mlp_layers (nin : Z) (nouts : list Z) (base : nat) :
  shaped (Z.to_nat nin) (Z.to_nat <$> nouts) (mlp_layers nin nouts base).
Proof.
  revert nin base. induction nouts as [|nout nouts IH]; intros nin base; [done|].
  rewrite fmap_cons. cbn [mlp_layers shaped m_neurons].
  rewrite length_layer_neurons.
  split; [done|]. split; [apply layer_neurons_weights|apply IH].
Qed.

Lemma output_size_mlp_layers (nin : Z) (nouts : list Z) (base d : nat) :
  output_size d (mlp_layers nin nouts base) = from_option Z.to_nat d (last nouts).
Proof.
  unfold output_size. revert nin base.
  induction nouts as [|nout nouts IH]; intros nin base; [done|].
  cbn [mlp_layers]. destruct nouts as [|nout' nouts].
  - simpl. apply length_layer_neurons.
  - cbn [mlp_layers]. rewrite !last_cons_cons. apply (IH nout).
Qed.

(** [Neuron(nin)] appends to the heap one unlabeled leaf per weight, holding
    the next values of the generator in order, and then a leaf of value 0
    for the bias; it touches no object that exists.  [parameters()] lists
    these [nin + 1] pointers in allocation order, the bias last.  For
    [nin <= 0] the neuron has no weight and one parameter, the bias. *)
Theorem neuron_construction (nin : Z) (k : nat) (h : heap) :
  exists n : Neuron,
    Neuron_ctor nin k h =
      Some ((n, (k + Z.to_nat nin)%nat), h ++ neuron_leaves (Z.to_nat nin) k)
    /\ m_w n = seq (length h) (Z.to_nat nin)
    /\ m_b n = (length h + Z.to_nat nin)%nat
    /\ Neuron_parameters n = seq (length h) (Z.to_nat nin + 1)
    /\ length (Neuron_parameters n) = (Z.to_nat nin + 1)%nat
    /\ (h ++ neuron_leaves (Z.to_nat nin) k) !! m_b n = Some (Value_leaf 0 "")
    /\ (forall i, (i < Z.to_nat nin)%nat ->
          (h ++ neuron_leaves (Z.to_nat nin) k) !! (length h + i)%nat
          = Some (Value_leaf (random_uniform gen (k + i)) "")).
Proof.
  exists (neuron_at (Z.to_nat nin) (length h)).
  split; [apply Neuron_ctor_eq|]. split; [done|]. split; [done|].
  split; [apply Neuron_parameters_at|]. split.
  { by rewrite Neuron_parameters_at, length_seq. }
  unfold neuron_leaves. split.
  - simpl. rewrite lookup_app_r by lia.
    replace (length h + Z.to_nat nin - length h)%nat with (Z.to_nat nin) by lia.
    rewrite lookup_app_r by (by rewrite length_fmap, length_seq).
    by rewrite length_fmap, length_seq, Nat.sub_diag.
  - intros i Hi. rewrite lookup_app_r by lia.
    replace (length h + i - length h)%nat with i by lia.
    rewrite lookup_app_l by (by rewrite length_fmap, length_seq).
    by rewrite list_lookup_fmap, lookup_seq_lt.
Qed.

(** [Layer(nin, nout)] builds [nout] neurons of [nin] weights each, on
    [nout * (nin + 1)] fresh unlabeled leaves of gradient 0 appended to the
    heap, and draws [nout * nin] values from the generator.  [parameters()]
    lists exactly the new pointers, in allocation order, each once. *)
Theorem layer_construction (nin nout : Z) (k : nat) (h : heap) :
  exists (l : Layer) (new : heap),
    Layer_ctor nin nout k h =
      Some ((l, (k + Z.to_nat nout * Z.to_nat nin)%nat), h ++ new)
    /\ length (m_neurons l) = Z.to_nat nout
    /\ Forall (fun n => length (m_w n) = Z.to_nat nin) (m_neurons l)
    /\ length new = (Z.to_nat nout * (Z.to_nat nin + 1))%nat
    /\ Forall (fun v => is_leaf v /\ m_grad v = 0 /\ m_label v = "") new
    /\ Layer_parameters l = seq (length h) (Z.to_nat nout * (Z.to_nat nin + 1))
    /\ length (Layer_parameters l) = (Z.to_nat nout * (Z.to_nat nin + 1))%nat
    /\ NoDup (Layer_parameters l).
Proof.
  exists (mkLayer (layer_neurons (Z.to_nat nout) (Z.to_nat nin) (length h))),
    (layer_leaves (Z.to_nat nout) (Z.to_nat nin) k).
  split; [apply Layer_ctor_eq|]. split; [apply length_layer_neurons|]. split.
  { simpl. generalize (length h). induction (Z.to_nat nout) as [|m IH]; intros base.
    - constructor.
    - simpl. constructor; [simpl; by rewrite length_seq|apply IH]. }
  split; [apply length_layer_leaves|]. split; [apply layer_leaves_fresh|].
  rewrite Layer_parameters_concat. simpl. rewrite layer_neurons_parameters.
  split; [done|]. split; [by rewrite length_seq|apply NoDup_seq].
Qed.

(** [MLP(nin, nouts)] builds one layer per entry of [nouts]; layer [i] has
    [nouts[i]] neurons ([shaped], first part), each with exactly as many
    weights as the layer before it has neurons, [nin] for the first
    ([shaped], second part).  All parameters are fresh unlabeled
    leaves of gradient 0 appended to the heap, [parameters()] lists exactly
    these pointers, each once, and their number is the sum over the layers
    of [nout * (size + 1)].  With [nouts] empty the network has no layer and
    no parameter, and the heap is unchanged. *)
Theorem mlp_construction (nin : Z) (nouts : list Z) (k : nat) (h : heap) :
  exists (m : MLP) (new : heap),
    MLP_ctor nin nouts k h = Some ((m, (k + weight_count nin nouts)%nat), h ++ new)
    /\ length (m_layers m) = length nouts
    /\ shaped (Z.to_nat nin) (Z.to_nat <$> nouts) (m_layers m)
    /\ chained (Z.to_nat nin) (m_layers m)
    /\ (forall d, output_size d (m_layers m) = from_option Z.to_nat d (last nouts))
    /\ length new = parameter_count nin nouts
    /\ Forall (fun v => is_leaf v /\ m_grad v = 0 /\ m_label v = "") new
    /\ MLP_parameters m = seq (length h) (parameter_count nin nouts)
    /\ length (MLP_parameters m) = parameter_count nin nouts
    /\ NoDup (MLP_parameters m).
Proof.
  exists (mkMLP (mlp_layers nin nouts (length h))), (mlp_leaves nin nouts k).
  split; [apply MLP_ctor_eq|]. split; [apply length_mlp_layers|]. split.
  { simpl. apply shaped_mlp_layers. }
  split.
  { simpl. generalize (length h). revert nin.
    induction nouts as [|nout nouts IH]; intros nin base; [done|].
    simpl. split.
    - generalize base. induction (Z.to_nat nout) as [|j IHj]; intros b; simpl.
      + constructor.
      + constructor; [simpl; by rewrite length_seq|apply IHj].
    - rewrite length_layer_neurons. apply IH. }
  split; [intros d; apply output_size_mlp_layers|].
  split; [apply length_mlp_leaves|]. split; [apply mlp_leaves_fresh|].
  rewrite MLP_parameters_concat. simpl. rewrite mlp_layers_parameters.
  split; [done|]. split; [by rewrite length_seq|apply NoDup_seq].
Qed.

(** ** The forward pass *)

Lemma value_at_app (h l : heap) (p : ValuePtr) :
  live h p -> value_at (h ++ l) p = value_at h p.
Proof. intros Hp. unfold value_at. by rewrite lookup_app_l. Qed.

Lemma values_app (h l : heap) (ps : list ValuePtr) :
  Forall (live h) ps -> value_at (h ++ l) <$> ps = value_at h <$> ps.
Proof.
  intros Hps. apply list_fmap_ext. intros i p Hp.
  apply value_at_app. by apply (proj1 (Forall_forall _ _) Hps), list_elem_of_lookup_2 with i.
Qed.

Lemma Forall_live_app (h l : heap) (ps : list ValuePtr) :
  Forall (live h) ps -> Forall (live (h ++ l)) ps.
Proof. intros Hps. eapply Forall_impl; [exact Hps|]. intros p. apply live_app. Qed.

Lemma weigh_inputs_spec (ws x : list ValuePtr) (i : nat) (act : ValuePtr) (h : heap) :
  Forall (live h) ws -> Forall (live h) x -> live h act ->
  (i + length ws <= length x)%nat ->
  exists out l,
    weigh_inputs ws x i act h = Some (out, h ++ l)
    /\ length l = (2 * length ws)%nat
    /\ live (h ++ l) out
    /\ value_at (h ++ l) out
       = weighted_sum (value_at h <$> ws) (value_at h <$> drop i x) (value_at h act).
Proof.
  revert i act h. induction ws as [|wi ws IH]; intros i act h Hws Hx Hact Hlen.
  - exists act, []. rewrite app_nil_r. by repeat split.
  - apply Forall_cons in Hws as [Hwi Hws]. simpl in Hlen.
    destruct (lookup_lt_is_Some_2 x i) as [xi Hxi]; [lia|].
    assert (Hxil : live h xi).
    { apply (proj1 (Forall_forall _ _) Hx). by apply list_elem_of_lookup_2 with i. }
    destruct (proj1 (live_lookup h wi) Hwi) as [vw Hvw].
    destruct (proj1 (live_lookup h xi) Hxil) as [vx Hvx].
    destruct (proj1 (live_lookup h act) Hact) as [va Hva].
    set (p := length h).
    set (np := mkValue (m_data vw * m_data vx) 0 "" "*" (std_set [wi; xi]) (FnMul wi xi p)).
    set (s := length (h ++ [np])).
    set (ns := mkValue (m_data va + m_data np) 0 "" "+" (std_set [act; p]) (FnAdd act p s)).
    assert (Hmul : operator_mul wi xi h = Some (p, h ++ [np])).
    { rewrite operator_mul_eq, Hvw, Hvx. done. }
    assert (Hadd : operator_add act p (h ++ [np]) = Some (s, (h ++ [np]) ++ [ns])).
    { rewrite operator_add_eq, (lookup_app_l h [np] act Hact), Hva.
      unfold p. rewrite lookup_snoc_new. done. }
    destruct (IH (S i) s ((h ++ [np]) ++ [ns])) as (out & l & Hrec & Hl & Hout & Hval).
    { rewrite <- app_assoc. by apply Forall_live_app. }
    { rewrite <- app_assoc. by apply Forall_live_app. }
    { unfold live, s. rewrite !length_app. simpl. lia. }
    { lia. }
    exists out, ([np; ns] ++ l).
    assert (Heq : h ++ [np; ns] ++ l = ((h ++ [np]) ++ [ns]) ++ l).
    { by rewrite <- !app_assoc. }
    rewrite Heq. split.
    { simpl. rewrite Hxi. unfold bind. by rewrite Hmul, Hadd. }
    split; [rewrite length_app, Hl; simpl; lia|]. split; [done|].
    rewrite Hval. rewrite <- (app_assoc h [np] [ns]).
    rewrite (values_app h _ ws Hws), (values_app h _ (drop (S i) x)) by (by apply Forall_drop).
    rewrite (drop_S x xi i Hxi), !fmap_cons. cbn [weighted_sum].
    f_equal. unfold value_at at 1.
    rewrite (app_assoc h [np] [ns]). unfold s. rewrite lookup_snoc_new. simpl.
    unfold value_at. by rewrite Hva, Hvw, Hvx.
Qed.

Lemma weigh_inputs_short (ws x : list ValuePtr) (i : nat) (act : ValuePtr) (h : heap) :
  (i <= length x)%nat -> (length x < i + length ws)%nat ->
  weigh_inputs ws x i act h = None.
Proof.
  revert i act h. induction ws as [|wi ws IH]; intros i act h Hi Hlen.
  - simpl in Hlen. lia.
  - simpl. destruct (x !! i) as [xi|] eqn:Hxi; [|done].
    apply lookup_lt_Some in Hxi. unfold bind.
    destruct (operator_mul wi xi h) as [[p h1]|]; [|done].
    destruct (operator_add act p h1) as [[s h2]|]; [|done].
    apply IH; simpl in Hlen; lia.
Qed.

Lemma Neuron_call_spec (n : Neuron) (x : list ValuePtr) (h : heap) :
  Forall (live h) (Neuron_parameters n) -> Forall (live h) x ->
  (length (m_w n) <= length x)%nat ->
  exists out l,
    Neuron_call n x h = Some (out, h ++ l)
    /\ length l = (2 * length (m_w n) + 1)%nat
    /\ out = (length h + 2 * length (m_w n))%nat
    /\ value_at (h ++ l) out = neuron_value h n x.
Proof.
  intros Hps Hx Hlen. unfold Neuron_parameters in Hps.
  apply Forall_app in Hps as [Hw Hb]. rewrite Forall_singleton in Hb.
  destruct (weigh_inputs_spec (m_w n) x 0 (m_b n) h Hw Hx Hb)
    as (act & l & Hrec & Hl & Hact & Hval); [simpl; lia|].
  destruct (proj1 (live_lookup _ _) Hact) as [va Hva].
  set (t := std_tanh (m_data va)).
  set (nt := mkValue t 0 "" "tanh" (std_set [act]) (FnTanh act t (length (h ++ l)))).
  exists (length (h ++ l)), (l ++ [nt]).
  rewrite app_assoc. split.
  { unfold Neuron_call, bind. rewrite Hrec, tanh_eq, Hva. done. }
  split; [rewrite length_app, Hl; simpl; lia|].
  split; [rewrite length_app, Hl; lia|].
  unfold value_at at 1. rewrite lookup_snoc_new. simpl.
  unfold neuron_value. rewrite drop_0 in Hval. rewrite <- Hval.
  unfold t, value_at. by rewrite Hva.
Qed.

(** The forward pass of a neuron whose parameters are live, on live inputs,
    at least as many as the neuron has weights.  It returns a new node whose
    value is [std::tanh] of the bias plus the products [w[i] * x[i]], added
    left to right in binary64; inputs beyond the last weight are ignored.  It
    appends two nodes per weight (a product and a sum) and the output, and
    changes no object that exists. *)
Theorem neuron_forward (n : Neuron) (x : list ValuePtr) (h : heap) :
  Forall (live h) (Neuron_parameters n) -> Forall (live h) x ->
  (length (m_w n) <= length x)%nat ->
  exists out l,
    Neuron_call n x h = Some (out, h ++ l)
    /\ length l = (2 * length (m_w n) + 1)%nat
    /\ out = (length h + 2 * length (m_w n))%nat
    /\ value_at (h ++ l) out = neuron_value h n x.
Proof. apply Neuron_call_spec. Qed.

(** A neuron called with fewer inputs than it has weights reads [x[i]] past
    the end of [x]: the call has no defined result. *)
Theorem neuron_forward_short_input (n : Neuron) (x : list ValuePtr) (h : heap) :
  (length x < length (m_w n))%nat -> Neuron_call n x h = None.
Proof.
  intros Hlen. unfold Neuron_call, bind.
  rewrite weigh_inputs_short; [done|lia|simpl; lia].
Qed.

Lemma neuron_value_app (h l : heap) (n : Neuron) (x : list ValuePtr) :
  Forall (live h) (Neuron_parameters n) -> Forall (live h) x ->
  neuron_value (h ++ l) n x = neuron_value h n x.
Proof.
  intros Hps Hx. unfold Neuron_parameters in Hps.
  apply Forall_app in Hps as [Hw Hb]. rewrite Forall_singleton in Hb.
  unfold neuron_value. by rewrite !values_app, value_at_app.
Qed.

Lemma push_outputs_spec (neurons : list Neuron) (x outs : list ValuePtr) (h : heap) :
  Forall (fun n => Forall (live h) (Neuron_parameters n)
                   /\ (length (m_w n) <= length x)%nat) neurons ->
  Forall (live h) x ->
  exists new l,
    push_outputs neurons x outs h = Some (outs ++ new, h ++ l)
    /\ length new = length neurons
    /\ Forall (live (h ++ l)) new
    /\ Forall2 (fun n o => value_at (h ++ l) o = neuron_value h n x) neurons new.
Proof.
  revert outs h. induction neurons as [|n neurons IH]; intros outs h Hns Hx.
  - exists [], []. rewrite !app_nil_r. by repeat split.
  - apply Forall_cons in Hns as [[Hps Hlen] Hns].
    destruct (Neuron_call_spec n x h Hps Hx Hlen) as (o & l1 & Hcall & Hl1 & Ho & Hval).
    assert (Hlive : live (h ++ l1) o).
    { unfold live. rewrite length_app. lia. }
    destruct (IH (outs ++ [o]) (h ++ l1)) as (new & l2 & Hrec & Hnew & Hnl & Hvals).
    { eapply Forall_impl; [exact Hns|]. intros n' [Hps' Hlen']. split; [|done].
      by apply Forall_live_app. }
    { by apply Forall_live_app. }
    exists (o :: new), (l1 ++ l2). rewrite app_assoc. split.
    { simpl. unfold bind. rewrite Hcall, Hrec. by rewrite <- app_assoc. }
    split; [simpl; by rewrite Hnew|]. split.
    { constructor; [by apply live_app|done]. }
    constructor.
    + by rewrite value_at_app.
    + apply Forall2_same_length_lookup. split; [by rewrite Hnew|].
      intros i n' o' Hn' Ho'.
      rewrite (Forall2_lookup_lr _ _ _ _ _ _ Hvals Hn' Ho').
      apply neuron_value_app; [|done].
      by apply (proj1 (Forall_lookup _ _) Hns i n' Hn').
Qed.

Lemma Layer_parameters_live (h : heap) (l : Layer) :
  Forall (live h) (Layer_parameters l) ->
  Forall (fun n => Forall (live h) (Neuron_parameters n)) (m_neurons l).
Proof.
  rewrite Layer_parameters_concat, Forall_concat, Forall_fmap. done.
Qed.

Lemma MLP_parameters_live (h : heap) (m : MLP) :
  Forall (live h) (MLP_parameters m) ->
  Forall (fun l => Forall (live h) (Layer_parameters l)) (m_layers m).
Proof.
  rewrite MLP_parameters_concat, Forall_concat, Forall_fmap. done.
Qed.

Lemma Layer_call_spec (l : Layer) (x : list ValuePtr) (h : heap) :
  Forall (live h) (Layer_parameters l) -> Forall (live h) x ->
  Forall (fun n => (length (m_w n) <= length x)%nat) (m_neurons l) ->
  exists outs new,
    Layer_call l x h = Some (outs, h ++ new)
    /\ length outs = length (m_neurons l)
    /\ Forall (live (h ++ new)) outs
    /\ Forall2 (fun n o => value_at (h ++ new) o = neuron_value h n x) (m_neurons l) outs.
Proof.
  intros Hps Hx Hlen. apply Layer_parameters_live in Hps.
  destruct (push_outputs_spec (m_neurons l) x [] h) as (outs & new & Hcall & Hrest);
    [|done|].
  - apply Forall_forall. intros n Hn. split.
    + by apply (proj1 (Forall_forall _ _) Hps).
    + by apply (proj1 (Forall_forall _ _) Hlen).
  - by exists outs, new.
Qed.


Lemma output_size_cons (d : nat) (l : Layer) (layers : list Layer) :
  output_size d (l :: layers) = output_size (length (m_neurons l)) layers.
Proof.
  unfold output_size. destruct layers as [|l' layers]; [done|].
  rewrite last_cons_cons. destruct (last (l' :: layers)) as [l0|] eqn:Hlast; [done|].
  by apply last_None in Hlast.
Qed.

(** *** The values a network returns *)

Lemma neuron_value_output (h : heap) (n : Neuron) (x : list ValuePtr) :
  neuron_value h n x = neuron_output h n (value_at h <$> x).
Proof. reflexivity. Qed.

Lemma neuron_output_app (h l : heap) (n : Neuron) (xs : list float) :
  Forall (live h) (Neuron_parameters n) ->
  neuron_output (h ++ l) n xs = neuron_output h n xs.
Proof.
  intros Hps. unfold Neuron_parameters in Hps.
  apply Forall_app in Hps as [Hw Hb]. rewrite Forall_singleton in Hb.
  unfold neuron_output. by rewrite (values_app h l (m_w n) Hw), (value_at_app h l (m_b n) Hb).
Qed.

Lemma layer_output_app (h l : heap) (ly : Layer) (xs : list float) :
  Forall (live h) (Layer_parameters ly) ->
  layer_output (h ++ l) ly xs = layer_output h ly xs.
Proof.
  intros Hps. apply Layer_parameters_live in Hps. unfold layer_output.
  apply list_fmap_ext. intros i n Hn. apply neuron_output_app.
  by apply (proj1 (Forall_lookup _ _) Hps i n Hn).
Qed.

Lemma mlp_output_app (h l : heap) (layers : list Layer) (xs : list float) :
  Forall (fun ly => Forall (live h) (Layer_parameters ly)) layers ->
  mlp_output (h ++ l) layers xs = mlp_output h layers xs.
Proof.
  revert xs. induction layers as [|ly layers IH]; intros xs Hps; [done|].
  apply Forall_cons in Hps as [Hly Hps]. unfold mlp_output in *. simpl.
  rewrite (layer_output_app h l ly xs Hly). by apply IH.
Qed.

(** The outputs of a layer are new nodes, and the pass allocates the nodes
    of each neuron in turn. *)
Lemma push_outputs_new (neurons : list Neuron) (x outs : list ValuePtr) (h : heap) :
  Forall (fun n => Forall (live h) (Neuron_parameters n)
                   /\ (length (m_w n) <= length x)%nat) neurons ->
  Forall (live h) x ->
  exists new l,
    push_outputs neurons x outs h = Some (outs ++ new, h ++ l)
    /\ Forall (fun o => (length h <= o)%nat) new
    /\ length l = sum_list (neuron_nodes <$> neurons).
Proof.
  revert outs h. induction neurons as [|n neurons IH]; intros outs h Hns Hx.
  - exists [], []. rewrite !app_nil_r. by repeat split.
  - apply Forall_cons in Hns as [[Hps Hlen] Hns].
    destruct (Neuron_call_spec n x h Hps Hx Hlen) as (o & l1 & Hcall & Hl1 & Ho & _).
    destruct (IH (outs ++ [o]) (h ++ l1)) as (new & l2 & Hrec & Hnew & Hl2).
    { eapply Forall_impl; [exact Hns|]. intros n' [Hps' Hlen']. split; [|done].
      by apply Forall_live_app. }
    { by apply Forall_live_app. }
    exists (o :: new), (l1 ++ l2). rewrite app_assoc. split.
    { simpl. unfold bind. rewrite Hcall, Hrec. by rewrite <- app_assoc. }
    split.
    + constructor; [lia|]. eapply Forall_impl; [exact Hnew|].
      intros o'. simpl. rewrite length_app. lia.
    + rewrite length_app, Hl1, Hl2, fmap_cons. simpl. unfold neuron_nodes. lia.
Qed.

Lemma layer_values_output (h h' : heap) (ns : list Neuron) (x os : list ValuePtr) :
  Forall2 (fun n o => value_at h' o = neuron_value h n x) ns os ->
  value_at h' <$> os = (fun n => neuron_output h n (value_at h <$> x)) <$> ns.
Proof.
  induction 1 as [|n o ns os Hno _ IH]; [done|].
  rewrite !fmap_cons, Hno, neuron_value_output. by f_equal.
Qed.

Lemma Layer_call_values (l : Layer) (x : list ValuePtr) (h : heap) :
  Forall (live h) (Layer_parameters l) -> Forall (live h) x ->
  Forall (fun n => (length (m_w n) <= length x)%nat) (m_neurons l) ->
  exists outs new,
    Layer_call l x h = Some (outs, h ++ new)
    /\ length outs = length (m_neurons l)
    /\ Forall (live (h ++ new)) outs
    /\ value_at (h ++ new) <$> outs = layer_output h l (value_at h <$> x)
    /\ Forall (fun o => (length h <= o)%nat) outs
    /\ length new = layer_nodes l.
Proof.
  intros Hps Hx Hlen.
  destruct (Layer_call_spec l x h Hps Hx Hlen) as (outs & new & Hcall & Hlo & Hlive & Hval).
  apply Layer_parameters_live in Hps.
  destruct (push_outputs_new (m_neurons l) x [] h) as (outs' & new' & Hcall' & Hnew & Hl);
    [|done|].
  { apply Forall_forall. intros n Hn. split.
    - by apply (proj1 (Forall_forall _ _) Hps).
    - by apply (proj1 (Forall_forall _ _) Hlen). }
  unfold Layer_call in Hcall. rewrite Hcall' in Hcall. injection Hcall as Ho Hh.
  simpl in Ho. subst outs'. apply app_inv_head in Hh as ->.
  exists outs, new. split; [done|]. split; [done|]. split; [done|].
  split; [|done]. by apply layer_values_output.
Qed.

Lemma feed_layers_values (layers : list Layer) (x : list ValuePtr) (h : heap) :
  Forall (fun l => Forall (live h) (Layer_parameters l)) layers ->
  Forall (live h) x -> chained (length x) layers ->
  exists outs new,
    feed_layers layers x h = Some (outs, h ++ new)
    /\ length outs = output_size (length x) layers
    /\ Forall (live (h ++ new)) outs
    /\ value_at (h ++ new) <$> outs = mlp_output h layers (value_at h <$> x)
    /\ length new = mlp_nodes layers
    /\ (layers <> [] -> Forall (fun o => (length h <= o)%nat) outs)
    /\ (layers = [] -> outs = x /\ new = []).
Proof.
  revert x h. induction layers as [|l layers IH]; intros x h Hps Hx Hch.
  - exists x, []. rewrite app_nil_r. by repeat split.
  - pose proof Hps as Hall. apply Forall_cons in Hps as [Hl Hps]. destruct Hch as [Hlen Hch].
    destruct (Layer_call_values l x h Hl Hx Hlen)
      as (o1 & n1 & Hcall & Hlo & Hlive & Hval1 & Hnew1 & Hn1).
    destruct (IH o1 (h ++ n1))
      as (outs & n2 & Hrec & Hlen2 & Hlive2 & Hval2 & Hn2 & Hnew2 & Hnil).
    { eapply Forall_impl; [exact Hps|]. intros l'. apply Forall_live_app. }
    { done. }
    { by rewrite Hlo. }
    exists outs, (n1 ++ n2). rewrite app_assoc. split.
    { simpl. unfold bind. by rewrite Hcall, Hrec. }
    split; [by rewrite output_size_cons, Hlen2, Hlo|]. split; [done|]. split.
    { rewrite Hval2, Hval1, (mlp_output_app h n1 layers _ Hps). done. }
    split.
    { rewrite length_app, Hn1, Hn2. unfold mlp_nodes. by rewrite fmap_cons. }
    split; [|done]. intros _.
    destruct layers as [|l' layers].
    + destruct (Hnil eq_refl) as [-> _]. done.
    + eapply Forall_impl; [apply Hnew2; done|].
      intros o. simpl. rewrite length_app. lia.
Qed.

(** The forward pass of a network whose parameters are live, on live
    inputs, when each neuron of a layer has at most as many weights as the
    layer before it has neurons (as the constructor makes it).  It returns
    as many nodes as the last layer has neurons; they are new (allocated by
    this call), and the values they hold are the outputs of the last layer
    when every layer is applied to the outputs of the layer before it, the
    first to the values of [x].  The call only appends to the heap: the
    nodes of each neuron (a product and a sum per weight, and the output),
    and changes no object that exists.  A network without layers returns its
    input and leaves the heap as it is. *)
Theorem mlp_forward (m : MLP) (x : list ValuePtr) (h : heap) :
  Forall (live h) (MLP_parameters m) -> Forall (live h) x ->
  chained (length x) (m_layers m) ->
  exists outs new,
    MLP_call m x h = Some (outs, h ++ new)
    /\ length outs = output_size (length x) (m_layers m)
    /\ Forall (live (h ++ new)) outs
    /\ value_at (h ++ new) <$> outs = mlp_output h (m_layers m) (value_at h <$> x)
    /\ length new = mlp_nodes (m_layers m)
    /\ (m_layers m <> [] -> Forall (fun o => (length h <= o)%nat) outs)
    /\ (m_layers m = [] -> outs = x /\ new = []).
Proof.
  intros Hps Hx Hch. apply MLP_parameters_live in Hps.
  by apply feed_layers_values.
Qed.

(** ** [MLP::zero_grad] *)

Lemma zero_grad_twice (v : Value) : zero_grad (zero_grad v) = zero_grad v.
Proof. done. Qed.

Lemma zero_each_spec (ps : list ValuePtr) (h : heap) :
  Forall (live h) ps ->
  exists h',
    zero_each ps h = Some (tt, h')
    /\ length h' = length h
    /\ forall q, h' !! q = (fun v => if decide (q ∈ ps) then zero_grad v else v) <$> h !! q.
Proof.
  revert h. induction ps as [|p ps IH]; intros h Hps.
  - exists h. split; [done|]. split; [done|]. intros q.
    destruct (h !! q) as [v|]; [|done]. unfold fmap, option_fmap, option_map.
    by destruct (decide (q ∈ [])) as [Hin%not_elem_of_nil|].
  - apply Forall_cons in Hps as [Hp Hps].
    destruct (IH (alter zero_grad p h)) as (h' & Hrec & Hlen & Hlook).
    { eapply Forall_impl; [exact Hps|]. intros q. unfold live. by rewrite length_alter. }
    exists h'. split.
    { simpl. unfold bind.
      assert (Hinv : invoke p zero_grad h = Some (tt, alter zero_grad p h)).
      { apply invoke_Some. split; [by apply live_lookup|done]. }
      by rewrite Hinv. }
    split; [by rewrite Hlen, length_alter|]. intros q. rewrite Hlook.
    destruct (decide (q = p)) as [->|Hne].
    + rewrite list_lookup_alter_eq. destruct (h !! p) as [v|]; simpl; [|done].
      rewrite (decide_True (P := p ∈ p :: ps)) by apply list_elem_of_here.
      by destruct (decide (p ∈ ps)).
    + rewrite list_lookup_alter_ne by done. destruct (h !! q) as [v|]; simpl; [|done].
      destruct (decide (q ∈ ps)) as [Hin|Hout].
      * by rewrite decide_True by (by apply list_elem_of_further).
      * rewrite decide_False; [done|]. rewrite not_elem_of_cons. done.
Qed.

(** [MLP::zero_grad] on a network whose parameters are live sets the
    gradient of every parameter to 0 and changes nothing else: the other
    fields of the parameters stay, and every object that is not a parameter
    (an input, an intermediate node, an output) keeps its gradient. *)
Theorem mlp_zero_grad (m : MLP) (h : heap) :
  Forall (live h) (MLP_parameters m) ->
  exists h',
    MLP_zero_grad m h = Some (tt, h')
    /\ length h' = length h
    /\ (forall p v, h !! p = Some v -> p ∈ MLP_parameters m ->
          h' !! p = Some (zero_grad v) /\ m_grad (zero_grad v) = 0)
    /\ (forall q v, h !! q = Some v -> q ∉ MLP_parameters m -> h' !! q = Some v).
Proof.
  intros Hps. destruct (zero_each_spec (MLP_parameters m) h Hps) as (h' & Hz & Hlen & Hlook).
  exists h'. split; [done|]. split; [done|]. split.
  - intros p v Hp Hin. rewrite Hlook, Hp. simpl. by rewrite decide_True.
  - intros q v Hq Hout. rewrite Hlook, Hq. simpl. by rewrite decide_False.
Qed.

(** ** The gradients of a neuron *)

(** The nodes the loop of [Neuron::operator()] appends: for each weight a
    product at an even offset and the sum that adds it at the next. *)
Lemma weigh_inputs_shape (ws x : list ValuePtr) (i : nat) (act : ValuePtr) (h : heap) :
  Forall (live h) ws -> Forall (live h) x -> live h act ->
  (i + length ws <= length x)%nat ->
  exists out l,
    weigh_inputs ws x i act h = Some (out, h ++ l)
    /\ length l = (2 * length ws)%nat
    /\ (wf h -> wf (h ++ l))
    /\ out = chain_ptr act (length h) (length ws)
    /\ forall j wj, ws !! j = Some wj ->
         exists xj np ns,
           x !! (i + j)%nat = Some xj
           /\ (h ++ l) !! (length h + 2 * j)%nat = Some np
           /\ m_prev np = std_set [wj; xj]
           /\ m_backward_fn np = FnMul wj xj (length h + 2 * j)
           /\ m_grad np = 0
           /\ (h ++ l) !! (length h + 2 * j + 1)%nat = Some ns
           /\ m_prev ns = std_set [chain_ptr act (length h) j; (length h + 2 * j)%nat]
           /\ m_backward_fn ns
              = FnAdd (chain_ptr act (length h) j) (length h + 2 * j) (length h + 2 * j + 1)
           /\ m_grad ns = 0.
Proof.
  revert i act h. induction ws as [|wi ws IH]; intros i act h Hws Hx Hact Hlen.
  - exists act, []. rewrite app_nil_r. split; [done|]. split; [done|]. split; [done|].
    split; [done|]. intros j wj Hj. done.
  - apply Forall_cons in Hws as [Hwi Hws]. simpl in Hlen.
    destruct (lookup_lt_is_Some_2 x i) as [xi Hxi]; [lia|].
    assert (Hxil : live h xi).
    { apply (proj1 (Forall_forall _ _) Hx). by apply list_elem_of_lookup_2 with i. }
    destruct (proj1 (live_lookup h wi) Hwi) as [vw Hvw].
    destruct (proj1 (live_lookup h xi) Hxil) as [vx Hvx].
    destruct (proj1 (live_lookup h act) Hact) as [va Hva].
    set (p := length h).
    set (np := mkValue (m_data vw * m_data vx) 0 "" "*" (std_set [wi; xi]) (FnMul wi xi p)).
    set (ns := mkValue (m_data va + m_data np) 0 "" "+" (std_set [act; p])
                 (FnAdd act p (S p))).
    assert (Hlp : length (h ++ [np]) = S p) by (rewrite length_app; simpl; unfold p; lia).
    assert (Hmul : operator_mul wi xi h = Some (p, h ++ [np])).
    { rewrite operator_mul_eq, Hvw, Hvx. done. }
    assert (Hadd : operator_add act p (h ++ [np]) = Some (S p, (h ++ [np]) ++ [ns])).
    { assert (Hp0 : (h ++ [np]) !! p = Some np) by apply lookup_snoc_new.
      rewrite operator_add_eq, (lookup_app_l h [np] act Hact), Hva, Hp0.
      simpl. by rewrite Hlp. }
    assert (Hwf2 : wf h -> wf ((h ++ [np]) ++ [ns])).
    { intros Hwf.
      destruct (operator_mul_allocates wi xi h) as (o1 & l1 & Hm1 & _ & Hwf1 & _); [done..|].
      rewrite Hmul in Hm1. injection Hm1 as _ Hl1. apply app_inv_head in Hl1 as <-.
      destruct (operator_add_allocates act p (h ++ [np])) as (o2 & l2 & Hm2 & _ & Hwf2 & _).
      { by apply live_app. }
      { unfold live. rewrite Hlp. unfold p. lia. }
      rewrite Hadd in Hm2. injection Hm2 as _ Hl2. apply app_inv_head in Hl2 as <-.
      auto. }
    assert (Hl2 : length ((h ++ [np]) ++ [ns]) = (p + 2)%nat).
    { rewrite length_app, Hlp. simpl. lia. }
    destruct (IH (S i) (S p) ((h ++ [np]) ++ [ns]))
      as (out & l & Hrec & Hl & Hwfl & Hout & Hshape).
    { rewrite <- app_assoc. by apply Forall_live_app. }
    { rewrite <- app_assoc. by apply Forall_live_app. }
    { unfold live. rewrite Hl2. lia. }
    { lia. }
    exists out, ([np; ns] ++ l).
    assert (Heq : h ++ [np; ns] ++ l = ((h ++ [np]) ++ [ns]) ++ l).
    { by rewrite <- !app_assoc. }
    rewrite Heq. split.
    { simpl. rewrite Hxi. unfold bind. by rewrite Hmul, Hadd. }
    split; [rewrite length_app, Hl; simpl; lia|]. split; [auto|]. split.
    { rewrite Hout, Hl2. simpl length. destruct (length ws) as [|k]; simpl; [unfold p; lia|].
      unfold p. lia. }
    intros j wj Hj. destruct j as [|j].
    + injection Hj as <-. exists xi, np, ns.
      rewrite Nat.add_0_r, Nat.mul_0_r, Nat.add_0_r. fold p. split; [done|].
      split.
      { rewrite <- app_assoc, <- app_assoc. unfold p.
        by rewrite lookup_app_r, Nat.sub_diag by done. }
      split; [done|]. split; [done|]. split; [done|]. split.
      { rewrite lookup_app_l by (rewrite Hl2; lia).
        replace (p + 1)%nat with (length (h ++ [np])) by (rewrite Hlp; lia).
        apply lookup_snoc_new. }
      split; [done|]. split; [|done]. simpl. by rewrite Nat.add_1_r.
    + simpl in Hj. destruct (Hshape j wj Hj)
        as (xj & np' & ns' & Hxj & Hp' & Hpp & Hpf & Hpg & Hs' & Hsp & Hsf & Hsg).
      rewrite Hl2 in Hp', Hpf, Hs', Hsp, Hsf.
      assert (Hch : chain_ptr (S p) (p + 2) j = chain_ptr act p (S j)).
      { destruct j as [|j]; simpl; lia. }
      rewrite Hch in Hsp, Hsf.
      replace (p + 2 + 2 * j)%nat with (p + 2 * S j)%nat in * by lia.
      exists xj, np', ns'. fold p.
      replace (i + S j)%nat with (S i + j)%nat by lia. done.
Qed.

(** Rounding a nonzero mantissa at an exponent of a binary64 number never
    gives zero, so [1 - y] is never the negative zero. *)

Lemma shr_1_pos (m : positive) (r s : bool) :
  (1 < Zpos (digits2_pos m))%Z ->
  exists p r' s',
    shr_1 (Build_shr_record (Zpos m) r s) = Build_shr_record (Zpos p) r' s'
    /\ Zpos (digits2_pos p) = (Zpos (digits2_pos m) - 1)%Z.
Proof.
  destruct m as [p|p|]; simpl; intros Hd; [..|lia];
    eexists _, _, _; (split; [reflexivity|lia]).
Qed.

Lemma shr_iter_pos (n m : positive) (r s : bool) :
  (Zpos n < Zpos (digits2_pos m))%Z ->
  exists p r' s',
    SpecFloat.iter_pos shr_1 n (Build_shr_record (Zpos m) r s)
    = Build_shr_record (Zpos p) r' s'
    /\ Zpos (digits2_pos p) = (Zpos (digits2_pos m) - Zpos n)%Z.
Proof.
  rewrite iter_pos_iter. induction n as [|n IH] using Pos.peano_ind; intros Hn.
  - simpl. apply shr_1_pos. lia.
  - rewrite Pos.iter_succ. destruct IH as (p & r' & s' & -> & Hd); [lia|].
    destruct (shr_1_pos p r' s') as (q & r'' & s'' & -> & Hq); [lia|].
    exists q, r'', s''. split; [done|lia].
Qed.

Lemma shr_fexp_pos (m : positive) (e : Z) (l : location) :
  (-1074 <= e)%Z ->
  exists p r s e',
    shr_fexp prec emax (Zpos m) e l = (Build_shr_record (Zpos p) r s, e')
    /\ (-1074 <= e')%Z.
Proof.
  intros He. unfold shr_fexp. simpl Zdigits2. rewrite fexp_unfold.
  assert (Hrec : exists r s, shr_record_of_loc (Zpos m) l = Build_shr_record (Zpos m) r s).
  { destruct l as [|[]]; simpl; eauto. }
  destruct Hrec as (r & s & ->).
  destruct (Z.max (Zpos (digits2_pos m) + e - 53) (-1074) - e)%Z as [|n|n] eqn:Hn;
    simpl.
  - by exists m, r, s, e.
  - destruct (shr_iter_pos n m r s) as (p & r' & s' & -> & _); [lia|].
    exists p, r', s', (e + Zpos n)%Z. split; [done|lia].
  - by exists m, r, s, e.
Qed.

Lemma binary_round_aux_not_zero (sx : bool) (m : positive) (e : Z) (l : location)
    (s : bool) :
  (-1074 <= e)%Z -> binary_round_aux prec emax sx (Zpos m) e l <> S754_zero s.
Proof.
  intros He. unfold binary_round_aux.
  destruct (shr_fexp_pos m e l He) as (p & r & s1 & e' & -> & He').
  assert (Hr : exists p',
    round_nearest_even (shr_m (Build_shr_record (Zpos p) r s1))
      (loc_of_shr_record (Build_shr_record (Zpos p) r s1)) = Zpos p').
  { destruct r, s1; simpl; eauto. destruct p; simpl; eauto. }
  destruct Hr as [p' ->].
  destruct (shr_fexp_pos p' e' loc_Exact He') as (q & r2 & s2 & e'' & -> & _).
  simpl. by destruct (e'' <=? emax - prec)%Z.
Qed.

Lemma one_minus_not_neg_zero (y : float) : Prim2SF (1 - y) <> S754_zero true.
Proof.
  rewrite sub_spec. change (Prim2SF 1) with (S754_finite false 4503599627370496 (-52)).
  destruct (Prim2SF y) as [s|s| |s m e] eqn:Hy; simpl; try done.
  destruct (valid_finite y s m e Hy) as [Hc _]. rewrite fexp_unfold in Hc.
  unfold SF64sub, SFsub.
  assert (Hez : (-1074 <= Z.min (-52) e)%Z) by lia.
  set (ez := Z.min (-52) e) in *.
  match goal with
  | |- binary_normalize _ _ ?z _ _ <> _ => destruct z as [|M|M]
  end; simpl; [done|..]; unfold binary_round;
    destruct (shl_align M ez _) as [mz ez'] eqn:Hsh;
    apply binary_round_aux_not_zero;
    unfold shl_align in Hsh; rewrite fexp_unfold in Hsh;
    destruct (_ - ez)%Z in Hsh; injection Hsh as <- <-; lia.
Qed.

Lemma zero_add_id (d : float) : Prim2SF d <> S754_zero true -> 0 + d = d.
Proof.
  intros Hd. apply Prim2SF_inj. rewrite add_spec.
  change (Prim2SF 0) with (S754_zero false).
  destruct (Prim2SF d) as [s|s| |s m e]; try done. by destruct s.
Qed.

Lemma zero_add_one_minus (y : float) : 0 + (1 - y) = 1 - y.
Proof. apply zero_add_id, one_minus_not_neg_zero. Qed.

Lemma zero_add_idem (d : float) : 0 + (0 + d) = 0 + d.
Proof.
  apply Prim2SF_inj. rewrite !add_spec.
  change (Prim2SF 0) with (S754_zero false).
  destruct (Prim2SF d) as [s|s| |s m e]; try done. by destruct s.
Qed.

(** The operands of the nodes a forward pass of a neuron appends. *)
Lemma neuron_graph (n : Neuron) (x : list ValuePtr) (h : heap) :
  wf h -> Forall (live h) (Neuron_parameters n) -> Forall (live h) x ->
  (length (m_w n) <= length x)%nat ->
  let base := length h in
  let N := length (m_w n) in
  let act := chain_ptr (m_b n) base N in
  let out := (base + 2 * N)%nat in
  exists h1 no,
    Neuron_call n x h = Some (out, h1)
    /\ wf h1 /\ length h1 = S out
    /\ (forall p v, h !! p = Some v -> h1 !! p = Some v)
    /\ h1 !! out = Some no
    /\ m_data no = neuron_value h n x
    /\ m_prev no = [act]
    /\ m_backward_fn no = FnTanh act (neuron_value h n x) out
    /\ (forall j wj, m_w n !! j = Some wj ->
          exists xj np ns,
            x !! j = Some xj
            /\ h1 !! (base + 2 * j)%nat = Some np
            /\ m_prev np = std_set [wj; xj]
            /\ m_backward_fn np = FnMul wj xj (base + 2 * j)
            /\ m_grad np = 0
            /\ h1 !! (base + 2 * j + 1)%nat = Some ns
            /\ m_prev ns = std_set [chain_ptr (m_b n) base j; (base + 2 * j)%nat]
            /\ m_backward_fn ns
               = FnAdd (chain_ptr (m_b n) base j) (base + 2 * j) (base + 2 * j + 1)
            /\ m_grad ns = 0).
Proof.
  intros Hwf Hps Hx Hlen base N act out. unfold Neuron_parameters in Hps.
  apply Forall_app in Hps as [Hw Hb]. rewrite Forall_singleton in Hb.
  destruct (weigh_inputs_shape (m_w n) x 0 (m_b n) h Hw Hx Hb)
    as (a & l & Hrec & Hl & Hwfl & Ha & Hshape); [simpl; lia|].
  destruct (weigh_inputs_spec (m_w n) x 0 (m_b n) h Hw Hx Hb)
    as (a' & l' & Hrec' & _ & Hact & Hval); [simpl; lia|].
  rewrite Hrec in Hrec'. injection Hrec' as <- Hll. apply app_inv_head in Hll as <-.
  fold base N in Ha. fold act in Ha. subst a.
  destruct (proj1 (live_lookup _ _) Hact) as [va Hva].
  assert (Hlen' : length (h ++ l) = out).
  { rewrite length_app, Hl. done. }
  assert (Hdata : m_data va = weighted_sum (value_at h <$> m_w n) (value_at h <$> x)
                                (value_at h (m_b n))).
  { rewrite drop_0 in Hval. rewrite <- Hval. unfold value_at. by rewrite Hva. }
  set (t := neuron_value h n x).
  set (no := mkValue t 0 "" "tanh" (std_set [act]) (FnTanh act t out)).
  assert (Htanh : tanh act (h ++ l) = Some (out, (h ++ l) ++ [no])).
  { rewrite tanh_eq, Hva. simpl. rewrite Hlen'. unfold no, t, neuron_value.
    by rewrite Hdata. }
  exists ((h ++ l) ++ [no]), no. split.
  { unfold Neuron_call, bind. by rewrite Hrec. }
  split.
  { destruct (tanh_allocates act (h ++ l)) as (o & l2 & Hm & _ & Hwf2 & _); [done|].
    rewrite Htanh in Hm. injection Hm as _ Hl2. apply app_inv_head in Hl2 as <-. auto. }
  split; [rewrite length_app, Hlen'; simpl; lia|]. split.
  { intros p v Hp. rewrite <- app_assoc. rewrite lookup_app_l; [done|].
    by eapply lookup_lt_Some. }
  split; [rewrite <- Hlen'; apply lookup_snoc_new|].
  split; [done|]. split; [apply std_set_single|]. split; [done|].
  intros j wj Hj.
  destruct (Hshape j wj Hj)
    as (xj & np & ns & Hxj & Hp & Hpp & Hpf & Hpg & Hs & Hsp & Hsf & Hsg).
  exists xj, np, ns. fold base in Hp, Hpf, Hs, Hsp, Hsf.
  pose proof (lookup_lt_Some _ _ _ Hp) as Hltp.
  pose proof (lookup_lt_Some _ _ _ Hs) as Hlts.
  rewrite (lookup_app_l (h ++ l) [no] _ Hltp), (lookup_app_l (h ++ l) [no] _ Hlts).
  done.
Qed.

Lemma deltas_one (t : ValuePtr) (v : float) : deltas t [(t, v)] = [v].
Proof. rewrite deltas_cons. simpl. by rewrite decide_True. Qed.

Lemma deltas_pair_l (t u : ValuePtr) (v w : float) :
  t <> u -> deltas t [(t, v); (u, w)] = [v].
Proof.
  intros Hne. rewrite !deltas_cons. simpl.
  rewrite (decide_True (P := t = t)) by done. by rewrite decide_False by congruence.
Qed.

Lemma deltas_pair_r (t u : ValuePtr) (v w : float) :
  t <> u -> deltas t [(u, v); (t, w)] = [w].
Proof.
  intros Hne. rewrite !deltas_cons. simpl.
  rewrite (decide_False (P := u = t)) by congruence. by rewrite decide_True.
Qed.

Lemma accumulate_one (g d : float) : accumulate g [d] = g + d.
Proof. reflexivity. Qed.

Lemma local_tanh (h : heap) (v : ValuePtr) (t : float) (out : ValuePtr) (vo : Value) :
  h !! out = Some vo ->
  local_increments h (FnTanh v t out) = Some [(v, (1 - t * t) * m_grad vo)].
Proof. intros Ho. simpl. by rewrite Ho. Qed.

Lemma local_add (h : heap) (lhs rhs out : ValuePtr) (vo : Value) :
  h !! out = Some vo ->
  local_increments h (FnAdd lhs rhs out) = Some [(lhs, m_grad vo); (rhs, m_grad vo)].
Proof. intros Ho. simpl. by rewrite Ho. Qed.

Lemma local_mul (h : heap) (lhs rhs out : ValuePtr) (vl vr vo : Value) :
  h !! lhs = Some vl -> h !! rhs = Some vr -> h !! out = Some vo ->
  local_increments h (FnMul lhs rhs out)
  = Some [(lhs, m_data vr * m_grad vo); (rhs, m_data vl * m_grad vo)].
Proof. intros Hl Hr Ho. simpl. by rewrite Hl, Hr, Ho. Qed.

(** One forward pass of a neuron followed by [backward] on its output.
    The parameters are leaves, pairwise distinct, and not used underneath
    any input (as for a neuron fresh from its constructor).  With [t] the
    output value, [backward] adds [1 - t * t] to the gradient of the bias
    and [x[i]->data() * (1 - t * t)] to the gradient of weight [i], in
    binary64. *)
Theorem neuron_gradients (n : Neuron) (x : list ValuePtr) (h : heap) :
  built h ->
  Forall (fun p => exists v, h !! p = Some v /\ m_prev v = []) (Neuron_parameters n) ->
  NoDup (Neuron_parameters n) ->
  Forall (live h) x -> (length (m_w n) <= length x)%nat ->
  (forall xi p, xi ∈ x -> p ∈ Neuron_parameters n -> ~ reachable h xi p) ->
  exists out h1 tr h2,
    Neuron_call n x h = Some (out, h1)
    /\ value_at h1 out = neuron_value h n x
    /\ backward out h1 = Some (tr, h2)
    /\ (forall vb, h !! m_b n = Some vb ->
          h2 !! m_b n =
            Some (set_grad
                    (m_grad vb + (1 - neuron_value h n x * neuron_value h n x)) vb))
    /\ (forall i wi xi vw,
          m_w n !! i = Some wi -> x !! i = Some xi -> h !! wi = Some vw ->
          h2 !! wi =
            Some (set_grad
                    (m_grad vw
                     + value_at h xi * (1 - neuron_value h n x * neuron_value h n x))
                    vw)).
Proof.
  intros Hbuilt Hleaf Hnd Hx Hlen Hsep. pose proof (built_wf h Hbuilt) as Hwf.
  assert (Hlive : Forall (live h) (Neuron_parameters n)).
  { eapply Forall_impl; [exact Hleaf|]. intros p (v & Hv & _). by eapply lookup_lt_Some. }
  pose proof (neuron_graph n x h Hwf Hlive Hx Hlen) as Hg. cbv zeta in Hg.
  destruct Hg as (h1 & no & Hcall & Hwf1 & Hlen1 & Hold & Hout & Hdata & Hprev & Hfn & Hshape).
  set (base := length h) in *. set (N := length (m_w n)) in *.
  set (b := m_b n) in *. set (t := neuron_value h n x) in *.
  set (out := (base + 2 * N)%nat) in *. set (G := 0 + (1 - t * t)).
  assert (HG : G = 1 - t * t) by apply zero_add_one_minus.
  assert (Hbpar : b ∈ Neuron_parameters n).
  { unfold Neuron_parameters. apply elem_of_app. right. apply list_elem_of_here. }
  assert (Hwpar : forall j wj, m_w n !! j = Some wj -> wj ∈ Neuron_parameters n).
  { intros j wj Hj. unfold Neuron_parameters. apply elem_of_app. left.
    by apply list_elem_of_lookup_2 with j. }
  assert (Hpold : forall p, p ∈ Neuron_parameters n -> (p < base)%nat).
  { intros p Hp. by apply (proj1 (Forall_forall _ _) Hlive). }
  assert (Hxold : forall j xj, x !! j = Some xj -> (xj < base)%nat).
  { intros j xj Hj. apply (proj1 (Forall_forall _ _) Hx). by apply list_elem_of_lookup_2 with j. }
  assert (Hpleaf : forall p y, p ∈ Neuron_parameters n -> reachable h p y -> y = p).
  { intros p y Hp Hr. destruct (proj1 (Forall_forall _ _) Hleaf p Hp) as (v & Hv & Hpv).
    by apply (leaf_reachable _ _ _ _ Hv Hpv). }
  assert (Hpnop : forall p y, p ∈ Neuron_parameters n -> ~ operand h p y).
  { intros p y Hp. destruct (proj1 (Forall_forall _ _) Hleaf p Hp) as (v & Hv & Hpv).
    by apply (leaf_no_operand _ _ _ _ Hv Hpv). }
  assert (Hwb : forall j wj, m_w n !! j = Some wj -> wj <> b).
  { intros j wj Hj ->. unfold Neuron_parameters in Hnd.
    apply NoDup_app in Hnd as (_ & Hdisj & _).
    apply (Hdisj b); [by apply list_elem_of_lookup_2 with j|apply list_elem_of_here]. }
  assert (Hwinj : forall j k wj, m_w n !! j = Some wj -> m_w n !! k = Some wj -> j = k).
  { intros j k wj Hj Hk. unfold Neuron_parameters in Hnd.
    apply NoDup_app in Hnd as (Hndw & _). by apply (NoDup_lookup _ _ _ _ Hndw Hj Hk). }
  assert (Hwx : forall j k wj xk, m_w n !! j = Some wj -> x !! k = Some xk -> wj <> xk).
  { intros j k wj xk Hj Hk ->. apply (Hsep xk xk).
    - by apply list_elem_of_lookup_2 with k.
    - by apply (Hwpar j).
    - apply rtc_refl. }
  assert (Hbx : forall k xk, x !! k = Some xk -> b <> xk).
  { intros k xk Hk Heq. apply (Hsep xk b); [by apply list_elem_of_lookup_2 with k|done|].
    rewrite Heq. apply rtc_refl. }
  assert (Hchain : forall j, chain_ptr b base j = b /\ j = 0%nat
                             \/ exists j', j = S j' /\ chain_ptr b base j = (base + 2 * j' + 1)%nat).
  { intros [|j']; [by left|right; by exists j']. }
  (* the operands of the new nodes *)
  assert (Hnew : forall y t', operand h1 y t' -> (base <= y)%nat ->
    (exists j wj xj, m_w n !! j = Some wj /\ x !! j = Some xj
                     /\ y = (base + 2 * j)%nat /\ (t' = wj \/ t' = xj))
    \/ (exists j, (j < N)%nat /\ y = (base + 2 * j + 1)%nat
                  /\ (t' = chain_ptr b base j \/ t' = (base + 2 * j)%nat))
    \/ (y = out /\ t' = chain_ptr b base N)).
  { intros y t' (v & Hv & Ht) Hy. pose proof (lookup_lt_Some _ _ _ Hv) as Hlt.
    rewrite Hlen1 in Hlt. destruct (decide (y = out)) as [->|Hne].
    - right. right. rewrite Hout in Hv. injection Hv as <-. rewrite Hprev in Ht.
      by apply list_elem_of_singleton in Ht.
    - destruct (Nat.Even_or_Odd (y - base)) as [[j Hj]|[j Hj]].
      + assert (Hjn : (j < N)%nat) by (unfold out in *; lia).
        destruct (lookup_lt_is_Some_2 (m_w n) j Hjn) as [wj Hwj].
        destruct (Hshape j wj Hwj) as (xj & np & ns & Hxj & Hp & Hpp & _).
        replace y with (base + 2 * j)%nat in * by lia.
        rewrite Hp in Hv. injection Hv as <-. rewrite Hpp in Ht.
        apply std_set_pair in Ht. left. by exists j, wj, xj.
      + assert (Hjn : (j < N)%nat) by (unfold out in *; lia).
        destruct (lookup_lt_is_Some_2 (m_w n) j Hjn) as [wj Hwj].
        destruct (Hshape j wj Hwj) as (xj & np & ns & _ & _ & _ & _ & _ & Hs & Hsp & _).
        replace y with (base + 2 * j + 1)%nat in * by lia.
        rewrite Hs in Hv. injection Hv as <-. rewrite Hsp in Ht.
        apply std_set_pair in Ht. right. left. by exists j. }
  assert (Hopold : forall y t', operand h1 y t' -> (y < base)%nat -> operand h y t').
  { intros y t' (v & Hv & Ht) Hy.
    destruct (lookup_lt_is_Some_2 h y Hy) as [v0 Hv0].
    rewrite (Hold y v0 Hv0) in Hv. injection Hv as <-. by exists v0. }
  assert (Hrold : forall r y, reachable h1 r y -> (r < base)%nat -> reachable h r y).
  { intros r y Hr. induction Hr as [r|r c y Hop _ IH]; intros Hrb; [apply rtc_refl|].
    apply Hopold in Hop; [|done]. eapply rtc_l; [exact Hop|].
    apply IH. by apply (operand_live h r c). }
  assert (Hvisit : forall r y, reachable h1 r y -> (base <= r)%nat -> (y < base)%nat ->
    y ∈ Neuron_parameters n \/ exists xk, xk ∈ x /\ reachable h xk y).
  { intros r y Hr. induction Hr as [r|r c y Hop Hrest IH]; intros Hrb Hyb; [lia|].
    destruct (decide (base <= c)%nat) as [Hc|Hc]; [by apply IH|].
    assert (Hbcase : c = b -> y ∈ Neuron_parameters n \/ exists xk, xk ∈ x /\ reachable h xk y).
    { intros ->. left. apply Hrold in Hrest; [|lia].
      by rewrite (Hpleaf b y Hbpar Hrest). }
    destruct (Hnew r c Hop Hrb) as [(j & wj & xj & Hwj & Hxj & _ & [-> | ->])
                                   |[(j & _ & _ & [-> | ->])|[_ ->]]].
    - left. apply Hrold in Hrest; [|lia].
      rewrite (Hpleaf wj y (Hwpar j wj Hwj) Hrest). by apply (Hwpar j).
    - right. exists xj. split; [by apply list_elem_of_lookup_2 with j|].
      apply Hrold; [done|lia].
    - destruct (Hchain j) as [[Hcb _]|(j' & _ & Hcj)];
        [apply Hbcase; by rewrite Hcb|rewrite Hcj in Hc; lia].
    - lia.
    - destruct (Hchain N) as [[Hcb _]|(j' & _ & Hcj)];
        [apply Hbcase; by rewrite Hcb|rewrite Hcj in Hc; lia]. }
  assert (Hlout : live h1 out) by (unfold live; lia).
  destruct (backward_total out h1 Hwf1 Hlout) as (rest & tr & h2 & Hback & _).
  assert (Hsingle : forall t' c, reachable h1 out c ->
    (t' ∈ Neuron_parameters n \/ (base <= t')%nat) ->
    (forall y, (base <= y)%nat -> operand h1 y t' -> y = c) ->
    exists vc incs,
      h2 !! c = Some vc /\ local_increments h2 (m_backward_fn vc) = Some incs
      /\ contributions t' tr = deltas t' incs).
  { intros t' c Hc Ht' Hone.
    apply (backward_single_consumer h1 out tr h2 t' c Hwf1 Hback Hc).
    intros y Hy Hop. destruct (decide (base <= y)%nat) as [Hyb|Hyb]; [by apply Hone|].
    exfalso. apply Hopold in Hop as Hop'; [|lia].
    destruct Ht' as [Ht'|Ht']; [|pose proof (operand_lt _ _ _ Hwf Hop'); lia].
    destruct (Hvisit out y Hy) as [Hyp|(xk & Hxk & Hr)]; [unfold out; lia|lia| |].
    - by apply (Hpnop y t' Hyp).
    - apply (Hsep xk t' Hxk Ht'). eapply rtc_r; [exact Hr|exact Hop']. }
  pose proof (backward_grad _ _ _ _ _ _ Hback Hout) as Hout2.
  rewrite decide_True, (backward_root_untouched _ _ _ _ Hwf1 Hback) in Hout2 by done.
  change (accumulate 1 []) with 1 in Hout2.
  (* the sums are reachable from the output *)
  assert (Hrs : forall d j, (j + d + 1)%nat = N -> reachable h1 out (base + 2 * j + 1)).
  { induction d as [|d IH]; intros j Hj.
    - eapply rtc_l; [|apply rtc_refl]. exists no. split; [done|]. rewrite Hprev.
      replace N with (S j) by lia. simpl. apply list_elem_of_here.
    - eapply rtc_r; [apply (IH (S j)); lia|].
      destruct (lookup_lt_is_Some_2 (m_w n) (S j)) as [wj Hwj]; [fold N; lia|].
      destruct (Hshape (S j) wj Hwj) as (xj & np & ns & _ & _ & _ & _ & _ & Hs & Hsp & _).
      exists ns. split; [done|]. rewrite Hsp. apply std_set_pair. left. simpl. lia. }
  (* every sum ends the pass with gradient [G] *)
  assert (HgS : forall d j, (j + d + 1)%nat = N ->
    exists v, h2 !! (base + 2 * j + 1)%nat = Some v /\ m_grad v = G
              /\ m_backward_fn v
                 = FnAdd (chain_ptr b base j) (base + 2 * j) (base + 2 * j + 1)).
  { induction d as [|d IH]; intros j Hj.
    - destruct (lookup_lt_is_Some_2 (m_w n) j) as [wj Hwj]; [fold N; lia|].
      destruct (Hshape j wj Hwj)
        as (xj & np & ns & _ & _ & _ & _ & _ & Hs & Hsp & Hsf & Hsg).
      destruct (Hsingle (base + 2 * j + 1)%nat out) as (vc & incs & Hvc & Hloc & Hcontr).
      { apply rtc_refl. }
      { right. lia. }
      { intros y Hy Hop.
        destruct (Hnew y _ Hop Hy) as [(k & wk & xk & Hwk & Hxk & _ & [Heq|Heq])
                                      |[(k & Hk & _ & [Heq|Heq])|[-> _]]]; [| | | |done].
        - pose proof (Hpold wk (Hwpar k wk Hwk)). lia.
        - pose proof (Hxold k xk Hxk). lia.
        - destruct (Hchain k) as [[Hcb _]|(k' & -> & Hck)].
          + rewrite Hcb in Heq. pose proof (Hpold b Hbpar). lia.
          + rewrite Hck in Heq. lia.
        - lia. }
      rewrite Hout2 in Hvc. injection Hvc as <-.
      change (m_backward_fn (set_grad 1 no)) with (m_backward_fn no) in Hloc.
      rewrite Hfn, (local_tanh _ _ _ _ _ Hout2) in Hloc. injection Hloc as <-.
      change (m_grad (set_grad 1 no)) with 1 in Hcontr.
      replace (chain_ptr b base N) with (base + 2 * j + 1)%nat in Hcontr
        by (replace N with (S j) by lia; simpl; lia).
      rewrite deltas_one in Hcontr.
      pose proof (backward_grad _ _ _ _ _ _ Hback Hs) as Hs2.
      rewrite decide_False, Hcontr, Hsg, accumulate_one, mul_one in Hs2
        by (unfold out; lia).
      eexists. split; [exact Hs2|]. split; done.
    - destruct (IH (S j)) as (v' & Hv' & Hgv' & Hfv'); [lia|].
      destruct (lookup_lt_is_Some_2 (m_w n) j) as [wj Hwj]; [fold N; lia|].
      destruct (Hshape j wj Hwj)
        as (xj & np & ns & _ & _ & _ & _ & _ & Hs & Hsp & Hsf & Hsg).
      destruct (Hsingle (base + 2 * j + 1)%nat (base + 2 * S j + 1)%nat)
        as (vc & incs & Hvc & Hloc & Hcontr).
      { apply (Hrs d (S j)). lia. }
      { right. lia. }
      { intros y Hy Hop.
        destruct (Hnew y _ Hop Hy) as [(k & wk & xk & Hwk & Hxk & _ & [Heq|Heq])
                                      |[(k & Hk & -> & [Heq|Heq])|[_ Heq]]].
        - pose proof (Hpold wk (Hwpar k wk Hwk)). lia.
        - pose proof (Hxold k xk Hxk). lia.
        - destruct (Hchain k) as [[Hcb _]|(k' & -> & Hck)].
          + rewrite Hcb in Heq. pose proof (Hpold b Hbpar). lia.
          + rewrite Hck in Heq. lia.
        - lia.
        - destruct (Hchain N) as [[Hcb _]|(k' & HN & Hck)].
          + rewrite Hcb in Heq. pose proof (Hpold b Hbpar). lia.
          + rewrite Hck in Heq. lia. }
      rewrite Hv' in Hvc. injection Hvc as <-.
      rewrite Hfv', (local_add _ _ _ _ _ Hv'), Hgv' in Hloc. injection Hloc as <-.
      replace (chain_ptr b base (S j)) with (base + 2 * j + 1)%nat in Hcontr
        by (simpl; lia).
      rewrite deltas_pair_l in Hcontr by lia.
      pose proof (backward_grad _ _ _ _ _ _ Hback Hs) as Hs2.
      rewrite decide_False, Hcontr, Hsg, accumulate_one in Hs2 by (unfold out; lia).
      eexists. split; [exact Hs2|]. split; [|done]. apply zero_add_idem. }
  (* every product is reachable and ends the pass with gradient [G] *)
  assert (HgP : forall j wj xj, m_w n !! j = Some wj -> x !! j = Some xj ->
    reachable h1 out (base + 2 * j)
    /\ exists v, h2 !! (base + 2 * j)%nat = Some v /\ m_grad v = G
                 /\ m_backward_fn v = FnMul wj xj (base + 2 * j)).
  { intros j wj xj Hwj Hxj.
    pose proof (lookup_lt_Some _ _ _ Hwj) as Hjn. fold N in Hjn.
    destruct (Hshape j wj Hwj)
      as (xj' & np & ns & Hxj' & Hp & Hpp & Hpf & Hpg & Hs & Hsp & Hsf & Hsg).
    rewrite Hxj in Hxj'. injection Hxj' as <-.
    destruct (HgS (N - 1 - j)%nat j) as (vs & Hvs & Hgvs & Hfvs); [lia|].
    assert (Hrp : reachable h1 out (base + 2 * j)).
    { eapply rtc_r; [apply (Hrs (N - 1 - j)%nat j); lia|].
      exists ns. split; [done|]. rewrite Hsp. apply std_set_pair. by right. }
    split; [done|].
    destruct (Hsingle (base + 2 * j)%nat (base + 2 * j + 1)%nat)
      as (vc & incs & Hvc & Hloc & Hcontr).
    { apply (Hrs (N - 1 - j)%nat j). lia. }
    { right. lia. }
    { intros y Hy Hop.
      destruct (Hnew y _ Hop Hy) as [(k & wk & xk & Hwk & Hxk & _ & [Heq|Heq])
                                    |[(k & Hk & -> & [Heq|Heq])|[_ Heq]]].
      - pose proof (Hpold wk (Hwpar k wk Hwk)). lia.
      - pose proof (Hxold k xk Hxk). lia.
      - destruct (Hchain k) as [[Hcb _]|(k' & -> & Hck)].
        + rewrite Hcb in Heq. pose proof (Hpold b Hbpar). lia.
        + rewrite Hck in Heq. lia.
      - f_equal. lia.
      - destruct (Hchain N) as [[Hcb _]|(k' & HN & Hck)].
        + rewrite Hcb in Heq. pose proof (Hpold b Hbpar). lia.
        + rewrite Hck in Heq. lia. }
    rewrite Hvs in Hvc. injection Hvc as <-.
    rewrite Hfvs, (local_add _ _ _ _ _ Hvs), Hgvs in Hloc. injection Hloc as <-.
    rewrite deltas_pair_r in Hcontr.
    2:{ destruct (Hchain j) as [[Hcb _]|(k' & _ & Hck)].
        - rewrite Hcb. pose proof (Hpold b Hbpar). lia.
        - rewrite Hck. lia. }
    pose proof (backward_grad _ _ _ _ _ _ Hback Hp) as Hp2.
    rewrite decide_False, Hcontr, Hpg, accumulate_one in Hp2 by (unfold out; lia).
    eexists. split; [exact Hp2|]. split; [|done]. apply zero_add_idem. }
  exists out, h1, tr, h2. split; [done|]. split.
  { unfold value_at. by rewrite Hout. }
  split; [done|]. split.
  - (* the bias *)
    intros vb Hvb. pose proof (Hold _ _ Hvb) as Hvb1.
    pose proof (Hpold b Hbpar) as Hbold.
    pose proof (backward_grad _ _ _ _ _ _ Hback Hvb1) as Hb2.
    rewrite decide_False in Hb2 by (unfold out; lia).
    destruct (decide (m_w n = [])) as [Hnil|Hcons].
    + assert (HN : N = 0%nat) by (unfold N; by rewrite Hnil).
      destruct (Hsingle b out) as (vc & incs & Hvc & Hloc & Hcontr).
      { apply rtc_refl. }
      { by left. }
      { intros y Hy Hop.
        destruct (Hnew y _ Hop Hy) as [(k & wk & xk & Hwk & _)
                                      |[(k & Hk & _)|[-> _]]]; [| |done].
        - apply lookup_lt_Some in Hwk. fold N in Hwk. lia.
        - lia. }
      rewrite Hout2 in Hvc. injection Hvc as <-.
      change (m_backward_fn (set_grad 1 no)) with (m_backward_fn no) in Hloc.
      rewrite Hfn, (local_tanh _ _ _ _ _ Hout2) in Hloc. injection Hloc as <-.
      change (m_grad (set_grad 1 no)) with 1 in Hcontr.
      replace (chain_ptr b base N) with b in Hcontr by (by rewrite HN).
      rewrite deltas_one in Hcontr.
      by rewrite Hb2, Hcontr, accumulate_one, mul_one.
    + assert (HN : (0 < N)%nat).
      { unfold N. destruct (m_w n); [done|simpl; lia]. }
      destruct (HgS (N - 1)%nat 0%nat) as (vs & Hvs & Hgvs & Hfvs); [lia|].
      destruct (Hsingle b (base + 2 * 0 + 1)%nat) as (vc & incs & Hvc & Hloc & Hcontr).
      { apply (Hrs (N - 1)%nat 0%nat). lia. }
      { by left. }
      { intros y Hy Hop.
        destruct (Hnew y _ Hop Hy) as [(k & wk & xk & Hwk & Hxk & _ & [Heq|Heq])
                                      |[(k & Hk & -> & [Heq|Heq])|[_ Heq]]].
        - exfalso. by apply (Hwb k wk).
        - exfalso. by apply (Hbx k xk).
        - destruct (Hchain k) as [[_ ->]|(k' & -> & Hck)]; [done|].
          rewrite Hck in Heq. lia.
        - lia.
        - destruct (Hchain N) as [[_ HN0]|(k' & _ & Hck)]; [lia|].
          rewrite Hck in Heq. lia. }
      rewrite Hvs in Hvc. injection Hvc as <-.
      rewrite Hfvs, (local_add _ _ _ _ _ Hvs), Hgvs in Hloc. injection Hloc as <-.
      change (chain_ptr b base 0) with b in Hcontr.
      rewrite deltas_pair_l in Hcontr by lia.
      by rewrite Hb2, Hcontr, accumulate_one, HG.
  - (* the weights *)
    intros i wi xi vw Hwi Hxi Hvw. pose proof (Hold _ _ Hvw) as Hvw1.
    pose proof (Hpold wi (Hwpar i wi Hwi)) as Hwold.
    pose proof (Hxold i xi Hxi) as Hxiold.
    destruct (lookup_lt_is_Some_2 h xi Hxiold) as [vx Hvx].
    pose proof (Hold _ _ Hvx) as Hvx1.
    destruct (HgP i wi xi Hwi Hxi) as (Hrp & vp & Hvp & Hgvp & Hfvp).
    destruct (Hsingle wi (base + 2 * i)%nat Hrp) as (vc & incs & Hvc & Hloc & Hcontr).
    { left. by apply (Hwpar i). }
    { intros y Hy Hop.
      destruct (Hnew y _ Hop Hy) as [(k & wk & xk & Hwk & Hxk & -> & [Heq|Heq])
                                    |[(k & Hk & _ & [Heq|Heq])|[_ Heq]]].
      - subst wk. by rewrite (Hwinj i k wi Hwi Hwk).
      - exfalso. by apply (Hwx i k wi xk).
      - exfalso. destruct (Hchain k) as [[Hcb _]|(k' & _ & Hck)].
        + rewrite Hcb in Heq. by apply (Hwb i wi).
        + rewrite Hck in Heq. lia.
      - lia.
      - exfalso. destruct (Hchain N) as [[Hcb _]|(k' & _ & Hck)].
        + rewrite Hcb in Heq. by apply (Hwb i wi).
        + rewrite Hck in Heq. lia. }
    rewrite Hvp in Hvc. injection Hvc as <-.
    pose proof (backward_grad _ _ _ _ _ _ Hback Hvw1) as Hw2.
    pose proof (backward_grad _ _ _ _ _ _ Hback Hvx1) as Hx2.
    rewrite Hfvp, (local_mul _ _ _ _ _ _ _ Hw2 Hx2 Hvp), Hgvp in Hloc.
    injection Hloc as <-.
    rewrite deltas_pair_l in Hcontr by (by apply (Hwx i i wi xi)).
    rewrite Hw2, Hcontr, accumulate_one, HG, decide_False by (unfold out; lia).
    unfold value_at. by rewrite Hvx.
Qed.

End Engine.

(** * The theorems at concrete inputs

    Each theorem with hypotheses is applied to a small heap built on the
    reference platform, its hypotheses discharged by evaluation. *)

Ltac built_from h c :=
  apply (built_call ref_less ref_tanh ref_exp ref_pow h c);
  [ | repeat constructor; unfold live; simpl; lia | reflexivity ].

Lemma backward_reverse_topological_witness :
  let h := [Value_leaf 2 "a"; Value_leaf (-3) "b";
            mkValue (-6) 0 "" "*" [0%nat; 1%nat] (FnMul 0 1 2);
            mkValue (-4) 0 "" "+" [0%nat; 2%nat] (FnAdd 2 0 3)] in
  built ref_less ref_tanh ref_exp ref_pow h /\ live h 3
  /\ exists tr h' (hs : list heap),
       backward ref_pow 3 h = Some (tr, h')
       /\ before (invoked tr) 3 0 /\ before (invoked tr) 2 0
       /\ length hs = S (length tr)
       /\ hs !! length tr = Some h'.
Proof.
  intros h.
  assert (Hb : built ref_less ref_tanh ref_exp ref_pow h).
  { built_from [Value_leaf 2 "a"; Value_leaf (-3) "b";
                mkValue (-6) 0 "" "*" [0%nat; 1%nat] (FnMul 0 1 2)] (CallAdd 2 0).
    built_from [Value_leaf 2 "a"; Value_leaf (-3) "b"] (CallMul 0 1).
    built_from [Value_leaf 2 "a"] (CallMakeValue (-3) "b").
    built_from (@nil Value) (CallMakeValue 2 "a").
    apply built_empty. }
  assert (Hl : live h 3) by (unfold live, h; simpl; lia).
  split; [exact Hb|]. split; [exact Hl|].
  destruct (backward_reverse_topological ref_less ref_tanh ref_exp ref_pow h 3 Hb Hl)
    as (tr & h' & hs & Hback & _ & _ & Hord & Hlen & _ & Hlast & _).
  exists tr, h', hs. split; [exact Hback|]. split; [|split; [|split; [exact Hlen|exact Hlast]]].
  - apply Hord; [apply rtc_refl|].
    eexists. split; [reflexivity|]. apply list_elem_of_here.
  - apply Hord.
    + eapply rtc_l; [|apply rtc_refl].
      eexists. split; [reflexivity|]. apply list_elem_of_further, list_elem_of_here.
    + eexists. split; [reflexivity|]. apply list_elem_of_here.
Defined.

Lemma backward_changes_gradients_only_witness :
  let h := [Value_leaf 2 "a"; Value_leaf (-3) "b";
            mkValue (-6) 0 "" "*" [0%nat; 1%nat] (FnMul 0 1 2)] in
  built ref_less ref_tanh ref_exp ref_pow h /\ live h 2
  /\ exists tr h' v',
       backward ref_pow 2 h = Some (tr, h')
       /\ h' !! 0%nat = Some v' /\ m_data v' = 2 /\ m_label v' = "a"
       /\ m_prev v' = [] /\ m_backward_fn v' = FnEmpty.
Proof.
  intros h.
  assert (Hb : built ref_less ref_tanh ref_exp ref_pow h).
  { built_from [Value_leaf 2 "a"; Value_leaf (-3) "b"] (CallMul 0 1).
    built_from [Value_leaf 2 "a"] (CallMakeValue (-3) "b").
    built_from (@nil Value) (CallMakeValue 2 "a").
    apply built_empty. }
  assert (Hl : live h 2) by (unfold live, h; simpl; lia).
  split; [exact Hb|]. split; [exact Hl|].
  destruct (backward_changes_gradients_only ref_less ref_tanh ref_exp ref_pow h 2 Hb Hl)
    as (tr & h' & Hback & _ & Hsame).
  destruct (Hsame 0%nat (Value_leaf 2 "a") eq_refl)
    as (v' & Hv' & Hd & Hlab & _ & Hprev & Hfn).
  exists tr, h', v'. repeat split; assumption.
Defined.

Lemma square_gradient_witness :
  let h := [Value_leaf 3 "a"] in
  built ref_less ref_tanh ref_exp ref_pow h
  /\ is_zero (m_grad (Value_leaf 3 "a")) = true
  /\ is_nan (m_data (Value_leaf 3 "a")) = false
  /\ exists b h0 tr h1 va',
       operator_mul ref_less 0 0 h = Some (b, h0)
       /\ backward ref_pow b h0 = Some (tr, h1)
       /\ h1 !! 0%nat = Some va'
       /\ (m_grad va' =? 2 * m_data va') = true.
Proof.
  intros h.
  assert (Hb : built ref_less ref_tanh ref_exp ref_pow h).
  { built_from (@nil Value) (CallMakeValue 3 "a"). apply built_empty. }
  split; [exact Hb|]. split; [reflexivity|]. split; [reflexivity|].
  destruct (square_gradient ref_less ref_tanh ref_exp ref_pow h 0 (Value_leaf 3 "a")
              Hb eq_refl eq_refl eq_refl)
    as (b & h0 & tr & h1 & va' & Hmul & Hback & _ & Ha & _ & Heq).
  exists b, h0, tr, h1, va'. repeat split; assumption.
Defined.

(** C2 as the design document states it, without the condition on the
    value, fails at a node whose value is NaN: the gradient is NaN as well,
    and [==] of two NaN is false. *)
Lemma square_gradient_nan :
  let h := [Value_leaf nan "a"] in
  built ref_less ref_tanh ref_exp ref_pow h
  /\ h !! 0%nat = Some (Value_leaf nan "a")
  /\ is_zero (m_grad (Value_leaf nan "a")) = true
  /\ exists b h0 tr h1 va',
       operator_mul ref_less 0 0 h = Some (b, h0)
       /\ backward ref_pow b h0 = Some (tr, h1)
       /\ h1 !! 0%nat = Some va'
       /\ is_nan (m_grad va') = true
       /\ (m_grad va' =? 2 * m_data va') = false.
Proof.
  intros h. split.
  { built_from (@nil Value) (CallMakeValue nan "a"). apply built_empty. }
  split; [reflexivity|]. split; [reflexivity|].
  eexists _, _, _, _, _. split; [reflexivity|]. split; [vm_compute; reflexivity|].
  split; [reflexivity|]. split; reflexivity.
Qed.

Lemma shared_operand_collapses_witness :
  let h := [Value_leaf 3 "a"] in
  built ref_less ref_tanh ref_exp ref_pow h
  /\ exists c h0 nc tr h1 va',
       operator_add ref_less 0 0 h = Some (c, h0)
       /\ h0 !! c = Some nc /\ length (m_prev nc) = 1%nat
       /\ backward ref_pow c h0 = Some (tr, h1)
       /\ contributions 0 tr = [1; 1]
       /\ h1 !! 0%nat = Some va' /\ m_grad va' = 2.
Proof.
  intros h.
  assert (Hb : built ref_less ref_tanh ref_exp ref_pow h).
  { built_from (@nil Value) (CallMakeValue 3 "a"). apply built_empty. }
  split; [exact Hb|].
  destruct (shared_operand_collapses ref_less ref_tanh ref_exp ref_pow h 0
              (Value_leaf 3 "a") Hb eq_refl)
    as [(c & h0 & nc & tr & h1 & va' & Hadd & Hc & _ & Hlen & _ & Hback & Hcontr & Ha & Hg) _].
  exists c, h0, nc, tr, h1, va'. repeat split; assumption.
Defined.

Lemma tanh_gradient_witness :
  let h := [Value_leaf 0.5 "a"] in
  built ref_less ref_tanh ref_exp ref_pow h
  /\ is_finite (m_data (Value_leaf 0.5 "a")) = true
  /\ is_nan (ref_tanh (m_data (Value_leaf 0.5 "a"))) = false
  /\ exists f h0 nf tr h1 va',
       tanh ref_less ref_tanh 0 h = Some (f, h0)
       /\ h0 !! f = Some nf /\ m_data nf = ref_tanh 0.5
       /\ backward ref_pow f h0 = Some (tr, h1)
       /\ h1 !! 0%nat = Some va'
       /\ (m_grad va' =? 1 - m_data nf * m_data nf) = true.
Proof.
  intros h.
  assert (Hb : built ref_less ref_tanh ref_exp ref_pow h).
  { built_from (@nil Value) (CallMakeValue 0.5 "a"). apply built_empty. }
  split; [exact Hb|]. split; [reflexivity|]. split; [reflexivity|].
  destruct (tanh_gradient ref_less ref_tanh ref_exp ref_pow h 0 (Value_leaf 0.5 "a")
              Hb eq_refl eq_refl eq_refl eq_refl)
    as (f & h0 & nf & tr & h1 & va' & nf' & Htanh & Hf & Hd & Hback & Ha & _ & Hd' & Heq).
  exists f, h0, nf, tr, h1, va'. rewrite Hd' in Heq. repeat split; assumption.
Defined.

Lemma division_scenario_witness :
  let h := [Value_leaf 8 "g"; Value_leaf 2 "h"] in
  built ref_less ref_tanh ref_exp ref_pow h
  /\ ref_pow 2 (-1) = 0.5 /\ ref_pow 2 (-2) = 0.25
  /\ exists i h1 ni tr h2 vg' vd',
       operator_div ref_less ref_pow 0 1 h = Some (i, h1)
       /\ h1 !! i = Some ni /\ m_data ni = 4
       /\ backward ref_pow i h1 = Some (tr, h2)
       /\ h2 !! 0%nat = Some vg' /\ m_grad vg' = 0.5
       /\ h2 !! 1%nat = Some vd' /\ m_grad vd' = -2.
Proof.
  intros h.
  assert (Hb : built ref_less ref_tanh ref_exp ref_pow h).
  { built_from [Value_leaf 8 "g"] (CallMakeValue 2 "h").
    built_from (@nil Value) (CallMakeValue 8 "g").
    apply built_empty. }
  split; [exact Hb|]. split; [reflexivity|]. split; [reflexivity|].
  destruct (division_scenario ref_less ref_tanh ref_exp ref_pow h 0 1
              (Value_leaf 8 "g") (Value_leaf 2 "h") Hb eq_refl eq_refl
              (conj eq_refl eq_refl) (conj eq_refl eq_refl)
              eq_refl eq_refl eq_refl eq_refl eq_refl eq_refl)
    as (i & h1 & ni & tr & h2 & vg' & vd' & _ & Hdiv & Hi & Hdi & Hback & Hg & Hgg & Hd & Hgd).
  exists i, h1, ni, tr, h2, vg', vd'. repeat split; assumption.
Defined.

Lemma mixed_scalar_forms_witness :
  let h := [Value_leaf 5 "j"] in
  built ref_less ref_tanh ref_exp ref_pow h
  /\ exists k h0 nk tr h1 vj',
       operator_add_double ref_less 0 10 h = Some (k, h0)
       /\ h0 !! k = Some nk /\ m_data nk = 15
       /\ backward ref_pow k h0 = Some (tr, h1)
       /\ h1 !! 0%nat = Some vj' /\ m_grad vj' = 1.
Proof.
  intros h.
  assert (Hb : built ref_less ref_tanh ref_exp ref_pow h).
  { built_from (@nil Value) (CallMakeValue 5 "j"). apply built_empty. }
  split; [exact Hb|].
  destruct (mixed_scalar_forms ref_less ref_tanh ref_exp ref_pow)
    as (_ & _ & _ & _ & _ & _ & _ & Hscenario).
  exact (Hscenario h 0%nat (Value_leaf 5 "j") Hb eq_refl (conj eq_refl eq_refl)
           eq_refl eq_refl).
Defined.

Lemma operators_total_and_propagate_witness :
  let h := [Value_leaf 8 "g"; Value_leaf 0 "z"; Value_leaf (-8) "b";
            mkValue 0 0 "" "*" [0%nat; 1%nat] (FnMul 0 1 3)] in
  built ref_less ref_tanh ref_exp ref_pow h
  /\ is_finite (ref_pow 0 (-1)) = false /\ is_finite (ref_pow 0 (-1 - 1)) = false
  /\ is_nan (ref_pow (-8) 0.5) = true /\ is_nan (ref_pow (-8) (0.5 - 1)) = true
  /\ returns_node (operator_div ref_less ref_pow 0 1) h
  /\ (exists i h1 ni tr h2 vg' vz',
        operator_div ref_less ref_pow 0 3 h = Some (i, h1)
        /\ h1 !! i = Some ni /\ is_finite (m_data ni) = false
        /\ backward ref_pow i h1 = Some (tr, h2)
        /\ h2 !! 0%nat = Some vg' /\ is_finite (m_grad vg') = false
        /\ h2 !! 3%nat = Some vz' /\ is_finite (m_grad vz') = false)
  /\ (exists o h0 no tr h1 vb',
        pow ref_less ref_pow 2 0.5 h = Some (o, h0)
        /\ h0 !! o = Some no /\ is_finite (m_data no) = false
        /\ backward ref_pow o h0 = Some (tr, h1)
        /\ h1 !! 2%nat = Some vb' /\ is_finite (m_grad vb') = false).
Proof.
  intros h.
  assert (Hb : built ref_less ref_tanh ref_exp ref_pow h).
  { built_from [Value_leaf 8 "g"; Value_leaf 0 "z"; Value_leaf (-8) "b"] (CallMul 0 1).
    built_from [Value_leaf 8 "g"; Value_leaf 0 "z"] (CallMakeValue (-8) "b").
    built_from [Value_leaf 8 "g"] (CallMakeValue 0 "z").
    built_from (@nil Value) (CallMakeValue 8 "g").
    apply built_empty. }
  split; [exact Hb|]. do 4 (split; [reflexivity|]).
  destruct (operators_total_and_propagate ref_less ref_tanh ref_exp ref_pow)
    as (Htotal & Hzero & Hneg).
  split; [|split].
  - apply (Htotal h 0%nat 1%nat 0 Hb); unfold live, h; simpl; lia.
  - exact (Hzero h 0%nat 3%nat (Value_leaf 8 "g")
             (mkValue 0 0 "" "*" [0%nat; 1%nat] (FnMul 0 1 3)) Hb
             eq_refl eq_refl eq_refl eq_refl eq_refl).
  - destruct (Hneg h 2%nat (Value_leaf (-8) "b") 0.5 Hb eq_refl eq_refl eq_refl)
      as (o & h0 & no & tr & h1 & vb' & Hpow & Ho & _ & Hnf & Hback & Hb1 & _ & Hprop).
    exists o, h0, no, tr, h1, vb'. split; [exact Hpow|]. split; [exact Ho|].
    split; [exact Hnf|]. split; [exact Hback|]. split; [exact Hb1|].
    exact (Hprop eq_refl).
Defined.

(** C6 as the design document states it fails for [pow]: a negative base
    with a non-integer exponent gives a NaN value, but [backward] need not
    carry it into a gradient.  For the exponent 2^-60 the lambda computes
    [exp_val - 1 == -1.0], and [std::pow(-2, -1) == -0.5], so the gradient of
    the base is the finite number -2^-61.  ([ref_pow] agrees with [std::pow]
    at both arguments: NaN at (-2, 2^-60) and -0.5 at (-2, -1).) *)
Lemma power_nan_leaves_finite_gradient :
  let h := [Value_leaf (-2) "b"] in
  built ref_less ref_tanh ref_exp ref_pow h
  /\ (m_data (Value_leaf (-2) "b") <? 0) = true
  /\ is_nan (ref_pow (-2) 0x1p-60) = true
  /\ 0x1p-60 - 1 = -1 /\ ref_pow (-2) (-1) = -0.5
  /\ exists o h0 no tr h1 vb',
       pow ref_less ref_pow 0 0x1p-60 h = Some (o, h0)
       /\ h0 !! o = Some no /\ is_nan (m_data no) = true
       /\ backward ref_pow o h0 = Some (tr, h1)
       /\ h1 !! 0%nat = Some vb'
       /\ m_grad vb' = -0x1p-61 /\ is_finite (m_grad vb') = true.
Proof.
  intros h. split.
  { built_from (@nil Value) (CallMakeValue (-2) "b"). apply built_empty. }
  do 4 (split; [reflexivity|]).
  exists 1%nat, (h ++ [mkValue nan 0 "" "pow" [0%nat] (FnPow 0 0x1p-60 1)]).
  eexists _, _, _, _. split; [vm_compute; reflexivity|]. split; [reflexivity|].
  split; [reflexivity|]. split; [vm_compute; reflexivity|].
  split; [reflexivity|]. split; reflexivity.
Qed.

Lemma backward_twice_accumulates_witness :
  let h := [Value_leaf 2 "a"; Value_leaf 3 "b"] in
  built ref_less ref_tanh ref_exp ref_pow h
  /\ exists c h0 tr1 h1 tr2 h2 va' vb' vc',
       operator_add ref_less 0 1 h = Some (c, h0)
       /\ backward ref_pow c h0 = Some (tr1, h1)
       /\ backward ref_pow c h1 = Some (tr2, h2)
       /\ h2 !! 0%nat = Some va' /\ m_grad va' = 2
       /\ h2 !! 1%nat = Some vb' /\ m_grad vb' = 2
       /\ h2 !! c = Some vc' /\ m_grad vc' = 1.
Proof.
  intros h.
  assert (Hb : built ref_less ref_tanh ref_exp ref_pow h).
  { built_from [Value_leaf 2 "a"] (CallMakeValue 3 "b").
    built_from (@nil Value) (CallMakeValue 2 "a").
    apply built_empty. }
  split; [exact Hb|].
  destruct (backward_twice_accumulates ref_less ref_tanh ref_exp ref_pow) as [_ Hsum].
  apply (Hsum h 0%nat 1%nat (Value_leaf 2 "a") (Value_leaf 3 "b") Hb);
    try reflexivity; try (split; reflexivity). discriminate.
Defined.

Lemma gradient_writers_witness :
  let h := [Value_leaf 1 "v"; mkValue 2 7 "w" "" [] FnEmpty] in
  built ref_less ref_tanh ref_exp ref_pow h
  /\ Forall (live h) (call_args (CallSetGrad 0 2.3))
  /\ Forall (live h) (client_args (CallCopyAssign 0 1))
  /\ (exists h',
        run ref_less ref_tanh ref_exp ref_pow ref_moved (Named (CallSetGrad 0 2.3)) h
        = Some (tt, h'))
  /\ (exists h',
        run ref_less ref_tanh ref_exp ref_pow ref_moved (CallCopyAssign 0 1) h
        = Some (tt, h')
        /\ forall v', h' !! 0%nat = Some v' ->
             m_grad v' = 0
             \/ exists q vq, h !! q = Some vq /\ m_grad v' = m_grad vq).
Proof.
  intros h.
  assert (Hb : built ref_less ref_tanh ref_exp ref_pow h).
  { built_from [Value_leaf 1 "v"; Value_leaf 2 "w"] (CallSetGrad 1 7).
    built_from [Value_leaf 1 "v"] (CallMakeValue 2 "w").
    built_from (@nil Value) (CallMakeValue 1 "v"). apply built_empty. }
  assert (Hl : Forall (live h) (call_args (CallSetGrad 0 2.3))).
  { repeat constructor; unfold live; simpl; lia. }
  assert (Hl' : Forall (live h) (client_args (CallCopyAssign 0 1))).
  { repeat constructor; unfold live; simpl; lia. }
  split; [exact Hb|]. split; [exact Hl|]. split; [exact Hl'|].
  destruct (gradient_writers ref_less ref_tanh ref_exp ref_pow ref_moved)
    as (Hnamed & Hspecial & Heffect).
  split; [exact (Hnamed (CallSetGrad 0 2.3) h Hb Hl)|].
  destruct (Hspecial 0%nat 1%nat h) as ([h' Hrun] & _);
    [unfold live; simpl; lia|unfold live; simpl; lia|].
  exists h'. split; [exact Hrun|]. intros v' Hv'.
  destruct (Heffect (CallCopyAssign 0 1) h h' Hl' Hrun) as [_ Hold].
  destruct (Hold 0%nat (Value_leaf 1 "v") v' eq_refl Hv')
    as [Hsame|[(d & Hc & _)|[(Hc & _)|[(g & Hc & _)|[(root & tr & Hc & _)|Hassign]]]]];
    try discriminate Hc.
  - left. exact Hsame.
  - destruct Hassign as (q & vq & _ & Hq & Hg). right. exists q, vq. split; assumption.
Defined.

(** C8 as the design document states it fails: [set_grad] is public and
    stores whatever value it is given.  On a node whose gradient is NaN,
    [set_grad(2.3)] leaves 2.3, which is neither 0 nor the old gradient
    plus increments. *)
Lemma set_grad_overwrites :
  let h := [mkValue 1 nan "v" "" [] FnEmpty] in
  built ref_less ref_tanh ref_exp ref_pow h
  /\ (forall g, exists h' v',
        exec ref_less ref_tanh ref_exp ref_pow (CallSetGrad 0 g) h = Some (tt, h')
        /\ h' !! 0%nat = Some v' /\ m_grad v' = g)
  /\ (exists h' v',
        exec ref_less ref_tanh ref_exp ref_pow (CallSetGrad 0 2.3) h = Some (tt, h')
        /\ h' !! 0%nat = Some v' /\ m_grad v' = 2.3
        /\ (m_grad v' =? 0) = false
        /\ forall ds, m_grad v' <> accumulate nan ds).
Proof.
  intros h. split; [|split].
  - built_from [Value_leaf 1 "v"] (CallAddToGrad 0 nan).
    built_from (@nil Value) (CallMakeValue 1 "v"). apply built_empty.
  - intros g. eexists _, _. split; [reflexivity|]. split; reflexivity.
  - eexists _, _. split; [reflexivity|]. split; [reflexivity|]. split; [reflexivity|].
    split; [reflexivity|]. simpl. intros ds Heq.
    pose proof (accumulate_not_finite nan ds eq_refl) as Hnf.
    rewrite <- Heq in Hnf. discriminate.
Qed.

(** * The further properties at concrete inputs *)

Lemma backward_skips_unreachable_witness :
  let h := [Value_leaf 1 "a"; Value_leaf 2 "b";
            mkValue 2 0 "" "+" [0%nat] (FnAdd 0 0 2)] in
  built ref_less ref_tanh ref_exp ref_pow h /\ live h 2
  /\ ~ reachable h 2 1
  /\ exists tr h',
       backward ref_pow 2 h = Some (tr, h')
       /\ h' !! 1%nat = Some (Value_leaf 2 "b").
Proof.
  intros h.
  assert (Hb : built ref_less ref_tanh ref_exp ref_pow h).
  { built_from [Value_leaf 1 "a"; Value_leaf 2 "b"] (CallAdd 0 0).
    built_from [Value_leaf 1 "a"] (CallMakeValue 2 "b").
    built_from (@nil Value) (CallMakeValue 1 "a").
    apply built_empty. }
  assert (Hl : live h 2) by (unfold live, h; simpl; lia).
  assert (Hnr : ~ reachable h 2 1).
  { intros Hr. apply reachable_inv in Hr as [Heq|(c & (v & Hv & Hc) & Hr)]; [discriminate|].
    injection Hv as <-. apply list_elem_of_singleton in Hc as ->.
    by apply (leaf_reachable h 0 (Value_leaf 1 "a") 1 eq_refl eq_refl) in Hr. }
  split; [exact Hb|]. split; [exact Hl|]. split; [exact Hnr|].
  destruct (backward_skips_unreachable ref_less ref_tanh ref_exp ref_pow h 2 1
              (Value_leaf 2 "b") Hb Hl eq_refl Hnr)
    as (tr & h' & Hback & _ & _ & Hsame).
  exists tr, h'. split; assumption.
Defined.

Lemma backward_reads_final_gradients_witness :
  let h := [Value_leaf 3 "a"; Value_leaf 4 "b";
            mkValue 12 0 "" "*" [0%nat; 1%nat] (FnMul 0 1 2)] in
  built ref_less ref_tanh ref_exp ref_pow h /\ live h 2
  /\ exists tr h',
       backward ref_pow 2 h = Some (tr, h')
       /\ Forall (fun r => exists vc, h' !! r.1 = Some vc
                    /\ local_increments ref_pow h' (m_backward_fn vc) = Some r.2) tr.
Proof.
  intros h.
  assert (Hb : built ref_less ref_tanh ref_exp ref_pow h).
  { built_from [Value_leaf 3 "a"; Value_leaf 4 "b"] (CallMul 0 1).
    built_from [Value_leaf 3 "a"] (CallMakeValue 4 "b").
    built_from (@nil Value) (CallMakeValue 3 "a").
    apply built_empty. }
  assert (Hl : live h 2) by (unfold live, h; simpl; lia).
  split; [exact Hb|]. split; [exact Hl|].
  destruct (backward_reads_final_gradients ref_less ref_tanh ref_exp ref_pow h 2 Hb Hl)
    as (tr & h' & Hback & Hfinal & _).
  exists tr, h'. split; assumption.
Defined.

Lemma product_rule_witness :
  let h := [Value_leaf 3 "a"; Value_leaf 4 "b"] in
  built ref_less ref_tanh ref_exp ref_pow h
  /\ ~ reachable h 1 0 /\ ~ reachable h 0 1
  /\ exists c h0 nc tr h1,
       operator_mul ref_less 0 1 h = Some (c, h0)
       /\ h0 !! c = Some nc /\ m_data nc = 12
       /\ backward ref_pow c h0 = Some (tr, h1)
       /\ h1 !! 0%nat = Some (set_grad 4 (Value_leaf 3 "a"))
       /\ h1 !! 1%nat = Some (set_grad 3 (Value_leaf 4 "b")).
Proof.
  intros h.
  assert (Hb : built ref_less ref_tanh ref_exp ref_pow h).
  { built_from [Value_leaf 3 "a"] (CallMakeValue 4 "b").
    built_from (@nil Value) (CallMakeValue 3 "a").
    apply built_empty. }
  assert (Hba : ~ reachable h 1 0).
  { intros Hr. by apply (leaf_reachable h 1 (Value_leaf 4 "b") 0 eq_refl eq_refl) in Hr. }
  assert (Hab : ~ reachable h 0 1).
  { intros Hr. by apply (leaf_reachable h 0 (Value_leaf 3 "a") 1 eq_refl eq_refl) in Hr. }
  split; [exact Hb|]. split; [exact Hba|]. split; [exact Hab|].
  destruct (product_rule ref_less ref_tanh ref_exp ref_pow h 0 1
              (Value_leaf 3 "a") (Value_leaf 4 "b") Hb ltac:(discriminate) eq_refl eq_refl)
    as (c & h0 & nc & tr & h1 & Hmul & Hc & Hd & Hback & Hga & Hgb).
  exists c, h0, nc, tr, h1.
  split; [exact Hmul|]. split; [exact Hc|]. split; [exact Hd|]. split; [exact Hback|].
  split; [exact (Hga Hba)|exact (Hgb Hab)].
Defined.

Lemma set_data_after_product_witness :
  let h := [Value_leaf 3 "a"; Value_leaf 4 "b"] in
  built ref_less ref_tanh ref_exp ref_pow h
  /\ ~ reachable h 0 1
  /\ exists c h0 h1 nc tr h2,
       operator_mul ref_less 0 1 h = Some (c, h0)
       /\ exec ref_less ref_tanh ref_exp ref_pow (CallSetData 0 10) h0 = Some (tt, h1)
       /\ h1 !! c = Some nc /\ m_data nc = 12
       /\ backward ref_pow c h1 = Some (tr, h2)
       /\ h2 !! 1%nat = Some (set_grad 10 (Value_leaf 4 "b")).
Proof.
  intros h.
  assert (Hb : built ref_less ref_tanh ref_exp ref_pow h).
  { built_from [Value_leaf 3 "a"] (CallMakeValue 4 "b").
    built_from (@nil Value) (CallMakeValue 3 "a").
    apply built_empty. }
  assert (Hab : ~ reachable h 0 1).
  { intros Hr. by apply (leaf_reachable h 0 (Value_leaf 3 "a") 1 eq_refl eq_refl) in Hr. }
  split; [exact Hb|]. split; [exact Hab|].
  exact (set_data_after_product ref_less ref_tanh ref_exp ref_pow h 0 1
           (Value_leaf 3 "a") (Value_leaf 4 "b") 10 Hb ltac:(discriminate)
           eq_refl eq_refl Hab).
Defined.

Lemma exp_gradient_witness :
  let h := [Value_leaf 1 "a"] in
  built ref_less ref_tanh ref_exp ref_pow h
  /\ exists e h0 ne tr h1,
       exp ref_less ref_exp 0 h = Some (e, h0)
       /\ h0 !! e = Some ne /\ m_data ne = ref_exp 1
       /\ backward ref_pow e h0 = Some (tr, h1)
       /\ h1 !! 0%nat = Some (set_grad (0 + ref_exp 1 * 1) (Value_leaf 1 "a")).
Proof.
  intros h.
  assert (Hb : built ref_less ref_tanh ref_exp ref_pow h).
  { built_from (@nil Value) (CallMakeValue 1 "a"). apply built_empty. }
  split; [exact Hb|].
  destruct (exp_gradient ref_less ref_tanh ref_exp ref_pow h 0 (Value_leaf 1 "a") Hb eq_refl)
    as (e & h0 & ne & tr & h1 & Hexp & He & Hd & Hback & _ & Hg).
  exists e, h0, ne, tr, h1. repeat split; assumption.
Defined.

Lemma pow_gradient_witness :
  let h := [Value_leaf 4 "b"] in
  built ref_less ref_tanh ref_exp ref_pow h
  /\ exists o h0 no tr h1,
       pow ref_less ref_pow 0 0.5 h = Some (o, h0)
       /\ h0 !! o = Some no /\ m_data no = 2
       /\ backward ref_pow o h0 = Some (tr, h1)
       /\ h1 !! 0%nat = Some (set_grad 0.25 (Value_leaf 4 "b")).
Proof.
  intros h.
  assert (Hb : built ref_less ref_tanh ref_exp ref_pow h).
  { built_from (@nil Value) (CallMakeValue 4 "b"). apply built_empty. }
  split; [exact Hb|].
  exact (pow_gradient ref_less ref_tanh ref_exp ref_pow h 0 0.5 (Value_leaf 4 "b")
           Hb eq_refl).
Defined.

Lemma subtraction_gradients_witness :
  let h := [Value_leaf 5 "a"; Value_leaf 3 "b"] in
  built ref_less ref_tanh ref_exp ref_pow h
  /\ ~ reachable h 1 0 /\ ~ reachable h 0 1
  /\ exists c h1 nc tr h2,
       operator_sub ref_less 0 1 h = Some (c, h1)
       /\ length h1 = 5%nat
       /\ h1 !! c = Some nc /\ m_data nc = 2
       /\ backward ref_pow c h1 = Some (tr, h2)
       /\ h2 !! 0%nat = Some (set_grad 1 (Value_leaf 5 "a"))
       /\ h2 !! 1%nat = Some (set_grad (-1) (Value_leaf 3 "b")).
Proof.
  intros h.
  assert (Hb : built ref_less ref_tanh ref_exp ref_pow h).
  { built_from [Value_leaf 5 "a"] (CallMakeValue 3 "b").
    built_from (@nil Value) (CallMakeValue 5 "a").
    apply built_empty. }
  assert (Hba : ~ reachable h 1 0).
  { intros Hr. by apply (leaf_reachable h 1 (Value_leaf 3 "b") 0 eq_refl eq_refl) in Hr. }
  assert (Hab : ~ reachable h 0 1).
  { intros Hr. by apply (leaf_reachable h 0 (Value_leaf 5 "a") 1 eq_refl eq_refl) in Hr. }
  split; [exact Hb|]. split; [exact Hba|]. split; [exact Hab|].
  destruct (subtraction_gradients ref_less ref_tanh ref_exp ref_pow h 0 1
              (Value_leaf 5 "a") (Value_leaf 3 "b") Hb ltac:(discriminate) eq_refl eq_refl)
    as (c & h1 & nc & tr & h2 & Hsub & Hlen & Hc & Hd & Hback & Hga & Hgb).
  exists c, h1, nc, tr, h2.
  split; [exact Hsub|]. split; [exact Hlen|]. split; [exact Hc|]. split; [exact Hd|].
  split; [exact Hback|]. split; [exact (Hga Hba)|exact (Hgb Hab)].
Defined.

Lemma calls_append_witness :
  let h := [Value_leaf 8 "g"; Value_leaf 2 "h"] in
  built ref_less ref_tanh ref_exp ref_pow h
  /\ Forall (live h) (call_args (CallDiv 0 1))
  /\ has_body (CallDiv 0 1) = true
  /\ exists h',
       exec ref_less ref_tanh ref_exp ref_pow (CallDiv 0 1) h = Some (tt, h')
       /\ length h' = 4%nat
       /\ exists l, h' = h ++ l.
Proof.
  intros h.
  assert (Hb : built ref_less ref_tanh ref_exp ref_pow h).
  { built_from [Value_leaf 8 "g"] (CallMakeValue 2 "h").
    built_from (@nil Value) (CallMakeValue 8 "g").
    apply built_empty. }
  assert (Hl : Forall (live h) (call_args (CallDiv 0 1))).
  { repeat constructor; unfold live; simpl; lia. }
  split; [exact Hb|]. split; [exact Hl|]. split; [reflexivity|].
  destruct (calls_append ref_less ref_tanh ref_exp ref_pow (CallDiv 0 1) h Hb Hl eq_refl)
    as (h' & Hexec & Hlen & Happ).
  exists h'. split; [exact Hexec|]. split; [exact Hlen|]. apply Happ. discriminate.
Defined.

Lemma neuron_forward_witness :
  let h := [Value_leaf 0.5 ""; Value_leaf 0 ""; Value_leaf 2 "x"] in
  let n := mkNeuron [0%nat] 1 in
  Forall (live h) (Neuron_parameters n) /\ Forall (live h) [2%nat]
  /\ (length (m_w n) <= length [2%nat])%nat
  /\ exists out l,
       Neuron_call ref_less ref_tanh n [2%nat] h = Some (out, h ++ l)
       /\ length l = 3%nat /\ out = 5%nat
       /\ value_at (h ++ l) out = ref_tanh (0 + 0.5 * 2).
Proof.
  intros h n.
  assert (Hp : Forall (live h) (Neuron_parameters n)).
  { repeat constructor; unfold live; simpl; lia. }
  assert (Hx : Forall (live h) [2%nat]).
  { repeat constructor; unfold live; simpl; lia. }
  assert (Hlen : (length (m_w n) <= length [2%nat])%nat) by (simpl; lia).
  split; [exact Hp|]. split; [exact Hx|]. split; [exact Hlen|].
  exact (neuron_forward ref_less ref_tanh n [2%nat] h Hp Hx Hlen).
Defined.

Lemma neuron_forward_short_input_witness :
  let h := [Value_leaf 0.5 ""; Value_leaf 0 ""] in
  let n := mkNeuron [0%nat] 1 in
  (length (@nil ValuePtr) < length (m_w n))%nat
  /\ Neuron_call ref_less ref_tanh n [] h = None.
Proof.
  intros h n.
  assert (Hlen : (length (@nil ValuePtr) < length (m_w n))%nat) by (simpl; lia).
  split; [exact Hlen|].
  exact (neuron_forward_short_input ref_less ref_tanh n [] h Hlen).
Defined.


Lemma mlp_forward_witness :
  let h := mlp_leaves ref_gen 1 [2%Z; 1%Z] 0 ++ [Value_leaf 2 "x"] in
  let m := mkMLP (mlp_layers 1 [2%Z; 1%Z] 0) in
  Forall (live h) (MLP_parameters m) /\ Forall (live h) [7%nat]
  /\ chained (length [7%nat]) (m_layers m)
  /\ exists outs new,
       MLP_call ref_less ref_tanh m [7%nat] h = Some (outs, h ++ new)
       /\ length outs = 1%nat
       /\ value_at (h ++ new) <$> outs
          = [ref_tanh (0 + 0.5 * ref_tanh (0 + 0.5 * 2)
                         + -0.25 * ref_tanh (0 + -0.25 * 2))]
       /\ length new = 11%nat
       /\ Forall (fun o => (length h <= o)%nat) outs.
Proof.
  intros h m.
  assert (Hp : Forall (live h) (MLP_parameters m)).
  { repeat constructor; unfold live; simpl; lia. }
  assert (Hx : Forall (live h) [7%nat]).
  { repeat constructor; unfold live; simpl; lia. }
  assert (Hch : chained (length [7%nat]) (m_layers m)).
  { simpl. repeat split; repeat constructor. }
  split; [exact Hp|]. split; [exact Hx|]. split; [exact Hch|].
  destruct (mlp_forward ref_less ref_tanh m [7%nat] h Hp Hx Hch)
    as (outs & new & Hcall & Hn & _ & Hval & Hnodes & Hnew & _).
  exists outs, new. split; [exact Hcall|]. split; [exact Hn|].
  split; [exact Hval|]. split; [exact Hnodes|]. apply Hnew. discriminate.
Defined.

Lemma mlp_zero_grad_witness :
  let h := (set_grad 3 <$> mlp_leaves ref_gen 1 [2%Z; 1%Z] 0) ++ [set_grad 5 (Value_leaf 2 "x")] in
  let m := mkMLP (mlp_layers 1 [2%Z; 1%Z] 0) in
  Forall (live h) (MLP_parameters m)
  /\ exists h',
       MLP_zero_grad m h = Some (tt, h')
       /\ h' !! 0%nat = Some (Value_leaf 0.5 "")
       /\ h' !! 7%nat = Some (set_grad 5 (Value_leaf 2 "x")).
Proof.
  intros h m.
  assert (Hp : Forall (live h) (MLP_parameters m)).
  { repeat constructor; unfold live; simpl; lia. }
  split; [exact Hp|].
  destruct (mlp_zero_grad m h Hp) as (h' & Hz & _ & Hpar & Hrest).
  exists h'. split; [exact Hz|]. split.
  - apply (Hpar 0%nat (set_grad 3 (Value_leaf 0.5 "")) eq_refl).
    apply list_elem_of_here.
  - apply (Hrest 7%nat _ eq_refl). intros Hin.
    repeat (apply elem_of_cons in Hin as [Heq|Hin]; [discriminate|]).
    by apply not_elem_of_nil in Hin.
Defined.

Lemma neuron_gradients_witness :
  let h := [Value_leaf 0.5 ""; Value_leaf 0 ""; Value_leaf 2 "x"] in
  let n := mkNeuron [0%nat] 1 in
  let t := neuron_value ref_tanh h n [2%nat] in
  built ref_less ref_tanh ref_exp ref_pow h
  /\ NoDup (Neuron_parameters n)
  /\ exists out h1 tr h2,
       Neuron_call ref_less ref_tanh n [2%nat] h = Some (out, h1)
       /\ backward ref_pow out h1 = Some (tr, h2)
       /\ h2 !! 1%nat = Some (set_grad (0 + (1 - t * t)) (Value_leaf 0 ""))
       /\ h2 !! 0%nat = Some (set_grad (0 + 2 * (1 - t * t)) (Value_leaf 0.5 "")).
Proof.
  intros h n t.
  assert (Hb : built ref_less ref_tanh ref_exp ref_pow h).
  { built_from [Value_leaf 0.5 ""; Value_leaf 0 ""] (CallMakeValue 2 "x").
    built_from [Value_leaf 0.5 ""] (CallMakeValue 0 "").
    built_from (@nil Value) (CallMakeValue 0.5 "").
    apply built_empty. }
  assert (Hleaf : Forall (fun p => exists v, h !! p = Some v /\ m_prev v = [])
                    (Neuron_parameters n)).
  { repeat constructor; eexists; split; reflexivity. }
  assert (Hnd : NoDup (Neuron_parameters n)).
  { apply NoDup_cons. split; [|apply NoDup_singleton].
    intros Hin. apply list_elem_of_singleton in Hin. discriminate. }
  assert (Hx : Forall (live h) [2%nat]).
  { repeat constructor; unfold live; simpl; lia. }
  assert (Hlen : (length (m_w n) <= length [2%nat])%nat) by (simpl; lia).
  assert (Hsep : forall xi p, xi ∈ [2%nat] -> p ∈ Neuron_parameters n -> ~ reachable h xi p).
  { intros xi p Hxi Hp Hr. apply list_elem_of_singleton in Hxi as ->.
    apply (leaf_reachable h 2 (Value_leaf 2 "x") p eq_refl eq_refl) in Hr as ->.
    apply elem_of_cons in Hp as [Heq|Hp]; [discriminate|].
    apply list_elem_of_singleton in Hp. discriminate. }
  split; [exact Hb|]. split; [exact Hnd|].
  destruct (neuron_gradients ref_less ref_tanh ref_exp ref_pow n [2%nat] h
              Hb Hleaf Hnd Hx Hlen Hsep)
    as (out & h1 & tr & h2 & Hcall & _ & Hback & Hbias & Hw).
  exists out, h1, tr, h2. split; [exact Hcall|]. split; [exact Hback|]. split.
  - exact (Hbias (Value_leaf 0 "") eq_refl).
  - exact (Hw 0%nat 0%nat 2%nat (Value_leaf 0.5 "") eq_refl eq_refl eq_refl).
Defined.

Lemma division_gradients_witness :
  let h := [Value_leaf 6 "g"; Value_leaf 4 "d"] in
  built ref_less ref_tanh ref_exp ref_pow h
  /\ exists i h1 ni tr h2,
       operator_div ref_less ref_pow 0 1 h = Some (i, h1)
       /\ h1 !! i = Some ni /\ m_data ni = 1.5
       /\ backward ref_pow i h1 = Some (tr, h2)
       /\ h2 !! 0%nat = Some (set_grad 0.25 (Value_leaf 6 "g"))
       /\ h2 !! 1%nat = Some (set_grad (-0.375) (Value_leaf 4 "d")).
Proof.
  intros h.
  assert (Hb : built ref_less ref_tanh ref_exp ref_pow h).
  { built_from [Value_leaf 6 "g"] (CallMakeValue 4 "d").
    built_from (@nil Value) (CallMakeValue 6 "g").
    apply built_empty. }
  split; [exact Hb|].
  exact (division_gradients ref_less ref_tanh ref_exp ref_pow h 0 1
           (Value_leaf 6 "g") (Value_leaf 4 "d") Hb ltac:(discriminate) eq_refl eq_refl
           (conj eq_refl eq_refl) (conj eq_refl eq_refl)).
Defined.

Lemma neuron_construction_witness :
  exists n h',
    Neuron_ctor ref_gen 3 0 [] = Some ((n, 3%nat), h')
    /\ h' = [Value_leaf 0.5 ""; Value_leaf (-0.25) ""; Value_leaf 0.5 ""; Value_leaf 0 ""]
    /\ Neuron_parameters n = [0; 1; 2; 3]%nat.
Proof.
  destruct (neuron_construction ref_gen 3 0 [])
    as (n & Hctor & _ & _ & Hpar & _).
  exists n, ([] ++ neuron_leaves ref_gen (Z.to_nat 3) 0).
  split; [exact Hctor|]. split; [reflexivity|exact Hpar].
Defined.

Lemma layer_construction_witness :
  exists l h',
    Layer_ctor ref_gen 3 4 0 [] = Some ((l, 12%nat), h')
    /\ length (m_neurons l) = 4%nat
    /\ length (Layer_parameters l) = 16%nat.
Proof.
  destruct (layer_construction ref_gen 3 4 0 [])
    as (l & new & Hctor & Hn & _ & _ & _ & _ & Hlen & _).
  exists l, ([] ++ new). split; [exact Hctor|]. split; [exact Hn|exact Hlen].
Defined.

Lemma mlp_construction_witness :
  exists m h',
    MLP_ctor ref_gen 3 [4; 4; 1]%Z 0 [] = Some ((m, 32%nat), h')
    /\ length (m_layers m) = 3%nat
    /\ length (MLP_parameters m) = 41%nat
    /\ output_size 3 (m_layers m) = 1%nat.
Proof.
  destruct (mlp_construction ref_gen 3 [4; 4; 1]%Z 0 [])
    as (m & new & Hctor & Hn & _ & _ & Hout & _ & _ & _ & Hlen & _).
  exists m, ([] ++ new). split; [exact Hctor|]. split; [exact Hn|].
  split; [exact Hlen|exact (Hout 3%nat)].
Defined.

Lemma scalar_multiple_gradient_witness :
  let h := [Value_leaf 3 "a"] in
  built ref_less ref_tanh ref_exp ref_pow h
  /\ exists k h1 nk tr h2,
       operator_mul_double ref_less 0 10 h = Some (k, h1)
       /\ h1 !! k = Some nk /\ m_data nk = 30
       /\ backward ref_pow k h1 = Some (tr, h2)
       /\ h2 !! 0%nat = Some (set_grad 10 (Value_leaf 3 "a")).
Proof.
  intros h.
  assert (Hb : built ref_less ref_tanh ref_exp ref_pow h).
  { built_from (@nil Value) (CallMakeValue 3 "a"). apply built_empty. }
  split; [exact Hb|].
  exact (proj1 (scalar_multiple_gradient ref_less ref_tanh ref_exp ref_pow h 0
                  (Value_leaf 3 "a") 10 Hb eq_refl)).
Defined.

Lemma backward_ignores_root_gradient_witness :
  let h := [Value_leaf 3 "a"; mkValue 9 0 "" "*" [0%nat] (FnMul 0 0 1)] in
  let h1 := [Value_leaf 3 "a"; mkValue 9 7 "" "*" [0%nat] (FnMul 0 0 1)] in
  exec ref_less ref_tanh ref_exp ref_pow (CallSetGrad 1 7) h = Some (tt, h1)
  /\ backward ref_pow 1 h1 = backward ref_pow 1 h.
Proof.
  intros h h1.
  assert (Hset : exec ref_less ref_tanh ref_exp ref_pow (CallSetGrad 1 7) h = Some (tt, h1))
    by reflexivity.
  split; [exact Hset|].
  exact (backward_ignores_root_gradient ref_less ref_tanh ref_exp ref_pow h h1 1 7 Hset).
Defined.
